(** * Medley: the two-deck transition controller (Medley.cpp)

    A shallow embedding of [medley::Medley] and [medley::Medley::Mixer]:
    the deck callbacks ([deckLoaded], [deckUnloaded], [deckPosition], ...),
    [loadNextTrack], [play], [stop], [fadeOutMainDeck], [setFadingCurve],
    [updateFadingFactor] and [Mixer::togglePause].

    Conventions of the embedding.
    - A C++ [double] is a rational or one of the IEEE special values; the
      arithmetic on finite values is exact (no rounding, no overflow, one
      zero), division by zero and comparisons with NaN follow IEEE 754.
      The cast [(float)] that narrows the fading factor is [toFloat], the
      rounding to single precision; the casts on the results of [pow] are
      part of the parameter [pow].
    - [pow] comes from the C library; it is a parameter of the engine.
    - A [Deck*] is an [option DeckPtr]; dereferencing [nullptr] is the
      error result [NullDeref].
    - Deck.h, Deck.cpp and Medley.h are not among the sources.  The state
      of a deck and the effect of the calls made on it are modelled from
      the specification.  A deck tells the engine of its events through
      callbacks; these are inputs of the engine, delivered one at a time
      (the callbacks are serialised by [callbackLock]), in any order.
    - Every call the engine makes on a deck (a [loadTrack] the deck
      refuses included), and every listener callback it fires, is appended
      to the ghost field [trace].  Log lines are not
      modelled, beyond the pointers they dereference. *)

From Stdlib Require Import ZArith QArith Qround Qpower Qabs Qreduction List Bool Lia Lqa.
Import ListNotations.

(** ** Numbers *)

Module Num.

Inductive double : Type :=
| Fin (q : Q)
| PInf
| NInf
| NaN.

Definition Qltb (a b : Q) : bool :=
  match a ?= b with Lt => true | _ => false end.

Definition Qeqb (a b : Q) : bool :=
  match a ?= b with Eq => true | _ => false end.

(** [a < b]; false as soon as one side is NaN. *)
Definition dlt (a b : double) : bool :=
  match a, b with
  | NaN, _ | _, NaN => false
  | Fin x, Fin y => Qltb x y
  | NInf, NInf => false
  | NInf, _ => true
  | _, NInf => false
  | PInf, _ => false
  | Fin _, PInf => true
  end.

Definition dgt (a b : double) : bool := dlt b a.

(** [a <= b]; false as soon as one side is NaN. *)
Definition dle (a b : double) : bool :=
  match a, b with
  | NaN, _ | _, NaN => false
  | _, _ => negb (dlt b a)
  end.

Definition dge (a b : double) : bool := dle b a.

Definition dneg (a : double) : double :=
  match a with
  | Fin x => Fin (- x)
  | PInf => NInf
  | NInf => PInf
  | NaN => NaN
  end.

Definition dadd (a b : double) : double :=
  match a, b with
  | NaN, _ | _, NaN => NaN
  | Fin x, Fin y => Fin (x + y)
  | PInf, NInf | NInf, PInf => NaN
  | PInf, _ | _, PInf => PInf
  | NInf, _ | _, NInf => NInf
  end.

Definition dsub (a b : double) : double := dadd a (dneg b).

(** Sign of a non-NaN value, the single zero counted as positive. *)
Definition dnonneg (a : double) : bool :=
  match a with
  | Fin x => negb (Qltb x 0)
  | PInf => true
  | _ => false
  end.

Definition dzero (a : double) : bool :=
  match a with
  | Fin x => Qeqb x 0
  | _ => false
  end.

Definition dinf (positive : bool) : double := if positive then PInf else NInf.

Definition dmul (a b : double) : double :=
  match a, b with
  | NaN, _ | _, NaN => NaN
  | Fin x, Fin y => Fin (x * y)
  | _, _ =>
      if dzero a || dzero b then NaN
      else dinf (Bool.eqb (dnonneg a) (dnonneg b))
  end.

Definition ddiv (a b : double) : double :=
  match a, b with
  | NaN, _ | _, NaN => NaN
  | Fin x, Fin y =>
      if Qeqb y 0 then
        (if Qeqb x 0 then NaN else dinf (dnonneg a))
      else Fin (x / y)
  | Fin _, _ => Fin 0
  | _, Fin _ => dinf (Bool.eqb (dnonneg a) (dnonneg b))
  | _, _ => NaN
  end.

(** JUCE's [jlimit (lowerLimit, upperLimit, valueToConstrain)]:
    [v < lo ? lo : (hi < v ? hi : v)]. *)
Definition jlimit (lowerLimit upperLimit valueToConstrain : double) : double :=
  if dlt valueToConstrain lowerLimit then lowerLimit
  else if dlt upperLimit valueToConstrain then upperLimit
  else valueToConstrain.


(** The narrowing of a [double] to a [float] and back, as the cast
    [(float)] does it: the nearest number with a significand of 24 bits,
    ties to the even significand; the exponents below -126 share the
    spacing of -126 (the subnormal numbers), and what rounds to 2^128 or
    beyond is infinite. *)
Definition roundHalfEven (x : Q) : Z :=
  let f := Qfloor x in
  match Qcompare (x - inject_Z f) (1 # 2) with
  | Lt => f
  | Gt => (f + 1)%Z
  | Eq => if Z.even f then f else (f + 1)%Z
  end.

(** The [e] with [2^e <= a < 2^(e+1)], for a positive [a]. *)
Definition binade (a : Q) : Z :=
  let e0 := (Z.log2 (Qnum a) - Z.log2 (Zpos (Qden a)))%Z in
  if Qle_bool (2 ^ e0) a then e0 else (e0 - 1)%Z.

Definition floatExponent (a : Q) : Z := Z.max (binade a) (-126).

Definition nearestFloat (a : Q) : Q :=
  let ulp := 2 ^ (floatExponent a - 23) in
  Qred (inject_Z (roundHalfEven (a / ulp)) * ulp).

Definition toFloatQ (q : Q) : double :=
  if Qeqb q 0 then Fin 0
  else
    let r := nearestFloat (Qabs q) in
    if Qle_bool (2 ^ 128) r then (if Qltb q 0 then NInf else PInf)
    else Fin (if Qltb q 0 then - r else r).

Definition toFloat (a : double) : double :=
  match a with
  | Fin q => toFloatQ q
  | _ => a
  end.

End Num.

Export Num.

Declare Scope double_scope.
Delimit Scope double_scope with D.
Bind Scope double_scope with double.
Notation "a + b" := (dadd a b) : double_scope.
Notation "a - b" := (dsub a b) : double_scope.
Notation "a * b" := (dmul a b) : double_scope.
Notation "a / b" := (ddiv a b) : double_scope.
Notation "a <? b" := (dlt a b) : double_scope.
Notation "a >? b" := (dgt a b) : double_scope.
Notation "a <=? b" := (dle a b) : double_scope.
Notation "a >=? b" := (dge a b) : double_scope.

(** A decimal literal of the source, written as a rational. *)
Definition lit (q : Q) : double := Fin q.

(** The [int] of the engine: 32 bits, two's complement. *)
Definition wrap_int (z : Z) : Z := ((z + 2 ^ 31) mod 2 ^ 32 - 2 ^ 31)%Z.

(** ** Tracks, the queue and the decks *)

(** Modelled from the spec: the track handle ([ITrack], declared in the
    missing Medley.h) is opaque; the engine only learns from
    [Deck::loadTrack] whether a load of it is accepted. *)
Record Track : Type := mkTrack {
  trackId : nat;
  openable : bool
}.

Inductive DeckPtr : Type := Deck1 | Deck2.

Definition DeckPtr_eqb (a b : DeckPtr) : bool :=
  match a, b with
  | Deck1, Deck1 | Deck2, Deck2 => true
  | _, _ => false
  end.

(** The other one of the two decks. *)
Definition otherDeck (d : DeckPtr) : DeckPtr :=
  match d with Deck1 => Deck2 | Deck2 => Deck1 end.

(** Modelled from the spec: the state of a [Deck] that Medley.cpp reads
    through the deck's accessors (Deck.h and Deck.cpp are missing):
    the load and play flags, the [is_main] flag, the volume, the read
    position and the transition anchors, all in seconds. *)
Record Deck : Type := mkDeck {
  isTrackLoading : bool;
  trackLoaded : bool;
  playing : bool;
  main : bool;
  volume : double;
  positionSec : double;
  firstAudiblePosition : double;
  leadingDuration : double;
  transitionPreCuePosition : double;
  transitionCuePosition : double;
  transitionStartPosition : double;
  transitionEndPosition : double
}.

(** Modelled from the spec: a deck as created at engine start, [empty]. *)
Definition newDeck : Deck :=
  mkDeck false false false false (lit 1) (lit 0)
         (lit 0) (lit 0) (lit 0) (lit 0) (lit 0) (lit 0).

(** The calls Medley.cpp makes on a deck. *)
Inductive DeckCall : Type :=
| CallLoadTrack (track : Track) (play : bool)
| CallUnloadTrack
| CallStart
| CallStop
| CallFadeOut
| CallSetVolume (v : double)
| CallSetPosition (p : double)
| CallMarkAsMain (b : bool)
| CallFireFinishedCallback
| CallSetMaxTransitionTime (v : double).

(** Modelled from the spec: what the calls do to the deck they are made on
    (Deck.cpp is missing).  [load] makes the deck [loading] and [unload]
    makes it [empty] and clears its anchors; the [loaded], [unloaded],
    [started] and [finished] events of the deck reach the engine later, as
    callbacks.  [start] and [stop] change the play state, an empty deck
    ignores [start].  The setters store their argument.  [fade_out] and the
    finished callback only signal; so does [setMaxTransitionTime]: the deck
    moves its transition anchors by itself. *)
Definition applyCall (c : DeckCall) (d : Deck) : Deck :=
  match c with
  | CallLoadTrack _ _ =>
      mkDeck true (trackLoaded d) (playing d) (main d) (volume d) (positionSec d)
             (firstAudiblePosition d) (leadingDuration d)
             (transitionPreCuePosition d) (transitionCuePosition d)
             (transitionStartPosition d) (transitionEndPosition d)
  | CallUnloadTrack =>
      mkDeck false false false (main d) (volume d) (lit 0)
             (lit 0) (lit 0) (lit 0) (lit 0) (lit 0) (lit 0)
  | CallStart =>
      mkDeck (isTrackLoading d) (trackLoaded d) (trackLoaded d || playing d)
             (main d) (volume d) (positionSec d)
             (firstAudiblePosition d) (leadingDuration d)
             (transitionPreCuePosition d) (transitionCuePosition d)
             (transitionStartPosition d) (transitionEndPosition d)
  | CallStop =>
      mkDeck (isTrackLoading d) (trackLoaded d) false (main d) (volume d)
             (positionSec d)
             (firstAudiblePosition d) (leadingDuration d)
             (transitionPreCuePosition d) (transitionCuePosition d)
             (transitionStartPosition d) (transitionEndPosition d)
  | CallSetVolume v =>
      mkDeck (isTrackLoading d) (trackLoaded d) (playing d) (main d) v
             (positionSec d)
             (firstAudiblePosition d) (leadingDuration d)
             (transitionPreCuePosition d) (transitionCuePosition d)
             (transitionStartPosition d) (transitionEndPosition d)
  | CallSetPosition p =>
      mkDeck (isTrackLoading d) (trackLoaded d) (playing d) (main d) (volume d) p
             (firstAudiblePosition d) (leadingDuration d)
             (transitionPreCuePosition d) (transitionCuePosition d)
             (transitionStartPosition d) (transitionEndPosition d)
  | CallMarkAsMain b =>
      mkDeck (isTrackLoading d) (trackLoaded d) (playing d) b (volume d)
             (positionSec d)
             (firstAudiblePosition d) (leadingDuration d)
             (transitionPreCuePosition d) (transitionCuePosition d)
             (transitionStartPosition d) (transitionEndPosition d)
  | CallFadeOut | CallFireFinishedCallback | CallSetMaxTransitionTime _ => d
  end.

(** Modelled from the spec: [load (track, autoplay)] "returns whether load
    was accepted" and "fails fast if already loading"; a track that cannot
    be opened is refused. *)
Definition loadAccepted (track : Track) (d : Deck) : bool :=
  negb (isTrackLoading d) && openable track.

(** ** The engine *)

(** Modelled from the spec: [TransitionState] is declared in the missing
    Medley.h; the spec lists its values in this order, and the code
    compares them with [<]. *)
Inductive TransitionState : Type := Idle | Cueing | Cued | Transit.

Definition rank (s : TransitionState) : nat :=
  match s with Idle => 0 | Cueing => 1 | Cued => 2 | Transit => 3 end.

Definition TransitionState_eqb (a b : TransitionState) : bool :=
  Nat.eqb (rank a) (rank b).

Definition TransitionState_ltb (a b : TransitionState) : bool :=
  Nat.ltb (rank a) (rank b).

(** The events of [Medley::Callback] the listeners receive. *)
Inductive Event : Type :=
| EvDeckStarted (d : DeckPtr)
| EvDeckFinished (d : DeckPtr)
| EvDeckLoaded (d : DeckPtr)
| EvDeckUnloaded (d : DeckPtr)
| EvDeckPosition (d : DeckPtr) (position : double)
| EvPreCueNext
| EvAudioDeviceChanged.

Inductive Action : Type :=
| OnDeck (d : DeckPtr) (c : DeckCall)
| Emit (e : Event).

Record Mixer : Type := mkMixer {
  paused : bool;
  stalled : bool;
  outputStarted : bool;
  prepared : bool
}.

Record Medley : Type := mkMedley {
  deck1 : Deck;
  deck2 : Deck;
  queue : list Track;
  deckQueue : list DeckPtr;
  transitionState : TransitionState;
  transitingDeck : option DeckPtr;
  forceFadingOut : Z;
  keepPlaying : bool;
  fadingCurve : double;
  fadingFactor : double;
  maxTransitionTime : double;
  maxLeadingDuration : double;
  mixer : Mixer;
  trace : list Action
}.

Definition getDeck (p : DeckPtr) (m : Medley) : Deck :=
  match p with Deck1 => deck1 m | Deck2 => deck2 m end.

Definition setDeck (p : DeckPtr) (d : Deck) (m : Medley) : Medley :=
  match p with
  | Deck1 =>
      mkMedley d (deck2 m) (queue m) (deckQueue m) (transitionState m)
               (transitingDeck m) (forceFadingOut m) (keepPlaying m)
               (fadingCurve m) (fadingFactor m) (maxTransitionTime m)
               (maxLeadingDuration m) (mixer m) (trace m)
  | Deck2 =>
      mkMedley (deck1 m) d (queue m) (deckQueue m) (transitionState m)
               (transitingDeck m) (forceFadingOut m) (keepPlaying m)
               (fadingCurve m) (fadingFactor m) (maxTransitionTime m)
               (maxLeadingDuration m) (mixer m) (trace m)
  end.

Definition setQueue (q : list Track) (m : Medley) : Medley :=
  mkMedley (deck1 m) (deck2 m) q (deckQueue m) (transitionState m)
           (transitingDeck m) (forceFadingOut m) (keepPlaying m)
           (fadingCurve m) (fadingFactor m) (maxTransitionTime m)
           (maxLeadingDuration m) (mixer m) (trace m).

Definition setDeckQueue (q : list DeckPtr) (m : Medley) : Medley :=
  mkMedley (deck1 m) (deck2 m) (queue m) q (transitionState m)
           (transitingDeck m) (forceFadingOut m) (keepPlaying m)
           (fadingCurve m) (fadingFactor m) (maxTransitionTime m)
           (maxLeadingDuration m) (mixer m) (trace m).

Definition setTransitionState (s : TransitionState) (m : Medley) : Medley :=
  mkMedley (deck1 m) (deck2 m) (queue m) (deckQueue m) s
           (transitingDeck m) (forceFadingOut m) (keepPlaying m)
           (fadingCurve m) (fadingFactor m) (maxTransitionTime m)
           (maxLeadingDuration m) (mixer m) (trace m).

Definition setTransitingDeck (d : option DeckPtr) (m : Medley) : Medley :=
  mkMedley (deck1 m) (deck2 m) (queue m) (deckQueue m) (transitionState m)
           d (forceFadingOut m) (keepPlaying m)
           (fadingCurve m) (fadingFactor m) (maxTransitionTime m)
           (maxLeadingDuration m) (mixer m) (trace m).

Definition setForceFadingOut (n : Z) (m : Medley) : Medley :=
  mkMedley (deck1 m) (deck2 m) (queue m) (deckQueue m) (transitionState m)
           (transitingDeck m) n (keepPlaying m)
           (fadingCurve m) (fadingFactor m) (maxTransitionTime m)
           (maxLeadingDuration m) (mixer m) (trace m).

Definition setKeepPlaying (b : bool) (m : Medley) : Medley :=
  mkMedley (deck1 m) (deck2 m) (queue m) (deckQueue m) (transitionState m)
           (transitingDeck m) (forceFadingOut m) b
           (fadingCurve m) (fadingFactor m) (maxTransitionTime m)
           (maxLeadingDuration m) (mixer m) (trace m).

Definition setFadingCurveField (c : double) (m : Medley) : Medley :=
  mkMedley (deck1 m) (deck2 m) (queue m) (deckQueue m) (transitionState m)
           (transitingDeck m) (forceFadingOut m) (keepPlaying m)
           c (fadingFactor m) (maxTransitionTime m)
           (maxLeadingDuration m) (mixer m) (trace m).

Definition setFadingFactor (f : double) (m : Medley) : Medley :=
  mkMedley (deck1 m) (deck2 m) (queue m) (deckQueue m) (transitionState m)
           (transitingDeck m) (forceFadingOut m) (keepPlaying m)
           (fadingCurve m) f (maxTransitionTime m)
           (maxLeadingDuration m) (mixer m) (trace m).

Definition setMaxTransitionTimeField (v : double) (m : Medley) : Medley :=
  mkMedley (deck1 m) (deck2 m) (queue m) (deckQueue m) (transitionState m)
           (transitingDeck m) (forceFadingOut m) (keepPlaying m)
           (fadingCurve m) (fadingFactor m) v
           (maxLeadingDuration m) (mixer m) (trace m).

Definition setMaxLeadingDurationField (v : double) (m : Medley) : Medley :=
  mkMedley (deck1 m) (deck2 m) (queue m) (deckQueue m) (transitionState m)
           (transitingDeck m) (forceFadingOut m) (keepPlaying m)
           (fadingCurve m) (fadingFactor m) (maxTransitionTime m)
           v (mixer m) (trace m).

Definition setMixer (x : Mixer) (m : Medley) : Medley :=
  mkMedley (deck1 m) (deck2 m) (queue m) (deckQueue m) (transitionState m)
           (transitingDeck m) (forceFadingOut m) (keepPlaying m)
           (fadingCurve m) (fadingFactor m) (maxTransitionTime m)
           (maxLeadingDuration m) x (trace m).

Definition record (a : Action) (m : Medley) : Medley :=
  mkMedley (deck1 m) (deck2 m) (queue m) (deckQueue m) (transitionState m)
           (transitingDeck m) (forceFadingOut m) (keepPlaying m)
           (fadingCurve m) (fadingFactor m) (maxTransitionTime m)
           (maxLeadingDuration m) (mixer m) (trace m ++ [a]).

(** [listeners.call (...)]. *)
Definition emit (e : Event) (m : Medley) : Medley := record (Emit e) m.

(** [deck->call (...)]: the deck changes and the call is recorded. *)
Definition onDeck (p : DeckPtr) (c : DeckCall) (m : Medley) : Medley :=
  record (OnDeck p c) (setDeck p (applyCall c (getDeck p m)) m).

(** [deck->loadTrack (track, play)]: the call is recorded whether or not the
    deck accepts the track; a deck that refuses stays as it is. *)
Definition loadTrack (p : DeckPtr) (track : Track) (play : bool) (m : Medley)
  : bool * Medley :=
  if loadAccepted track (getDeck p m)
  then (true, onDeck p (CallLoadTrack track play) m)
  else (false, record (OnDeck p (CallLoadTrack track play)) m).

(** Dereferencing a null [Deck*] ends the run. *)
Inductive Result (A : Type) : Type :=
| Ok (a : A)
| NullDeref.

Arguments Ok {A} a.
Arguments NullDeref {A}.

Definition bind {A B : Type} (r : Result A) (k : A -> Result B) : Result B :=
  match r with
  | Ok a => k a
  | NullDeref => NullDeref
  end.

Notation "x <- c ;; k" := (bind c (fun x => k))
  (at level 61, c at next level, right associativity).
Notation "' pat <- c ;; k" := (bind c (fun x => match x with pat => k end))
  (at level 61, pat pattern, c at next level, right associativity).

Open Scope double_scope.

(** [Mixer::togglePause]: [return paused = !paused;]. *)
Definition togglePause (x : Mixer) : bool * Mixer :=
  let p := negb (paused x) in
  (p, mkMixer p (stalled x) (outputStarted x) (prepared x)).

(** Modelled from the spec: [Mixer::setPause] (declared in the missing
    Medley.h) stores the flag that [togglePause] flips. *)
Definition setPause (b : bool) (x : Mixer) : Mixer :=
  mkMixer b (stalled x) (outputStarted x) (prepared x).

Definition getAvailableDeck (m : Medley) : option DeckPtr :=
  if negb (trackLoaded (deck1 m)) then Some Deck1
  else if negb (trackLoaded (deck2 m)) then Some Deck2
  else None.

Definition getAnotherDeck (from : option DeckPtr) (m : Medley) : option DeckPtr :=
  match from with
  | None => getAvailableDeck m
  | Some d => Some (if DeckPtr_eqb d Deck1 then Deck2 else Deck1)
  end.

Definition getMainDeck (m : Medley) : option DeckPtr :=
  match deckQueue m with
  | [] => None
  | front :: _ => Some front
  end.

Definition isDeckPlaying (m : Medley) : bool :=
  playing (deck1 m) || playing (deck2 m).

(** Modelled from the spec: the queue contract of [IQueue] is
    [count () -> size] and [fetch_next () -> track_handle]; the queue is the
    list of the tracks not fetched yet.  The function is the loop
    [while (queue.count () > 0) { track = queue.fetchNextTrack (); if
    (deck->loadTrack (track, play)) return true; }] of [loadNextTrack],
    run on the tracks [q] still in the queue. *)
Fixpoint fetchAndLoad (deck : DeckPtr) (play : bool) (q : list Track)
  (m : Medley) : bool * Medley :=
  match q with
  | [] => (false, m)
  | track :: rest =>
      let (accepted, m1) := loadTrack deck track play (setQueue rest m) in
      if accepted then (true, m1) else fetchAndLoad deck play rest m1
  end.

(** [Medley::loadNextTrack].  When no other deck is found the log line
    reads [currentDeck->getName ()]; with [currentDeck == nullptr] this
    dereferences the null pointer. *)
Definition loadNextTrack (currentDeck : option DeckPtr) (play : bool)
  (m : Medley) : Result (bool * Medley) :=
  match getAnotherDeck currentDeck m with
  | None =>
      match currentDeck with
      | None => NullDeref
      | Some _ => Ok (false, m)
      end
  | Some deck =>
      let m1 := if isTrackLoading (getDeck deck m)
                then onDeck deck CallUnloadTrack m
                else m in
      Ok (fetchAndLoad deck play (queue m1) m1)
  end.

Definition deckStarted (sender : DeckPtr) (m : Medley) : Medley :=
  emit (EvDeckStarted sender) m.

Definition deckFinished (sender : DeckPtr) (m : Medley) : Medley :=
  emit (EvDeckFinished sender) m.

(** [deckQueue.front ()->markAsMain (true)], guarded where the source
    guards it. *)
Definition markFrontAsMain (m : Medley) : Medley :=
  match deckQueue m with
  | [] => m
  | front :: _ => onDeck front (CallMarkAsMain true) m
  end.

Definition deckLoaded (sender : DeckPtr) (m : Medley) : Medley :=
  let m1 := setDeckQueue (deckQueue m ++ [sender]) m in
  let m2 := markFrontAsMain m1 in
  emit (EvDeckLoaded sender) m2.

Definition isTransitingDeck (sender : DeckPtr) (m : Medley) : bool :=
  match transitingDeck m with
  | Some d => DeckPtr_eqb sender d
  | None => false
  end.

(** [deckUnloaded], the block under [&sender == transitingDeck]. *)
Definition deckUnloaded_transiting (sender : DeckPtr) (m : Medley)
  : Result Medley :=
  if isTransitingDeck sender m then
    m' <- (if TransitionState_eqb (transitionState m) Cued then
             match getAnotherDeck (transitingDeck m) m with
             | None => NullDeref
             | Some nextDeck =>
                 if trackLoaded (getDeck nextDeck m)
                 then Ok (onDeck nextDeck CallStart m)
                 else Ok m
             end
           else Ok m) ;;
    let m'' := setTransitingDeck None (setTransitionState Idle m') in
    Ok (if (forceFadingOut m'' >? 0)%Z
        then setForceFadingOut (wrap_int (forceFadingOut m'' - 1)) m''
        else m'')
  else Ok m.

(** [deckUnloaded], the block under the callback lock. *)
Definition deckUnloaded_dequeue (sender : DeckPtr) (m : Medley) : Medley :=
  let m2 := onDeck sender (CallMarkAsMain false) m in
  let m3 := setDeckQueue
              (filter (fun d => negb (DeckPtr_eqb d sender)) (deckQueue m2)) m2 in
  let m4 := markFrontAsMain m3 in
  emit (EvDeckUnloaded sender) m4.

(** [deckUnloaded], the block under [keepPlaying && !isDeckPlaying ()]. *)
Definition deckUnloaded_keepPlaying (m : Medley) : Result Medley :=
  if keepPlaying m && negb (isDeckPlaying m) then
    let shouldContinuePlaying := (0 <? length (queue m))%nat in
    let m6 := setKeepPlaying shouldContinuePlaying m in
    if shouldContinuePlaying
    then r <- loadNextTrack None true m6 ;; Ok (snd r)
    else Ok m6
  else Ok m.

Definition deckUnloaded (sender : DeckPtr) (m : Medley) : Result Medley :=
  m1 <- deckUnloaded_transiting sender m ;;
  deckUnloaded_keepPlaying (deckUnloaded_dequeue sender m1).

Section Engine.

(** The C library's [pow]. *)
Variable pow : double -> double -> double.

(** [deckPosition], the block under [transitionState < Cued]; the boolean
    tells whether the callback returned from inside it. *)
Definition deckPosition_cueing (sender nextDeck : DeckPtr) (position : double)
  (transitionPreCuePoint transitionCuePoint : double) (m : Medley)
  : Result (bool * Medley) :=
  let m1 := if TransitionState_eqb (transitionState m) Idle
               && (position >? transitionPreCuePoint)
            then emit EvPreCueNext (setTransitionState Cueing m)
            else m in
  r <- (if position >? transitionCuePoint then
          l <- loadNextTrack (Some sender) false m1 ;;
          if negb (fst l) && (forceFadingOut (snd l) <=? 0)%Z
          then Ok (true, snd l)
          else Ok (false, setTransitingDeck (Some sender)
                            (setTransitionState Cued (snd l)))
        else Ok (false, m1)) ;;
  if (fst r : bool) then Ok (true, snd r)
  else
    let m2 := snd r in
    Ok (false,
        if negb (main (getDeck sender m2))
           && trackLoaded (getDeck nextDeck m2)
           && negb (playing (getDeck nextDeck m2))
        then onDeck nextDeck CallFireFinishedCallback m2
        else m2).

(** [deckPosition], the block under
    [position > transitionStartPos - leadingDuration]. *)
Definition deckPosition_transiting (nextDeck : DeckPtr) (position : double)
  (transitionStartPos leadingDuration : double) (m : Medley) : Medley :=
  if position >? transitionStartPos - leadingDuration then
    let m1 :=
      if TransitionState_eqb (transitionState m) Cued then
        if trackLoaded (getDeck nextDeck m) then
          let a := setTransitionState Transit m in
          let b := onDeck nextDeck (CallSetVolume (lit 1)) a in
          let c := if (forceFadingOut b >? 0)%Z then
                     if leadingDuration >=? maxLeadingDuration b then
                       onDeck nextDeck
                         (CallSetPosition
                            (firstAudiblePosition (getDeck nextDeck b)
                             + leadingDuration - maxLeadingDuration b)) b
                     else b
                   else b in
          onDeck nextDeck CallStart c
        else m
      else m in
    if TransitionState_eqb (transitionState m1) Transit then
      if leadingDuration >=? maxLeadingDuration m1 then
        let fadeInProgress :=
          jlimit (lit 0.25) (lit 1)
                 ((position - (transitionStartPos - leadingDuration))
                  / leadingDuration) in
        onDeck nextDeck (CallSetVolume (pow fadeInProgress (fadingFactor m1))) m1
      else m1
    else m1
  else m.

(** [deckPosition], the block under [position >= transitionStartPos]. *)
Definition deckPosition_fadingOut (sender : DeckPtr) (position : double)
  (transitionStartPos transitionEndPos : double) (m : Medley) : Medley :=
  if position >=? transitionStartPos then
    let transitionDuration := transitionEndPos - transitionStartPos in
    let transitionProgress :=
      jlimit (lit 0) (lit 1) ((position - transitionStartPos) / transitionDuration) in
    let m1 := if transitionDuration >? lit 0
              then onDeck sender
                     (CallSetVolume (pow (lit 1 - transitionProgress) (fadingFactor m))) m
              else m in
    if negb (TransitionState_eqb (transitionState m1) Idle)
       && (position >? transitionEndPos)
    then (if transitionProgress >=? lit 1 then onDeck sender CallStop m1 else m1)
    else m1
  else m.

Definition deckPosition (sender : DeckPtr) (position : double) (m0 : Medley)
  : Result Medley :=
  let m := emit (EvDeckPosition sender position) m0 in
  match getAnotherDeck (Some sender) m with
  | None => Ok m
  | Some nextDeck =>
      if main (getDeck sender m) then
        let transitionPreCuePoint := transitionPreCuePosition (getDeck sender m) in
        let transitionCuePoint := transitionCuePosition (getDeck sender m) in
        let transitionStartPos := transitionStartPosition (getDeck sender m) in
        let transitionEndPos := transitionEndPosition (getDeck sender m) in
        let leadingDuration := leadingDuration (getDeck nextDeck m) in
        r <- (if TransitionState_ltb (transitionState m) Cued
              then deckPosition_cueing sender nextDeck position
                     transitionPreCuePoint transitionCuePoint m
              else Ok (false, m)) ;;
        if (fst r : bool) then Ok (snd r)
        else
          Ok (deckPosition_fadingOut sender position
                transitionStartPos transitionEndPos
                (deckPosition_transiting nextDeck position
                   transitionStartPos leadingDuration (snd r)))
      else
        match deckQueue m with
        | [] => Ok m
        | front :: _ =>
            if DeckPtr_eqb front sender
            then Ok (onDeck sender (CallMarkAsMain true) m)
            else Ok m
        end
  end.

End Engine.

Definition fadeOutMainDeck (m : Medley) : Medley :=
  match getMainDeck m with
  | None => m
  | Some deck =>
      let m1 := setForceFadingOut (wrap_int (forceFadingOut m + 1)) m in
      let m2 := if TransitionState_eqb (transitionState m1) Transit
                then setTransitionState Idle (onDeck deck CallUnloadTrack m1)
                else m1 in
      let deck' := if TransitionState_eqb (transitionState m1) Transit
                   then getMainDeck m2
                   else Some deck in
      match deck' with
      | None => m2
      | Some d =>
          let m3 := onDeck d CallFadeOut m2 in
          setMixer (setPause false (mixer m3)) m3
      end
  end.

Definition updateFadingFactor (m : Medley) : Medley :=
  let outRange := lit 1000 - lit 1 in
  let inRange := lit 100 in
  setFadingFactor
    (toFloat
       (lit 1000 / (((lit 100 - fadingCurve m) / inRange * outRange) + lit 1)))
    m.

Definition setFadingCurve (curve : double) (m : Medley) : Medley :=
  updateFadingFactor (setFadingCurveField (jlimit (lit 0) (lit 100) curve) m).

(** [Medley::setMaxTransitionTime]. *)
Definition setMaxTransitionTime (value : double) (m : Medley) : Medley :=
  let m1 := setMaxTransitionTimeField value m in
  let m2 := onDeck Deck1 (CallSetMaxTransitionTime value) m1 in
  onDeck Deck2 (CallSetMaxTransitionTime value) m2.

(** Modelled from the spec: [setMaxLeadingDuration] (defined in the missing
    Medley.h, called by the Node binding) stores the setting
    [max_leading_duration]. *)
Definition setMaxLeadingDuration (value : double) (m : Medley) : Medley :=
  setMaxLeadingDurationField value m.

Definition play (m : Medley) : Result Medley :=
  m1 <- (if negb (isDeckPlaying m)
         then r <- loadNextTrack None true m ;; Ok (snd r)
         else Ok m) ;;
  let m2 := setKeepPlaying true m1 in
  Ok (setMixer (setPause false (mixer m2)) m2).

Definition stop (m : Medley) : Medley :=
  let m1 := setKeepPlaying false m in
  let m2 := onDeck Deck1 CallStop m1 in
  let m3 := onDeck Deck2 CallStop m2 in
  let m4 := onDeck Deck1 CallUnloadTrack m3 in
  onDeck Deck2 CallUnloadTrack m4.

(** ** The engine as a reactive system *)

(** What happens to an engine: a deck callback arrives, the audio device
    changes, the caller uses the API, or a deck changes by itself (its
    loader, decoder or the audio thread: a load completes, playback ends,
    the track is released, the caller seeks).  The API calls that only
    reach the decks or the audio device are deck activity. *)
Inductive Input : Type :=
| InDeckStarted (sender : DeckPtr)
| InDeckFinished (sender : DeckPtr)
| InDeckLoaded (sender : DeckPtr)
| InDeckUnloaded (sender : DeckPtr)
| InDeckPosition (sender : DeckPtr) (position : double)
| InAudioDeviceChanged
| InPlay
| InStop
| InFadeOutMainDeck
| InSetFadingCurve (curve : double)
| InTogglePause
| InDeckActivity (d : DeckPtr) (now : Deck)
| InSetMaxTransitionTime (value : double)
| InSetMaxLeadingDuration (value : double).

(** Modelled from the spec: a deck changes its own load state, play state,
    position and anchors; [is_main] and the volume are only written through
    [markAsMain] and [setVolume]. *)
Definition deckActivity (d : DeckPtr) (now : Deck) (m : Medley) : Medley :=
  setDeck d
    (mkDeck (isTrackLoading now) (trackLoaded now) (playing now)
            (main (getDeck d m)) (volume (getDeck d m)) (positionSec now)
            (firstAudiblePosition now) (leadingDuration now)
            (transitionPreCuePosition now) (transitionCuePosition now)
            (transitionStartPosition now) (transitionEndPosition now)) m.

Section System.

Variable pow : double -> double -> double.

Definition handle (i : Input) (m : Medley) : Result Medley :=
  match i with
  | InDeckStarted sender => Ok (deckStarted sender m)
  | InDeckFinished sender => Ok (deckFinished sender m)
  | InDeckLoaded sender => Ok (deckLoaded sender m)
  | InDeckUnloaded sender => deckUnloaded sender m
  | InDeckPosition sender position => deckPosition pow sender position m
  | InAudioDeviceChanged => Ok (emit EvAudioDeviceChanged m)
  | InPlay => play m
  | InStop => Ok (stop m)
  | InFadeOutMainDeck => Ok (fadeOutMainDeck m)
  | InSetFadingCurve curve => Ok (setFadingCurve curve m)
  | InTogglePause => Ok (setMixer (snd (togglePause (mixer m))) m)
  | InDeckActivity d now => Ok (deckActivity d now m)
  | InSetMaxTransitionTime value => Ok (setMaxTransitionTime value m)
  | InSetMaxLeadingDuration value => Ok (setMaxLeadingDuration value m)
  end.

Fixpoint run (inputs : list Input) (m : Medley) : Result Medley :=
  match inputs with
  | [] => Ok m
  | i :: rest => m1 <- handle i m ;; run rest m1
  end.

End System.

(** Modelled from the spec: the engine as constructed (the member
    initialisers are in the missing Medley.h): both decks empty, the deck
    queue empty, [idle], no transiting deck, no forced fade, not playing.
    The constructor runs [updateFadingFactor]. *)
Definition newMedley (q : list Track) (curve maxTransition maxLeading : double)
  : Medley :=
  updateFadingFactor
    (mkMedley newDeck newDeck q [] Idle None 0 false curve (lit 0)
              maxTransition maxLeading (mkMixer false false false false) []).

Definition reachable (pow : double -> double -> double) (m : Medley) : Prop :=
  exists q curve maxTransition maxLeading inputs,
    run pow inputs (newMedley q curve maxTransition maxLeading) = Ok m.


(** ** What a handler leaves alone *)

(** The fields of the engine that no call on a deck touches. *)
Definition control (m : Medley) :=
  (deckQueue m, transitionState m, transitingDeck m, forceFadingOut m,
   keepPlaying m, fadingCurve m, fadingFactor m, maxLeadingDuration m,
   maxTransitionTime m, mixer m).

(** The fields of a deck that [loadTrack] leaves alone. *)
Definition deckData (d : Deck) :=
  (trackLoaded d, playing d, main d, volume d, positionSec d,
   firstAudiblePosition d, leadingDuration d,
   transitionPreCuePosition d, transitionCuePosition d,
   transitionStartPosition d, transitionEndPosition d).

Definition isLoadOrUnload (a : Action) : bool :=
  match a with
  | OnDeck _ (CallLoadTrack _ _) | OnDeck _ CallUnloadTrack => true
  | _ => false
  end.

Definition isPreCueNext (a : Action) : bool :=
  match a with
  | Emit EvPreCueNext => true
  | _ => false
  end.

(** How often the listeners have been told [preCueNext]. *)
Definition preCueCount (m : Medley) : nat :=
  length (filter isPreCueNext (trace m)).

(** The [is_main] flags and the deck queue. *)
Definition mains (m : Medley) := (main (deck1 m), main (deck2 m), deckQueue m).

(** The head of the deck queue is the only deck flagged as main. *)
Definition mainIsHead (m : Medley) : Prop :=
  forall d, main (getDeck d m) = true <-> getMainDeck m = Some d.

(** ** Callbacks delivered in step with the decks *)



(** What is delivered to the engine: an input, or the completion of a load
    on a deck, which is the deck's change of state followed at once by its
    [loaded] callback. *)
Inductive Delivery : Type :=
| Deliver (i : Input)
| LoadCompleted (d : DeckPtr) (now : Deck).

Definition inputsOf (x : Delivery) : list Input :=
  match x with
  | Deliver i => [i]
  | LoadCompleted d now => [InDeckActivity d now; InDeckLoaded d]
  end.

(** A delivery is in step with the decks when a deck comes to hold a track
    only by a completed load, and the [unloaded] callback is delivered only
    for a deck that holds no track. *)
Definition inStep (x : Delivery) (m : Medley) : bool :=
  match x with
  | Deliver (InDeckUnloaded d) => negb (trackLoaded (getDeck d m))
  | Deliver (InDeckActivity d now) =>
      implb (trackLoaded now) (trackLoaded (getDeck d m))
  | Deliver _ => true
  | LoadCompleted d now => trackLoaded now
  end.

Section Deliveries.

Variable pow : double -> double -> double.

Fixpoint deliveredInStep (ds : list Delivery) (m : Medley) : bool :=
  match ds with
  | [] => true
  | x :: rest =>
      inStep x m
      && match run pow (inputsOf x) m with
         | Ok m1 => deliveredInStep rest m1
         | NullDeref => true
         end
  end.

(** The states a new engine reaches when everything is delivered in
    step. *)
Definition reachableInStep (m : Medley) : Prop :=
  exists q curve maxTransition maxLeading ds,
    deliveredInStep ds (newMedley q curve maxTransition maxLeading) = true
    /\ run pow (flat_map inputsOf ds)
           (newMedley q curve maxTransition maxLeading) = Ok m.

End Deliveries.

(** ** The callback of the main deck, block by block *)

(** The state after the listeners were told the position and the pre-cue
    step was taken. *)
Definition preCueStep (sender : DeckPtr) (position : double) (m : Medley)
  : Medley :=
  let me := emit (EvDeckPosition sender position) m in
  if TransitionState_eqb (transitionState me) Idle
     && (position >? transitionPreCuePosition (getDeck sender me))
  then emit EvPreCueNext (setTransitionState Cueing me)
  else me.

(** [transitionState = Cued; transitingDeck = &sender;]. *)
Definition cued (sender : DeckPtr) (m : Medley) : Medley :=
  setTransitingDeck (Some sender) (setTransitionState Cued m).

(** The transiting block followed by the fading-out block, with the anchors
    the callback read from the state [m] it started in. *)
Definition afterCueing (pow : double -> double -> double)
  (sender : DeckPtr) (position : double) (m x : Medley) : Medley :=
  deckPosition_fadingOut pow sender position
    (transitionStartPosition (getDeck sender m))
    (transitionEndPosition (getDeck sender m))
    (deckPosition_transiting pow (otherDeck sender) position
       (transitionStartPosition (getDeck sender m))
       (leadingDuration (getDeck (otherDeck sender) m)) x).

(** Trace entries of the cueing block: listener events, load and unload
    calls. *)
Definition isQuiet (a : Action) : bool :=
  match a with
  | Emit _ => true
  | OnDeck _ _ => isLoadOrUnload a
  end.



(** ** Transition cycles *)

(** The inputs that take the engine back to [Idle]: the [unloaded] event of
    the transiting deck, and a forced fade in [Transit], which unloads the
    main deck. *)
Definition endsCycle (i : Input) (m : Medley) : bool :=
  match i with
  | InDeckUnloaded sender => isTransitingDeck sender m
  | InFadeOutMainDeck => TransitionState_eqb (transitionState m) Transit
  | _ => false
  end.

(** No input of the run ends the cycle the engine is in. *)
Fixpoint withinCycle (pow : double -> double -> double) (inputs : list Input)
  (m : Medley) : bool :=
  match inputs with
  | [] => true
  | i :: rest =>
      negb (endsCycle i m)
      && match handle pow i m with
         | Ok m1 => withinCycle pow rest m1
         | NullDeref => true
         end
  end.

(** The pre-cue step of [deckPosition] fires. *)
Definition preCueFires (sender : DeckPtr) (position : double) (m : Medley)
  : bool :=
  main (getDeck sender m)
  && TransitionState_eqb (transitionState m) Idle
  && (position >? transitionPreCuePosition (getDeck sender m)).

(** While a transition is under way ([Cued] or [Transit]) the transiting
    deck is the main deck, the head of the deck queue. *)
Definition transitingIsMain (m : Medley) : Prop :=
  transitionState m = Cued \/ transitionState m = Transit ->
  exists d, transitingDeck m = Some d /\ getMainDeck m = Some d.

(** What [transitingIsMain] looks at. *)
Definition cycleView (m : Medley) :=
  (transitionState m, transitingDeck m, deckQueue m).
(** ** Concrete engines, used to run the definitions *)

(** A stand-in for [pow] on the runs below: the curve of exponent one. *)
Definition linear_pow (x y : double) : double := x.

Definition trackA : Track := mkTrack 1 true.
Definition trackB : Track := mkTrack 2 true.

(** A deck holding a track that is not playing: loaded and not started
    yet, or stopped and not released yet. *)
Definition heldDeck : Deck :=
  mkDeck false true false false (lit 1) (lit 0)
         (lit 0) (lit 0) (lit 5) (lit 6) (lit 8) (lit 10).

(** Both decks hold a track, none plays, one track waits in the queue. *)
Definition bothHeld : Medley :=
  deckActivity Deck2 heldDeck
    (deckActivity Deck1 heldDeck
       (newMedley [trackA] (lit 50) (lit 2) (lit 2.5))).

(** The main deck in the middle of a transition whose end (8 s) lies before
    its start (10 s); the other deck has been started. *)
Definition invertedDeck : Deck :=
  mkDeck false true true true (lit 1) (lit 0)
         (lit 0) (lit 0) (lit 2) (lit 6) (lit 10) (lit 8).

Definition incomingDeck : Deck :=
  mkDeck false true true false (lit 1) (lit 0)
         (lit 0.5) (lit 0.5) (lit 40) (lit 44) (lit 56) (lit 58).

Definition invertedTransit : Medley :=
  mkMedley invertedDeck incomingDeck [] [Deck1; Deck2] Transit (Some Deck1)
           0 true (lit 50) (lit 1) (lit 2) (lit 2.5)
           (mkMixer false false false false) [].

Definition resultOf (r : Result Medley) (otherwise : Medley) : Medley :=
  match r with
  | Ok m => m
  | NullDeref => otherwise
  end.

Definition quietMixer : Mixer := mkMixer false false false false.

(** A new engine with two tracks queued, after [play ()], the load on the
    first deck completing and its [loaded] event. *)
Definition firstTrackInputs : list Input :=
  [InPlay;
   InDeckActivity Deck1
     (mkDeck false true true false (lit 1) (lit 0)
             (lit 0.5) (lit 0.5) (lit 2) (lit 6) (lit 8) (lit 10));
   InDeckLoaded Deck1].

Definition firstTrackPlaying : Medley :=
  resultOf (run linear_pow firstTrackInputs
              (newMedley [trackA; trackB] (lit 50) (lit 2) (lit 2.5)))
           bothHeld.

(** The main deck: pre-cue at 2 s, cue at 6 s, transition from 8 s to
    10 s. *)
Definition mainDeck : Deck :=
  mkDeck false true true true (lit 1) (lit 0)
         (lit 0.5) (lit 0.5) (lit 2) (lit 6) (lit 8) (lit 10).

(** One deck plays, the other is empty, a track waits in the queue. *)
Definition soloPlaying : Medley :=
  mkMedley mainDeck newDeck [trackB] [Deck1] Idle None 0 true
           (lit 50) (lit 1) (lit 2) (lit 2.5) quietMixer [].

(** The next deck holds a track with a short leading (0.5 s), not started. *)
Definition shortLeadingDeck : Deck :=
  mkDeck false true false false (lit 1) (lit 0)
         (lit 0.5) (lit 0.5) (lit 40) (lit 44) (lit 56) (lit 58).

(** The next deck holds a track with a long leading (5 s, first audible at
    1 s), not started. *)
Definition longLeadingDeck : Deck :=
  mkDeck false true false false (lit 1) (lit 0)
         (lit 1) (lit 5) (lit 40) (lit 44) (lit 56) (lit 58).

Definition shortCued : Medley :=
  mkMedley mainDeck shortLeadingDeck [] [Deck1; Deck2] Cued (Some Deck1) 0 true
           (lit 50) (lit 1) (lit 2) (lit 2.5) quietMixer [].

Definition shortTransitInputs : list Input :=
  [InDeckPosition Deck1 (lit 7.6); InDeckStarted Deck2;
   InDeckPosition Deck2 (lit 0.1); InDeckPosition Deck1 (lit 8.5)].

Definition shortTransit : Medley :=
  resultOf (run linear_pow shortTransitInputs shortCued) shortCued.

Definition shortTransitNext : Medley :=
  resultOf (deckPosition linear_pow Deck1 (lit 9) shortTransit) shortCued.

(** A forced fade is pending and the next track has a long leading. *)
Definition forcedCued : Medley :=
  mkMedley mainDeck longLeadingDeck [] [Deck1; Deck2] Cued (Some Deck1) 1 true
           (lit 50) (lit 1) (lit 2) (lit 2.5) quietMixer [].

Definition forcedTransit : Medley :=
  resultOf (deckPosition linear_pow Deck1 (lit 7) forcedCued) forcedCued.

(** The transiting deck has released its track in [Cued]; the other deck
    holds the next track. *)
Definition releasedDeck : Deck :=
  mkDeck false false false true (lit 1) (lit 0)
         (lit 0) (lit 0) (lit 0) (lit 0) (lit 0) (lit 0).

Definition cuedReleased : Medley :=
  mkMedley releasedDeck shortLeadingDeck [trackB] [Deck1; Deck2] Cued
           (Some Deck1) 0 true (lit 50) (lit 1) (lit 2) (lit 2.5) quietMixer [].

(** A transition of length zero: it starts and ends at 10 s. *)
Definition cutDeck : Deck :=
  mkDeck false true true true (lit 1) (lit 0)
         (lit 0.5) (lit 0.5) (lit 2) (lit 6) (lit 10) (lit 10).

Definition cutTransit : Medley :=
  mkMedley cutDeck incomingDeck [] [Deck1; Deck2] Transit (Some Deck1)
           0 true (lit 50) (lit 1) (lit 0) (lit 2.5) quietMixer [].

(** The main deck passes its pre-cue point, its cue point (the next track
    is loaded), and the start of its transition. *)
Definition cycleInputs : list Input :=
  [InDeckPosition Deck1 (lit 3); InDeckPosition Deck1 (lit 4);
   InDeckPosition Deck1 (lit 7);
   InDeckActivity Deck2 shortLeadingDeck; InDeckLoaded Deck2;
   InDeckPosition Deck1 (lit 7.8); InDeckStarted Deck2;
   InDeckPosition Deck1 (lit 9); InDeckPosition Deck2 (lit 1)].

Definition cycleEnd : Medley :=
  resultOf (run linear_pow cycleInputs soloPlaying) soloPlaying.

(** A transition is cued and the next track has a long leading; no forced
    fade is pending. *)
Definition longCued : Medley :=
  mkMedley mainDeck longLeadingDeck [] [Deck1; Deck2] Cued (Some Deck1) 0 true
           (lit 50) (lit 1) (lit 2) (lit 2.5) quietMixer [].

Definition longTransitInputs : list Input :=
  [InDeckPosition Deck1 (lit 7.5); InDeckStarted Deck2;
   InDeckPosition Deck2 (lit 0.1)].

Definition longTransit : Medley :=
  resultOf (run linear_pow longTransitInputs longCued) longCued.

Definition longTransitNext : Medley :=
  resultOf (deckPosition linear_pow Deck1 (lit 7.6) longTransit) longCued.




(** The first track plays and the caller stops the engine; the [unloaded]
    callbacks of the decks have not been delivered yet. *)
Definition stoppedInputs : list Input := firstTrackInputs ++ [InStop].

Definition stoppedEngine : Medley :=
  resultOf (run linear_pow stoppedInputs
              (newMedley [trackA; trackB] (lit 50) (lit 2) (lit 2.5)))
           bothHeld.

(** The run to [firstTrackPlaying] as deliveries: [play ()], then the load
    on the first deck completing. *)
Definition firstTrackDeliveries : list Delivery :=
  [Deliver InPlay;
   LoadCompleted Deck1
     (mkDeck false true true false (lit 1) (lit 0)
             (lit 0.5) (lit 0.5) (lit 2) (lit 6) (lit 8) (lit 10))].

(** The run to [stoppedEngine] as deliveries. *)
Definition stoppedDeliveries : list Delivery :=
  firstTrackDeliveries ++ [Deliver InStop].

(** * The rest of the engine and its callers *)

(** ** The queue of the playground *)

(** [class Queue : public medley::IQueue] of the playground: a
    [std::list] of tracks.  [fetchNextTrack] takes [tracks.front ()] and
    erases [tracks.begin ()]; on an empty list [front ()] is undefined, the
    result is [None]. *)
Module Queue.

Section WithTrack.

Variable T : Type.

Definition count (tracks : list T) : nat := length tracks.

Definition fetchNextTrack (tracks : list T) : option (T * list T) :=
  match tracks with
  | [] => None
  | track :: rest => Some (track, rest)
  end.

(** [tracks.push_back (t)], as [buttonClicked] does for every chosen file. *)
Definition push_back (t : T) (tracks : list T) : list T := tracks ++ [t].

(** [n] calls of [fetchNextTrack] in a row: the tracks fetched, in the
    order of the calls, and the queue left. *)
Fixpoint fetchMany (n : nat) (tracks : list T) : option (list T * list T) :=
  match n with
  | O => Some ([], tracks)
  | S k =>
      match fetchNextTrack tracks with
      | None => None
      | Some (track, rest) =>
          match fetchMany k rest with
          | None => None
          | Some (fetched, remaining) => Some (track :: fetched, remaining)
          end
      end
  end.

End WithTrack.

End Queue.

(** The loop of [loadNextTrack], written against the queue of the
    playground: [while (queue.count () > 0) { auto track =
    queue.fetchNextTrack (); if (deck->loadTrack (track, play)) return
    true; }].  The fuel bounds the number of tests of the loop condition;
    [None] is the undefined [front ()] of an empty list, or no fuel left. *)
Fixpoint loadLoop (fuel : nat) (deck : DeckPtr) (play : bool) (m : Medley)
  : option (bool * Medley) :=
  match fuel with
  | O => None
  | S k =>
      if (0 <? Queue.count Track (queue m))%nat then
        match Queue.fetchNextTrack Track (queue m) with
        | None => None
        | Some (track, rest) =>
            let (accepted, m1) := loadTrack deck track play (setQueue rest m) in
            if accepted then Some (true, m1) else loadLoop k deck play m1
        end
      else Some (false, m)
  end.

(** ** The dispatch-loop worker of the Node binding *)

(** The file-scope state of core.cpp: [worker] (null or not) and the atomic
    [workerRefCount]; two ghost counters tell how often a worker was
    queued and how often one was shut down. *)
Record WorkerState : Type := mkWorkerState {
  worker : bool;
  workerRefCount : Z;
  workersQueued : nat;
  workersShutDown : nat
}.

Definition noWorker : WorkerState := mkWorkerState false 0 0 0.

Definition ensureWorker (s : WorkerState) : WorkerState :=
  let count := wrap_int (workerRefCount s + 1) in
  if worker s
  then mkWorkerState true count (workersQueued s) (workersShutDown s)
  else mkWorkerState true count (S (workersQueued s)) (workersShutDown s).

Definition shutdownWorker (s : WorkerState) : WorkerState :=
  if worker s
  then mkWorkerState false (workerRefCount s) (workersQueued s)
                     (S (workersShutDown s))
  else s.

(** [if (workerRefCount-- <= 0) shutdownWorker ();]: the test is on the
    value before the decrement. *)
Definition decWorkerRefCount (s : WorkerState) : WorkerState :=
  let before := workerRefCount s in
  let s1 := mkWorkerState (worker s) (wrap_int (before - 1))
                          (workersQueued s) (workersShutDown s) in
  if (before <=? 0)%Z then shutdownWorker s1 else s1.

(** The binding's uses of the worker: the constructor of a [Medley] object
    ([ensureWorker]), its destructor ([decWorkerRefCount]) and the static
    [shutdown] ([shutdownWorker]). *)
Inductive WorkerOp : Type := Construct | Destruct | Shutdown.

Definition workerStep (o : WorkerOp) (s : WorkerState) : WorkerState :=
  match o with
  | Construct => ensureWorker s
  | Destruct => decWorkerRefCount s
  | Shutdown => shutdownWorker s
  end.

Definition workerRun (ops : list WorkerOp) (s : WorkerState) : WorkerState :=
  fold_left (fun s o => workerStep o s) ops s.

(** ** The audio callback of the mixer *)

(** What [Mixer::getNextAudioBlock] reads of its
    [AudioSourceChannelInfo]. *)
Record AudioSourceChannelInfo : Type := mkInfo {
  bufferChannels : nat;
  startSample : Z;
  numSamples : Z
}.

(** What the callback does to the buffer, in order. *)
Inductive BufferOp : Type :=
| MixInputs
| ApplyGainRamp (channel : nat) (start num : Z) (startGain endGain : double)
| Process (start : Z)
| TrackLevel.

(** [for (int i = info.buffer->getNumChannels (); --i >= 0;)]. *)
Definition channelsDown (n : nat) : list nat := rev (seq 0 n).

Definition gainRamps (info : AudioSourceChannelInfo)
  (startGain endGain : double) : list BufferOp :=
  map (fun i => ApplyGainRamp i (startSample info)
                  (Z.min 256 (numSamples info)) startGain endGain)
      (channelsDown (bufferChannels info)).

Definition getNextAudioBlock (info : AudioSourceChannelInfo) (x : Mixer)
  : Mixer * list BufferOp :=
  let x0 := mkMixer (paused x) (stalled x) true (prepared x) in
  let r :=
    if negb (stalled x0) then
      if paused x0
      then (mkMixer (paused x0) true (outputStarted x0) (prepared x0),
            MixInputs :: gainRamps info (lit 1) (lit 0))
      else (x0, [MixInputs])
    else
      if negb (paused x0)
      then (mkMixer (paused x0) false (outputStarted x0) (prepared x0),
            MixInputs :: gainRamps info (lit 0) (lit 1))
      else (x0, []) in
  (fst r,
   snd r ++ if prepared (fst r) then [Process (startSample info); TrackLevel]
            else []).

(** The audio thread and the caller, interleaved: a block is rendered, or
    the caller toggles the pause. *)
Inductive MixerInput : Type :=
| Block (info : AudioSourceChannelInfo)
| TogglePause.

Fixpoint mixerRun (inputs : list MixerInput) (x : Mixer)
  : Mixer * list (list BufferOp) :=
  match inputs with
  | [] => (x, [])
  | Block info :: rest =>
      let (x1, ops) := getNextAudioBlock info x in
      let (x2, blocks) := mixerRun rest x1 in
      (x2, ops :: blocks)
  | TogglePause :: rest => mixerRun rest (snd (togglePause x))
  end.

Definition isGainRamp (o : BufferOp) : bool :=
  match o with
  | ApplyGainRamp _ _ _ _ _ => true
  | _ => false
  end.

Definition isMixInputs (o : BufferOp) : bool :=
  match o with
  | MixInputs => true
  | _ => false
  end.

(** ** The callbacks and the API, seen through the trace *)

(** Trace entries of the block of [deckUnloaded] under the callback lock:
    listener events and [markAsMain] calls. *)
Definition isMarkOrEvent (a : Action) : bool :=
  match a with
  | Emit _ => true
  | OnDeck _ (CallMarkAsMain _) => true
  | _ => false
  end.

(** The fields of the engine that [deckPosition] never writes. *)
Definition settings (m : Medley) :=
  (deckQueue m, forceFadingOut m, keepPlaying m, fadingCurve m, fadingFactor m,
   maxLeadingDuration m, maxTransitionTime m, mixer m).

(** The calls [deckPosition] makes on the deck that is not its sender:
    [loadTrack] and [unloadTrack] (through [loadNextTrack]), [setVolume],
    [setPosition] and [start]. *)
Definition isNextDeckCall (c : DeckCall) : bool :=
  match c with
  | CallLoadTrack _ _ | CallUnloadTrack | CallSetVolume _
  | CallSetPosition _ | CallStart => true
  | _ => false
  end.

(** The calls of the transiting block of [deckPosition] on the incoming
    deck: [setVolume], [setPosition] and [start]. *)
Definition isIncomingCall (c : DeckCall) : bool :=
  match c with
  | CallSetVolume _ | CallSetPosition _ | CallStart => true
  | _ => false
  end.

(** The tracks of the [loadTrack] calls in a piece of the trace. *)
Definition loadedTracks (l : list Action) : list Track :=
  flat_map (fun a => match a with
                     | OnDeck _ (CallLoadTrack t _) => [t]
                     | _ => []
                     end) l.

(** The calls [deckPosition] makes on its sender: [setVolume], [stop] and
    [markAsMain (true)]. *)
Definition isSenderCall (c : DeckCall) : bool :=
  match c with
  | CallStop | CallSetVolume _ | CallMarkAsMain true => true
  | _ => false
  end.

Definition isPositionEvent (e : Event) : bool :=
  match e with
  | EvDeckPosition _ _ | EvPreCueNext => true
  | _ => false
  end.

(** What [deckPosition sender] adds to the trace. *)
Definition isPositionAction (sender : DeckPtr) (a : Action) : bool :=
  match a with
  | Emit e => isPositionEvent e
  | OnDeck d c =>
      if DeckPtr_eqb d sender then isSenderCall c else isNextDeckCall c
  end.

(** What [deckPosition sender] adds to the trace before its last block:
    events and calls on the other deck. *)
Definition beforeFade (sender : DeckPtr) (a : Action) : bool :=
  match a with
  | Emit e => isPositionEvent e
  | OnDeck d c => negb (DeckPtr_eqb d sender) && isNextDeckCall c
  end.

(** ** More concrete engines *)

(** A track no deck can open. *)
Definition brokenTrack : Track := mkTrack 3 false.

(** One deck plays; a broken track waits in the queue before two good
    ones. *)
Definition soloBeforeBroken : Medley :=
  setQueue [brokenTrack; trackB; trackA] soloPlaying.

(** One deck plays the last track: the queue is empty. *)
Definition lastTrackPlaying : Medley := setQueue [] soloPlaying.

(** A new engine with two tracks queued, after [play ()], the first load
    and a position report of the first deck past its cue point. *)
Definition firstTrackCuedInputs : list Input :=
  firstTrackInputs ++ [InDeckPosition Deck1 (lit 7)].

Definition firstTrackCued : Medley :=
  resultOf (run linear_pow firstTrackCuedInputs
              (newMedley [trackA; trackB] (lit 50) (lit 2) (lit 2.5)))
           bothHeld.

(** A block of 512 samples on two channels. *)
Definition stereoBlock : AudioSourceChannelInfo := mkInfo 2 0 512.

(** The playing deck of [soloBeforeBroken] has passed its cue point. *)
Definition soloBeforeBrokenCued : Medley :=
  resultOf (deckPosition linear_pow Deck1 (lit 7) soloBeforeBroken) bothHeld.
(** ** Facts about the numbers *)

Lemma DeckPtr_eqb_spec (a b : DeckPtr) : reflect (a = b) (DeckPtr_eqb a b).
Proof. destruct a, b; simpl; constructor; congruence. Qed.

Lemma Qltb_lt (a b : Q) : Qltb a b = true <-> (a < b)%Q.
Proof.
  unfold Qltb. rewrite Qlt_alt. destruct (a ?= b); split; congruence.
Qed.

Lemma Qltb_ge (a b : Q) : Qltb a b = false <-> (b <= a)%Q.
Proof.
  unfold Qltb. rewrite Qle_alt, <- Qgt_alt, Qlt_alt.
  destruct (a ?= b) eqn:E; split; congruence.
Qed.

Lemma Qeqb_eq (a b : Q) : Qeqb a b = true <-> (a == b)%Q.
Proof.
  unfold Qeqb. rewrite Qeq_alt. destruct (a ?= b); split; congruence.
Qed.

Lemma Qeqb_neq (a b : Q) : Qeqb a b = false <-> ~ (a == b)%Q.
Proof.
  rewrite <- Qeqb_eq. destruct (Qeqb a b); split; congruence.
Qed.



(** ** Mixer *)

(** C10: [Mixer::togglePause] flips [paused] and returns the new value;
    two calls in a row give back the mixer one started from, and the two
    returned booleans are complementary. *)
Theorem togglePause_twice (x : Mixer) :
  paused (snd (togglePause x)) = negb (paused x)
  /\ fst (togglePause x) = paused (snd (togglePause x))
  /\ snd (togglePause (snd (togglePause x))) = x
  /\ fst (togglePause (snd (togglePause x))) = negb (fst (togglePause x)).
Proof.
  destruct x as [p s o r]; simpl.
  rewrite negb_involutive. repeat split; reflexivity.
Qed.

(** ** The fading curve *)

Lemma fadingCurve_setFadingCurve (c : double) (m : Medley) :
  fadingCurve (setFadingCurve c m) = jlimit (lit 0) (lit 100) c.
Proof. reflexivity. Qed.

Lemma jlimit_Fin_range (lo hi x : Q) :
  (lo <= hi)%Q ->
  exists k : Q, jlimit (Fin lo) (Fin hi) (Fin x) = Fin k /\ (lo <= k <= hi)%Q.
Proof.
  intros Hlh. unfold jlimit; simpl.
  destruct (Qltb x lo) eqn:E1.
  - exists lo. split; [reflexivity|lra].
  - destruct (Qltb hi x) eqn:E2.
    + exists hi. split; [reflexivity|lra].
    + apply Qltb_ge in E1, E2. exists x. split; [reflexivity|lra].
Qed.

(** ** The narrowing to [float] *)

Section FloatNarrowing.

Local Open Scope Q_scope.

Lemma roundHalfEven_cases (x : Q) :
  let f := Qfloor x in
  (inject_Z f <= x < inject_Z f + 1)
  /\ ((roundHalfEven x = f /\ x - inject_Z f <= 1 # 2)
      \/ (roundHalfEven x = (f + 1)%Z /\ 1 # 2 <= x - inject_Z f)).
Proof.
  cbv zeta. split.
  - split; [apply Qfloor_le|].
    pose proof (Qlt_floor x) as H. rewrite inject_Z_plus in H. exact H.
  - unfold roundHalfEven.
    destruct (Qcompare (x - inject_Z (Qfloor x)) (1 # 2)) eqn:C.
    + apply Qeq_alt in C. destruct (Z.even (Qfloor x)).
      * left. split; [reflexivity|]. rewrite C. apply Qle_refl.
      * right. split; [reflexivity|]. rewrite C. apply Qle_refl.
    + apply Qlt_alt in C. left. split; [reflexivity|]. apply Qlt_le_weak, C.
    + apply Qgt_alt in C. right. split; [reflexivity|]. apply Qlt_le_weak, C.
Qed.


Lemma roundHalfEven_mono (x y : Q) :
  x <= y -> (roundHalfEven x <= roundHalfEven y)%Z.
Proof.
  intros H.
  pose proof (Qfloor_resp_le _ _ H) as F.
  destruct (Z.eq_dec (Qfloor x) (Qfloor y)) as [E|N].
  - unfold roundHalfEven. rewrite <- E.
    destruct (Qcompare (x - inject_Z (Qfloor x)) (1 # 2)) eqn:Cx;
      destruct (Qcompare (y - inject_Z (Qfloor x)) (1 # 2)) eqn:Cy;
      first [apply Qeq_alt in Cx | apply Qlt_alt in Cx | apply Qgt_alt in Cx];
      first [apply Qeq_alt in Cy | apply Qlt_alt in Cy | apply Qgt_alt in Cy];
      try destruct (Z.even (Qfloor x)); try lia; exfalso; lra.
  - destruct (roundHalfEven_cases x) as (_ & [(Ex & _)|(Ex & _)]);
      destruct (roundHalfEven_cases y) as (_ & [(Ey & _)|(Ey & _)]); lia.
Qed.

Lemma roundHalfEven_Z (n : Z) : roundHalfEven (inject_Z n) = n.
Proof.
  unfold roundHalfEven. rewrite Qfloor_Z.
  assert (E : Qcompare (inject_Z n - inject_Z n) (1 # 2) = Lt).
  { apply Qlt_alt. unfold Qminus. rewrite Qplus_opp_r. reflexivity. }
  rewrite E. reflexivity.
Qed.

Lemma roundHalfEven_comp (x y : Q) : x == y -> roundHalfEven x = roundHalfEven y.
Proof.
  intros E. apply Z.le_antisymm; apply roundHalfEven_mono; rewrite E; apply Qle_refl.
Qed.

Lemma two_neq_0 : ~ 2 == 0.
Proof. discriminate. Qed.

Lemma Qpower2_pos (z : Z) : 0 < 2 ^ z.
Proof. apply Qpower_0_lt. reflexivity. Qed.

Lemma Qpower2_succ (z : Z) : 2 ^ (z + 1) == 2 * 2 ^ z.
Proof. rewrite Qpower_plus by exact two_neq_0. rewrite Qpower_1_r. ring. Qed.

Lemma Qpower2_log2 (n : Z) :
  (0 < n)%Z -> 2 ^ Z.log2 n <= inject_Z n < 2 * 2 ^ Z.log2 n.
Proof.
  intros H. destruct (Z.log2_spec n H) as [L U].
  pose proof (Z.log2_nonneg n) as P.
  split.
  - change 2 with (inject_Z 2). rewrite <- Zpower_Qpower by exact P.
    rewrite <- Zle_Qle. exact L.
  - rewrite <- Qpower2_succ. change 2 with (inject_Z 2).
    rewrite <- Zpower_Qpower by lia. rewrite <- Zlt_Qlt.
    exact U.
Qed.

Lemma binade_spec (a : Q) :
  0 < a -> 2 ^ binade a <= a < 2 ^ (binade a + 1).
Proof.
  intros Ha. unfold binade.
  destruct a as [n d]. cbn [Qnum Qden].
  assert (Hn : (0 < n)%Z).
  { unfold Qlt in Ha. cbn in Ha. lia. }
  destruct (Qpower2_log2 n Hn) as [Ln Un].
  destruct (Qpower2_log2 (Z.pos d) eq_refl) as [Ld Ud].
  set (ln := Z.log2 n) in *. set (ld := Z.log2 (Z.pos d)) in *.
  pose proof (Qpower2_pos ln) as Pp. pose proof (Qpower2_pos ld) as Rp.
  pose proof (Qpower2_pos (ln - ld)) as Tp.
  assert (T : 2 ^ (ln - ld) * 2 ^ ld == 2 ^ ln).
  { rewrite <- Qpower_plus by exact two_neq_0.
    replace (ln - ld + ld)%Z with ln by lia. reflexivity. }
  assert (A : n # d == inject_Z n / inject_Z (Z.pos d)) by apply Qmake_Qdiv.
  assert (Dp : 0 < inject_Z (Z.pos d)) by reflexivity.
  set (N := inject_Z n) in *. set (D := inject_Z (Z.pos d)) in *.
  set (P := 2 ^ ln) in *. set (R := 2 ^ ld) in *. set (t := 2 ^ (ln - ld)) in *.
  destruct (Qle_bool t (n # d)) eqn:B.
  - apply Qle_bool_iff in B. split; [exact B|].
    rewrite Qpower2_succ. fold t. rewrite A.
    apply Qlt_shift_div_r; [exact Dp|]. nra.
  - assert (B' : n # d < t).
    { apply Qnot_le_lt. intros C. apply Qle_bool_iff in C. congruence. }
    replace (ln - ld - 1 + 1)%Z with (ln - ld)%Z by lia. fold t.
    split; [|exact B'].
    assert (H2 : 2 ^ (ln - ld - 1) == t / 2).
    { rewrite Qpower_minus by exact two_neq_0. rewrite Qpower_1_r. reflexivity. }
    rewrite H2, A. apply Qle_shift_div_l; [exact Dp|].
    setoid_replace (t / 2 * D) with (t * D * (1 # 2)) by field. nra.
Qed.

Lemma binade_unique (a : Q) (e : Z) :
  2 ^ e <= a < 2 ^ (e + 1) -> 0 < a -> binade a = e.
Proof.
  intros [L U] Ha. destruct (binade_spec a Ha) as [L' U'].
  assert (H1 : (e < binade a + 1)%Z).
  { apply (Qpower_lt_compat_l_inv 2); [|reflexivity].
    eapply Qle_lt_trans; [exact L|exact U']. }
  assert (H2 : (binade a < e + 1)%Z).
  { apply (Qpower_lt_compat_l_inv 2); [|reflexivity].
    eapply Qle_lt_trans; [exact L'|exact U]. }
  lia.
Qed.

Lemma binade_mono (a b : Q) : 0 < a -> a <= b -> (binade a <= binade b)%Z.
Proof.
  intros Ha H. destruct (binade_spec a Ha) as [La _].
  assert (Hb : 0 < b) by lra.
  destruct (binade_spec b Hb) as [_ Ub].
  assert (H1 : (binade a < binade b + 1)%Z).
  { apply (Qpower_lt_compat_l_inv 2); [|reflexivity]. lra. }
  lia.
Qed.

Lemma nearestFloat_eq (a : Q) :
  nearestFloat a
  == inject_Z (roundHalfEven (a / 2 ^ (floatExponent a - 23)))
     * 2 ^ (floatExponent a - 23).
Proof. unfold nearestFloat. apply Qred_correct. Qed.


Lemma nearestFloat_mono (a b : Q) :
  0 < a -> a <= b -> nearestFloat a <= nearestFloat b.
Proof.
  intros Ha H. assert (Hb : 0 < b) by lra.
  rewrite !nearestFloat_eq.
  pose proof (binade_mono a b Ha H) as M.
  destruct (binade_spec a Ha) as [La Ua].
  destruct (binade_spec b Hb) as [Lb Ub].
  unfold floatExponent.
  destruct (Z.eq_dec (Z.max (binade a) (-126)) (Z.max (binade b) (-126))) as [E|N].
  - rewrite E. set (ulp := 2 ^ (Z.max (binade b) (-126) - 23)).
    assert (Up : 0 < ulp) by apply Qpower2_pos.
    assert (Hq : a / ulp <= b / ulp).
    { apply Qle_shift_div_l; [exact Up|].
      setoid_replace (a / ulp * ulp) with a by (field; lra). exact H. }
    apply roundHalfEven_mono in Hq. rewrite Zle_Qle in Hq. nra.
  - set (ea := Z.max (binade a) (-126)) in *.
    set (eb := Z.max (binade b) (-126)) in *.
    assert (Lt : (ea < eb)%Z) by lia.
    assert (Eb : eb = binade b) by lia.
    assert (Ra : inject_Z (roundHalfEven (a / 2 ^ (ea - 23))) * 2 ^ (ea - 23)
                 <= 2 ^ (ea + 1)).
    { set (ulp := 2 ^ (ea - 23)).
      assert (Up : 0 < ulp) by apply Qpower2_pos.
      assert (S : 2 ^ (ea + 1) == inject_Z (2 ^ 24) * ulp).
      { unfold ulp. rewrite Zpower_Qpower by lia. change (inject_Z 2) with 2.
        rewrite <- Qpower_plus by exact two_neq_0.
        replace (24 + (ea - 23))%Z with (ea + 1)%Z by lia. reflexivity. }
      assert (A1 : a <= 2 ^ (ea + 1)).
      { apply Qlt_le_weak. eapply Qlt_le_trans; [exact Ua|].
        apply Qpower_le_compat_l; [lia|discriminate]. }
      assert (Hq : a / ulp <= inject_Z (2 ^ 24)).
      { apply Qle_shift_div_r; [exact Up|]. rewrite <- S. exact A1. }
      apply roundHalfEven_mono in Hq. rewrite roundHalfEven_Z in Hq.
      rewrite Zle_Qle in Hq. rewrite S. nra. }
    assert (Rb : 2 ^ eb
                 <= inject_Z (roundHalfEven (b / 2 ^ (eb - 23))) * 2 ^ (eb - 23)).
    { set (ulp := 2 ^ (eb - 23)).
      assert (Up : 0 < ulp) by apply Qpower2_pos.
      assert (S : 2 ^ eb == inject_Z (2 ^ 23) * ulp).
      { unfold ulp. rewrite Zpower_Qpower by lia. change (inject_Z 2) with 2.
        rewrite <- Qpower_plus by exact two_neq_0.
        replace (23 + (eb - 23))%Z with eb by lia. reflexivity. }
      assert (Hq : inject_Z (2 ^ 23) <= b / ulp).
      { apply Qle_shift_div_l; [exact Up|]. rewrite <- S, Eb. exact Lb. }
      apply roundHalfEven_mono in Hq. rewrite roundHalfEven_Z in Hq.
      rewrite Zle_Qle in Hq. rewrite S. nra. }
    assert (P : 2 ^ (ea + 1) <= 2 ^ eb).
    { apply Qpower_le_compat_l; [lia|discriminate]. }
    lra.
Qed.

Lemma nearestFloat_comp (a b : Q) :
  0 < a -> a == b -> nearestFloat a == nearestFloat b.
Proof.
  intros Ha E. apply Qle_antisym; apply nearestFloat_mono; lra.
Qed.


Lemma nearestFloat_1 : nearestFloat 1 == 1.
Proof. vm_compute. reflexivity. Qed.

Lemma nearestFloat_1000 : nearestFloat 1000 == 1000.
Proof. vm_compute. reflexivity. Qed.

Lemma toFloatQ_positive (x : Q) :
  0 < x -> nearestFloat x < 2 ^ 128 ->
  exists f, toFloatQ x = Fin f /\ f == nearestFloat x.
Proof.
  intros Hx Hr. unfold toFloatQ.
  assert (E0 : Qeqb x 0 = false) by (apply Qeqb_neq; lra).
  assert (E1 : Qltb x 0 = false) by (apply Qltb_ge; lra).
  assert (Ea : Qabs x == x) by (apply Qabs_pos; lra).
  assert (Er : nearestFloat (Qabs x) == nearestFloat x)
    by (apply nearestFloat_comp; [rewrite Ea; exact Hx|exact Ea]).
  rewrite E0, E1. cbv zeta.
  destruct (Qle_bool (2 ^ 128) (nearestFloat (Qabs x))) eqn:B.
  - apply Qle_bool_iff in B. rewrite Er in B. lra.
  - exists (nearestFloat (Qabs x)). split; [reflexivity|exact Er].
Qed.

End FloatNarrowing.

Lemma jlimit_Fin_cases (lo hi x : Q) :
  jlimit (Fin lo) (Fin hi) (Fin x)
  = Fin (if Qltb x lo then lo else if Qltb hi x then hi else x).
Proof.
  unfold jlimit. cbn [dlt].
  destruct (Qltb x lo); [reflexivity|]. destruct (Qltb hi x); reflexivity.
Qed.

(** The curve stored by [setFadingCurve], the quotient of
    [updateFadingFactor] and the [float] it is narrowed to. *)
Lemma fadingFactor_value (c : Q) (m : Medley) :
  exists k x f : Q,
    fadingCurve (setFadingCurve (Fin c) m) = Fin k
    /\ k = (if Qltb c 0 then 0 else if Qltb 100 c then 100 else c)%Q
    /\ (0 <= k <= 100)%Q
    /\ (x * ((100 - k) * (999 # 100) + 1) == 1000)%Q
    /\ (1 <= x <= 1000)%Q
    /\ fadingFactor (setFadingCurve (Fin c) m) = toFloat (Fin x)
    /\ fadingFactor (setFadingCurve (Fin c) m) = Fin f
    /\ (f == nearestFloat x)%Q.
Proof.
  set (k := (if Qltb c 0 then 0 else if Qltb 100 c then 100 else c)%Q).
  assert (Hk : (0 <= k <= 100)%Q).
  { unfold k. destruct (Qltb c 0) eqn:A; [lra|]. apply Qltb_ge in A.
    destruct (Qltb 100 c) eqn:B; [lra|]. apply Qltb_ge in B. lra. }
  set (d := ((100 + - k) / 100 * (1000 + - (1)) + 1)%Q).
  assert (Ed : (d == (100 - k) * (999 # 100) + 1)%Q) by (unfold d; field).
  assert (Hd : (1 <= d <= 1000)%Q) by (rewrite Ed; lra).
  assert (Hden : ~ (d == 0)%Q) by lra.
  set (x := (1000 / d)%Q).
  assert (Ex : (x * d == 1000)%Q) by (unfold x; field; exact Hden).
  assert (Hx : (1 <= x <= 1000)%Q).
  { unfold x. split.
    - apply Qle_shift_div_l; lra.
    - apply Qle_shift_div_r; lra. }
  assert (F : fadingFactor (setFadingCurve (Fin c) m) = toFloat (Fin x)).
  { unfold setFadingCurve, updateFadingFactor.
    cbn [fadingFactor setFadingFactor fadingCurve setFadingCurveField].
    unfold lit. rewrite jlimit_Fin_cases. fold k.
    cbn [dsub dadd dneg ddiv dmul].
    change (Qeqb 100 0) with false. cbn iota.
    cbn [dsub dadd dneg ddiv dmul]. fold d.
    apply Qeqb_neq in Hden. rewrite Hden. reflexivity. }
  assert (R : (nearestFloat x < 2 ^ 128)%Q).
  { apply (Qle_lt_trans _ 1000); [|reflexivity].
    rewrite <- nearestFloat_1000. apply nearestFloat_mono; lra. }
  destruct (toFloatQ_positive x) as (f & Tf & Ef); [lra|exact R|].
  exists k, x, f.
  split; [rewrite fadingCurve_setFadingCurve; apply jlimit_Fin_cases|].
  split; [reflexivity|]. split; [exact Hk|].
  split; [rewrite <- Ed; exact Ex|]. split; [exact Hx|].
  split; [exact F|]. split; [rewrite F; exact Tf|exact Ef].
Qed.



(** ** Frame lemmas *)

Lemma otherDeck_neq (d : DeckPtr) : otherDeck d <> d.
Proof. destruct d; discriminate. Qed.

Lemma getAnotherDeck_Some (d : DeckPtr) (m : Medley) :
  getAnotherDeck (Some d) m = Some (otherDeck d).
Proof. destruct d; reflexivity. Qed.

Lemma getDeck_setDeck_same (p : DeckPtr) (d : Deck) (m : Medley) :
  getDeck p (setDeck p d m) = d.
Proof. destruct p; reflexivity. Qed.

Lemma getDeck_setDeck_other (p q : DeckPtr) (d : Deck) (m : Medley) :
  p <> q -> getDeck p (setDeck q d m) = getDeck p m.
Proof. destruct p, q; intros H; try reflexivity; congruence. Qed.

Lemma getDeck_onDeck_same (p : DeckPtr) (c : DeckCall) (m : Medley) :
  getDeck p (onDeck p c m) = applyCall c (getDeck p m).
Proof. destruct p; reflexivity. Qed.

Lemma getDeck_onDeck_other (p q : DeckPtr) (c : DeckCall) (m : Medley) :
  p <> q -> getDeck p (onDeck q c m) = getDeck p m.
Proof. destruct p, q; intros H; try reflexivity; congruence. Qed.

Lemma control_onDeck (p : DeckPtr) (c : DeckCall) (m : Medley) :
  control (onDeck p c m) = control m.
Proof. destruct p; reflexivity. Qed.

Lemma trace_onDeck (p : DeckPtr) (c : DeckCall) (m : Medley) :
  trace (onDeck p c m) = trace m ++ [OnDeck p c].
Proof. destruct p; reflexivity. Qed.

Lemma main_applyCall (c : DeckCall) (d : Deck) :
  (forall b, c <> CallMarkAsMain b) -> main (applyCall c d) = main d.
Proof. destruct c; intros H; try reflexivity. elim (H b); reflexivity. Qed.

Lemma volume_applyCall (c : DeckCall) (d : Deck) :
  (forall v, c <> CallSetVolume v) -> volume (applyCall c d) = volume d.
Proof. destruct c; intros H; try reflexivity. elim (H v); reflexivity. Qed.

(** What the fetch-and-load loop of [loadNextTrack] changes: the queue,
    the loading flag of the deck it loads on, and the trace, by load calls
    only. *)
Lemma fetchAndLoad_frame (deck : DeckPtr) (play : bool) (q : list Track) :
  forall m : Medley,
    let m' := snd (fetchAndLoad deck play q m) in
    control m' = control m
    /\ (forall d, deckData (getDeck d m') = deckData (getDeck d m))
    /\ getDeck (otherDeck deck) m' = getDeck (otherDeck deck) m
    /\ exists l, trace m' = trace m ++ l /\ forallb isLoadOrUnload l = true.
Proof.
  induction q as [|track rest IH]; intros m; simpl.
  - repeat split. exists []. rewrite app_nil_r. split; reflexivity.
  - unfold loadTrack.
    destruct (loadAccepted track (getDeck deck (setQueue rest m))) eqn:E; simpl.
    + repeat split.
      * destruct deck; reflexivity.
      * intros d. destruct deck, d; reflexivity.
      * destruct deck; reflexivity.
      * exists [OnDeck deck (CallLoadTrack track play)].
        split; [destruct deck; reflexivity|reflexivity].
    + destruct (IH (record (OnDeck deck (CallLoadTrack track play))
                      (setQueue rest m))) as (Hc & Hd & Ho & l & Ht & Hl).
      repeat split.
      * rewrite Hc. reflexivity.
      * intros d. rewrite Hd. destruct d; reflexivity.
      * rewrite Ho. destruct deck; reflexivity.
      * exists (OnDeck deck (CallLoadTrack track play) :: l).
        split; [rewrite Ht; cbn [trace record]; rewrite <- app_assoc; reflexivity|].
        exact Hl.
Qed.

(** The loop hands a track to the deck, or empties the queue. *)
Lemma fetchAndLoad_result (deck : DeckPtr) (play : bool) (q : list Track) :
  forall m : Medley,
    fst (fetchAndLoad deck play q m) = false ->
    queue (snd (fetchAndLoad deck play q m)) = match q with [] => queue m | _ => [] end.
Proof.
  induction q as [|track rest IH]; intros m; simpl; [reflexivity|].
  unfold loadTrack.
  destruct (loadAccepted track (getDeck deck (setQueue rest m))) eqn:E; simpl.
  - discriminate.
  - intros H. rewrite (IH _ H). destruct rest; reflexivity.
Qed.

(** [loadNextTrack] never touches the control state, the [is_main] flags or
    the volumes, and only adds load and unload calls to the trace. *)
Lemma loadNextTrack_frame (cur : option DeckPtr) (play : bool) (m : Medley)
  (r : bool * Medley) :
  loadNextTrack cur play m = Ok r ->
  control (snd r) = control m
  /\ (forall d, main (getDeck d (snd r)) = main (getDeck d m))
  /\ (forall d, volume (getDeck d (snd r)) = volume (getDeck d m))
  /\ exists l, trace (snd r) = trace m ++ l /\ forallb isLoadOrUnload l = true.
Proof.
  unfold loadNextTrack.
  destruct (getAnotherDeck cur m) as [deck|] eqn:Ea.
  - intros H. injection H as <-.
    set (m1 := if isTrackLoading (getDeck deck m)
               then onDeck deck CallUnloadTrack m else m).
    destruct (fetchAndLoad_frame deck play (queue m1) m1)
      as (Hc & Hd & _ & l & Ht & Hl).
    assert (Hc1 : control m1 = control m).
    { unfold m1. destruct (isTrackLoading (getDeck deck m));
        [apply control_onDeck|reflexivity]. }
    assert (Hm1 : forall d, main (getDeck d m1) = main (getDeck d m)
                            /\ volume (getDeck d m1) = volume (getDeck d m)).
    { intros d. unfold m1. destruct (isTrackLoading (getDeck deck m));
        [|split; reflexivity].
      destruct d, deck; split; reflexivity. }
    assert (Ht1 : exists l1, trace m1 = trace m ++ l1
                             /\ forallb isLoadOrUnload l1 = true).
    { unfold m1. destruct (isTrackLoading (getDeck deck m)).
      - exists [OnDeck deck CallUnloadTrack]. split; [apply trace_onDeck|reflexivity].
      - exists []. rewrite app_nil_r. split; reflexivity. }
    destruct Ht1 as (l1 & Ht1 & Hl1).
    repeat split.
    + rewrite Hc. exact Hc1.
    + intros d. specialize (Hd d). unfold deckData in Hd.
      injection Hd as _ _ Hmain _ _ _ _ _ _ _ _.
      rewrite Hmain. apply Hm1.
    + intros d. specialize (Hd d). unfold deckData in Hd.
      injection Hd as _ _ _ Hvol _ _ _ _ _ _ _.
      rewrite Hvol. apply Hm1.
    + exists (l1 ++ l). split.
      * rewrite Ht, Ht1, app_assoc. reflexivity.
      * rewrite forallb_app, Hl1, Hl. reflexivity.
  - destruct cur; [|discriminate].
    intros H. injection H as <-. simpl.
    repeat split. exists []. rewrite app_nil_r. split; reflexivity.
Qed.

(** With a current deck, [loadNextTrack] returns; it leaves the current
    deck alone, and the other deck is still loaded afterwards only if it was
    not unloaded, with the data it had. *)
Lemma loadNextTrack_sender (sender : DeckPtr) (play : bool) (m : Medley) :
  exists r,
    loadNextTrack (Some sender) play m = Ok r
    /\ getDeck sender (snd r) = getDeck sender m
    /\ (trackLoaded (getDeck (otherDeck sender) (snd r)) = true ->
        deckData (getDeck (otherDeck sender) (snd r))
        = deckData (getDeck (otherDeck sender) m)).
Proof.
  unfold loadNextTrack. rewrite getAnotherDeck_Some.
  set (deck := otherDeck sender).
  set (m1 := if isTrackLoading (getDeck deck m)
             then onDeck deck CallUnloadTrack m else m).
  exists (fetchAndLoad deck play (queue m1) m1). split; [reflexivity|].
  destruct (fetchAndLoad_frame deck play (queue m1) m1) as (_ & Hd & Ho & _).
  assert (Hs : otherDeck deck = sender) by (unfold deck; destruct sender; reflexivity).
  rewrite Hs in Ho. split.
  - rewrite Ho. unfold m1. destruct (isTrackLoading (getDeck deck m)); [|reflexivity].
    apply getDeck_onDeck_other. unfold deck. intro E. symmetry in E.
    exact (otherDeck_neq _ E).
  - intros H. rewrite Hd.
    assert (Hl : trackLoaded (getDeck deck m1) = true).
    { specialize (Hd deck). unfold deckData in Hd.
      injection Hd as Hl _ _ _ _ _ _ _ _ _ _. rewrite <- Hl. exact H. }
    clear H Hd Ho. unfold m1 in *.
    destruct (isTrackLoading (getDeck deck m)); [|reflexivity].
    rewrite getDeck_onDeck_same in Hl. discriminate Hl.
Qed.

(** ** The head of the deck queue is the main deck *)

Lemma mains_control (m m' : Medley) :
  control m' = control m ->
  (forall d, main (getDeck d m') = main (getDeck d m)) ->
  mains m' = mains m.
Proof.
  unfold control, mains. intros Hc Hm.
  injection Hc as Hq _ _ _ _ _ _ _ _ _.
  pose proof (Hm Deck1) as H1. pose proof (Hm Deck2) as H2. simpl in H1, H2.
  rewrite H1, H2, Hq. reflexivity.
Qed.

Lemma loadNextTrack_mains (cur : option DeckPtr) (play : bool) (m : Medley)
  (r : bool * Medley) :
  loadNextTrack cur play m = Ok r -> mains (snd r) = mains m.
Proof.
  intros H. destruct (loadNextTrack_frame _ _ _ _ H) as (Hc & Hm & _).
  apply mains_control; assumption.
Qed.

Lemma mains_onDeck (p : DeckPtr) (c : DeckCall) (m : Medley) :
  (forall b, c <> CallMarkAsMain b) -> mains (onDeck p c m) = mains m.
Proof.
  intros H. unfold mains.
  destruct p; simpl; rewrite (main_applyCall _ _ H); reflexivity.
Qed.

Lemma mainIsHead_mains (m m' : Medley) :
  mains m' = mains m -> mainIsHead m -> mainIsHead m'.
Proof.
  unfold mains, mainIsHead, getMainDeck. intros E H d.
  injection E as E1 E2 E3. specialize (H d).
  destruct d; simpl in *; rewrite ?E1, ?E2, ?E3; exact H.
Qed.

Ltac split_ifs :=
  repeat match goal with
  | |- context [if ?b then _ else _] => destruct b
  end.

Lemma deckPosition_transiting_mains pow next position start leading m :
  mains (deckPosition_transiting pow next position start leading m) = mains m.
Proof.
  unfold deckPosition_transiting.
  split_ifs; try reflexivity; destruct next; reflexivity.
Qed.

Lemma deckPosition_fadingOut_mains pow sender position start fin m :
  mains (deckPosition_fadingOut pow sender position start fin m) = mains m.
Proof.
  unfold deckPosition_fadingOut.
  split_ifs; try reflexivity; destruct sender; reflexivity.
Qed.

Lemma deckPosition_cueing_mains sender next position pre cue m :
  exists r,
    deckPosition_cueing sender next position pre cue m = Ok r
    /\ mains (snd r) = mains m.
Proof.
  unfold deckPosition_cueing.
  set (m1 := if TransitionState_eqb (transitionState m) Idle && (position >? pre)
             then emit EvPreCueNext (setTransitionState Cueing m) else m).
  assert (H1 : mains m1 = mains m) by (unfold m1; split_ifs; reflexivity).
  destruct (position >? cue).
  - destruct (loadNextTrack_sender sender false m1) as (l & Hl & _).
    rewrite Hl. simpl. pose proof (loadNextTrack_mains _ _ _ _ Hl) as H2.
    destruct (negb (fst l) && (forceFadingOut (snd l) <=? 0)%Z); simpl.
    + eexists; split; [reflexivity|]. simpl. congruence.
    + eexists; split; [reflexivity|]. simpl.
      split_ifs; [rewrite mains_onDeck by discriminate|];
        unfold mains in *; simpl in *; congruence.
  - simpl. eexists; split; [reflexivity|]. simpl.
    split_ifs; [rewrite mains_onDeck by discriminate|]; congruence.
Qed.

(** [deckPosition] always returns, and keeps the head of the deck queue
    the only main deck. *)
Lemma deckPosition_mainIsHead pow sender position m :
  mainIsHead m ->
  exists m', deckPosition pow sender position m = Ok m' /\ mainIsHead m'.
Proof.
  intros Inv. unfold deckPosition. rewrite getAnotherDeck_Some.
  set (me := emit (EvDeckPosition sender position) m).
  assert (He : mains me = mains m) by reflexivity.
  destruct (main (getDeck sender me)) eqn:Em.
  - destruct (TransitionState_ltb (transitionState me) Cued).
    + destruct (deckPosition_cueing_mains sender (otherDeck sender) position
                  (transitionPreCuePosition (getDeck sender me))
                  (transitionCuePosition (getDeck sender me)) me)
        as (r & Hr & Hm).
      rewrite Hr. simpl. destruct (fst r).
      * eexists; split; [reflexivity|].
        apply (mainIsHead_mains m); [congruence|exact Inv].
      * eexists; split; [reflexivity|].
        apply (mainIsHead_mains m); [|exact Inv].
        rewrite deckPosition_fadingOut_mains, deckPosition_transiting_mains.
        congruence.
    + simpl. eexists; split; [reflexivity|].
      apply (mainIsHead_mains m); [|exact Inv].
      rewrite deckPosition_fadingOut_mains, deckPosition_transiting_mains.
      exact He.
  - assert (Inv' : mainIsHead me) by (apply (mainIsHead_mains m); assumption).
    destruct (deckQueue me) as [|front rest] eqn:Eq.
    + eexists; split; [reflexivity|exact Inv'].
    + destruct (DeckPtr_eqb_spec front sender) as [->|Hne].
      * exfalso. destruct (Inv' sender) as [_ H].
        unfold getMainDeck in H. rewrite Eq in H.
        rewrite H in Em by reflexivity. discriminate.
      * eexists; split; [reflexivity|exact Inv'].
Qed.

Lemma mainIsHead_deckLoaded sender m :
  mainIsHead m -> mainIsHead (deckLoaded sender m).
Proof.
  unfold mainIsHead, deckLoaded, markFrontAsMain, getMainDeck.
  intros Inv d. pose proof (Inv Deck1) as I1. pose proof (Inv Deck2) as I2.
  simpl in I1, I2.
  destruct (deckQueue m) as [|front rest] eqn:Eq; simpl.
  - destruct (main (deck1 m)) eqn:E1;
      [destruct I1 as [I1 _]; discriminate I1; reflexivity|].
    destruct (main (deck2 m)) eqn:E2;
      [destruct I2 as [I2 _]; discriminate I2; reflexivity|].
    destruct sender, d; simpl; rewrite ?Eq, ?E1, ?E2; simpl;
      split; congruence.
  - destruct front, d; simpl; rewrite ?Eq; simpl;
      split; intros H; try reflexivity; try congruence;
      try (apply I1; exact H); try (apply I2; exact H).
Qed.

Lemma deckUnloaded_transiting_mains sender m m1 :
  deckUnloaded_transiting sender m = Ok m1 -> mains m1 = mains m.
Proof.
  unfold deckUnloaded_transiting.
  destruct (isTransitingDeck sender m); [|intros H; injection H as <-; reflexivity].
  destruct (TransitionState_eqb (transitionState m) Cued).
  - destruct (getAnotherDeck (transitingDeck m) m) as [next|]; [|discriminate].
    destruct (trackLoaded (getDeck next m)); simpl; intros H; injection H as <-;
      split_ifs; try reflexivity; destruct next; reflexivity.
  - simpl. intros H; injection H as <-. split_ifs; reflexivity.
Qed.

Lemma filter_head_neq sender rest f2 r2 :
  filter (fun d0 => negb (DeckPtr_eqb d0 sender)) rest = f2 :: r2 -> f2 <> sender.
Proof.
  intros Ef.
  assert (Hin : In f2 (filter (fun d0 => negb (DeckPtr_eqb d0 sender)) rest))
    by (rewrite Ef; left; reflexivity).
  apply filter_In in Hin. destruct Hin as [_ Hin].
  intros ->. destruct sender; discriminate Hin.
Qed.

Lemma mainIsHead_deckUnloaded_dequeue sender m :
  mainIsHead m -> mainIsHead (deckUnloaded_dequeue sender m).
Proof.
  unfold mainIsHead, deckUnloaded_dequeue, markFrontAsMain, getMainDeck.
  intros Inv d. pose proof (Inv Deck1) as I1. pose proof (Inv Deck2) as I2.
  simpl in I1, I2. clear Inv.
  destruct sender; simpl;
  (destruct (deckQueue m) as [|front rest] eqn:Eq; simpl;
   [ destruct (main (deck1 m)) eqn:E1;
       [destruct I1 as [I1 _]; discriminate I1; reflexivity|];
     destruct (main (deck2 m)) eqn:E2;
       [destruct I2 as [I2 _]; discriminate I2; reflexivity|];
     destruct d; simpl; rewrite ?E1, ?E2; split; congruence
   | ]).
  - destruct front; simpl.
    + destruct (main (deck2 m)) eqn:E2;
       [destruct I2 as [I2 _]; discriminate I2; reflexivity|].
      destruct (filter _ rest) as [|f2 r2] eqn:Ef; simpl.
      * destruct d; simpl; rewrite ?E2; split; congruence.
      * pose proof (filter_head_neq _ _ _ _ Ef) as Hn.
        destruct f2; [congruence|]. destruct d; simpl; split; congruence.
    + destruct (main (deck1 m)) eqn:E1;
       [destruct I1 as [I1 _]; discriminate I1; reflexivity|].
      destruct d; simpl; split; intros H; congruence || reflexivity.
  - destruct front; simpl.
    + destruct (main (deck2 m)) eqn:E2;
       [destruct I2 as [I2 _]; discriminate I2; reflexivity|].
      destruct d; simpl; split; intros H; congruence || reflexivity.
    + destruct (main (deck1 m)) eqn:E1;
       [destruct I1 as [I1 _]; discriminate I1; reflexivity|].
      destruct (filter _ rest) as [|f2 r2] eqn:Ef; simpl.
      * destruct d; simpl; rewrite ?E1; split; congruence.
      * pose proof (filter_head_neq _ _ _ _ Ef) as Hn.
        destruct f2; [|congruence]. destruct d; simpl; split; congruence.
Qed.

Lemma deckUnloaded_keepPlaying_mains m m' :
  deckUnloaded_keepPlaying m = Ok m' -> mains m' = mains m.
Proof.
  unfold deckUnloaded_keepPlaying.
  destruct (keepPlaying m && negb (isDeckPlaying m));
    [|intros H; injection H as <-; reflexivity].
  destruct (0 <? length (queue m))%nat; simpl;
    [|intros H; injection H as <-; reflexivity].
  destruct (loadNextTrack None true (setKeepPlaying true m)) as [r|] eqn:E;
    simpl; [|discriminate].
  intros H; injection H as <-.
  rewrite (loadNextTrack_mains _ _ _ _ E). reflexivity.
Qed.

Lemma deckUnloaded_mainIsHead sender m m' :
  mainIsHead m -> deckUnloaded sender m = Ok m' -> mainIsHead m'.
Proof.
  unfold deckUnloaded. intros Inv.
  destruct (deckUnloaded_transiting sender m) as [m1|] eqn:E1; simpl; [|discriminate].
  intros E2. apply deckUnloaded_keepPlaying_mains in E2.
  apply (mainIsHead_mains _ _ E2). apply mainIsHead_deckUnloaded_dequeue.
  apply (mainIsHead_mains _ _ (deckUnloaded_transiting_mains _ _ _ E1)). exact Inv.
Qed.

Lemma play_mains m m' : play m = Ok m' -> mains m' = mains m.
Proof.
  unfold play. destruct (negb (isDeckPlaying m)); simpl.
  - destruct (loadNextTrack None true m) as [r|] eqn:E; simpl; [|discriminate].
    intros H; injection H as <-.
    rewrite <- (loadNextTrack_mains _ _ _ _ E). reflexivity.
  - intros H; injection H as <-. reflexivity.
Qed.

Lemma stop_mains m : mains (stop m) = mains m.
Proof. reflexivity. Qed.

Lemma fadeOutMainDeck_mains m : mains (fadeOutMainDeck m) = mains m.
Proof.
  unfold fadeOutMainDeck. destruct (getMainDeck m) as [deck|]; [|reflexivity].
  simpl. destruct (TransitionState_eqb (transitionState m) Transit).
  - destruct (getMainDeck _) as [d|]; [destruct d|]; destruct deck; reflexivity.
  - destruct deck; reflexivity.
Qed.

Lemma deckActivity_mains d now m : mains (deckActivity d now m) = mains m.
Proof. destruct d; reflexivity. Qed.

(** Every handler that returns keeps the head of the deck queue the only
    main deck. *)
Lemma handle_mainIsHead pow i m m' :
  mainIsHead m -> handle pow i m = Ok m' -> mainIsHead m'.
Proof.
  intros Inv. destruct i; simpl; intros H;
    try (injection H as <-;
         first [ exact Inv
               | apply (mainIsHead_mains m); [reflexivity|exact Inv] ]).
  - injection H as <-. apply mainIsHead_deckLoaded. exact Inv.
  - exact (deckUnloaded_mainIsHead _ _ _ Inv H).
  - destruct (deckPosition_mainIsHead pow sender position m Inv) as (m2 & E & I).
    rewrite E in H. injection H as <-. exact I.
  - apply (mainIsHead_mains m); [exact (play_mains _ _ H)|exact Inv].
  - injection H as <-.
    apply (mainIsHead_mains m); [apply fadeOutMainDeck_mains|exact Inv].
  - injection H as <-.
    apply (mainIsHead_mains m); [apply deckActivity_mains|exact Inv].
Qed.


Lemma mainIsHead_newMedley q curve maxTransition maxLeading :
  mainIsHead (newMedley q curve maxTransition maxLeading).
Proof. intros d. destruct d; simpl; split; discriminate. Qed.


Lemma deckUnloaded_deckQueue sender m m' :
  deckUnloaded sender m = Ok m' ->
  deckQueue m' = filter (fun d => negb (DeckPtr_eqb d sender)) (deckQueue m).
Proof.
  unfold deckUnloaded.
  destruct (deckUnloaded_transiting sender m) as [m1|] eqn:E1; simpl;
    [|discriminate].
  intros E2. apply deckUnloaded_keepPlaying_mains in E2.
  apply deckUnloaded_transiting_mains in E1.
  unfold mains in E1, E2. injection E1 as _ _ E1. injection E2 as _ _ E2.
  rewrite E2, <- E1. unfold deckUnloaded_dequeue, markFrontAsMain.
  destruct sender; simpl;
    (destruct (filter _ (deckQueue m1)) as [|front rest] eqn:Ef;
     [|destruct front]); simpl; rewrite ?Ef; reflexivity.
Qed.

(** ** Decks that hold a track and the deck queue *)


























(** The run to that state is delivered in step with the decks, and the
    deck that is flagged as main there holds no track. *)
Example stoppedEngine_in_step :
  reachableInStep linear_pow stoppedEngine
  /\ main (getDeck Deck1 stoppedEngine) = true
  /\ trackLoaded (getDeck Deck1 stoppedEngine) = false
  /\ trackLoaded (getDeck Deck2 stoppedEngine) = false.
Proof.
  split; [|vm_compute; repeat split].
  exists [trackA; trackB], (lit 50), (lit 2), (lit 2.5), stoppedDeliveries.
  vm_compute. split; reflexivity.
Qed.

(** With the first track loaded in step, the deck that holds it is the
    head of the deck queue. *)
Example firstTrackPlaying_in_step :
  reachableInStep linear_pow firstTrackPlaying
  /\ trackLoaded (getDeck Deck1 firstTrackPlaying) = true
  /\ deckQueue firstTrackPlaying = [Deck1].
Proof.
  split; [|vm_compute; repeat split].
  exists [trackA; trackB], (lit 50), (lit 2), (lit 2.5), firstTrackDeliveries.
  vm_compute. split; reflexivity.
Qed.

(** ** [loadNextTrack] without a current deck *)

Lemma loadNextTrack_no_deck (play : bool) (m : Medley) :
  trackLoaded (deck1 m) = true ->
  trackLoaded (deck2 m) = true ->
  loadNextTrack None play m = NullDeref.
Proof.
  intros H1 H2. unfold loadNextTrack, getAnotherDeck, getAvailableDeck.
  rewrite H1, H2. reflexivity.
Qed.

(** C9: with both decks holding a loaded track, [loadNextTrack (nullptr,
    true)] and [play ()] do not return [false]: no deck is available, and
    the log line of that branch dereferences the null [currentDeck].  The
    engine is reached from a new engine by the two decks taking a track. *)
Theorem loadNextTrack_both_decks_loaded :
  loadNextTrack None true bothHeld = NullDeref
  /\ play bothHeld = NullDeref
  /\ run linear_pow
       [InDeckActivity Deck1 heldDeck; InDeckActivity Deck2 heldDeck]
       (newMedley [trackA] (lit 50) (lit 2) (lit 2.5))
     = Ok bothHeld.
Proof. repeat split; vm_compute; reflexivity. Qed.

(** ** The blocks of [deckPosition] *)

Lemma TransitionState_eqb_eq (a b : TransitionState) :
  TransitionState_eqb a b = true <-> a = b.
Proof. destruct a, b; cbv; split; congruence. Qed.

Lemma deckPosition_fadingOut_control pow sender position start fin m :
  control (deckPosition_fadingOut pow sender position start fin m) = control m.
Proof.
  unfold deckPosition_fadingOut.
  split_ifs; rewrite ?control_onDeck; reflexivity.
Qed.

(** The transiting block moves the state from [Cued] to [Transit] or leaves
    it; it never writes the transiting deck. *)
Lemma deckPosition_transiting_control pow next position start leading m :
  let m' := deckPosition_transiting pow next position start leading m in
  transitingDeck m' = transitingDeck m
  /\ forceFadingOut m' = forceFadingOut m
  /\ (transitionState m' = transitionState m
      \/ (transitionState m = Cued /\ transitionState m' = Transit)).
Proof.
  unfold deckPosition_transiting.
  destruct (position >? start - leading); [|simpl; auto].
  destruct (TransitionState_eqb (transitionState m) Cued) eqn:Es.
  - apply TransitionState_eqb_eq in Es.
    destruct (trackLoaded (getDeck next m)).
    + cbv zeta.
      split_ifs; destruct next; simpl; auto.
    + rewrite Es. simpl. auto.
  - split_ifs; destruct next; simpl; auto.
Qed.

Lemma transitingDeck_control m m' :
  control m' = control m ->
  transitingDeck m' = transitingDeck m
  /\ transitionState m' = transitionState m
  /\ forceFadingOut m' = forceFadingOut m
  /\ deckQueue m' = deckQueue m
  /\ fadingFactor m' = fadingFactor m
  /\ maxLeadingDuration m' = maxLeadingDuration m.
Proof.
  unfold control. intros H. injection H as -> -> -> -> _ _ -> -> _ _.
  repeat split.
Qed.

(** ** The cue step *)


(** ** The transiting deck unloads *)

Lemma isTransitingDeck_true sender m :
  transitingDeck m = Some sender -> isTransitingDeck sender m = true.
Proof.
  unfold isTransitingDeck. intros ->. destruct sender; reflexivity.
Qed.

Lemma deckUnloaded_dequeue_frame sender m :
  let m' := deckUnloaded_dequeue sender m in
  transitionState m' = transitionState m
  /\ transitingDeck m' = transitingDeck m
  /\ keepPlaying m' = keepPlaying m
  /\ queue m' = queue m
  /\ (forall d, trackLoaded (getDeck d m') = trackLoaded (getDeck d m))
  /\ (forall d, playing (getDeck d m') = playing (getDeck d m))
  /\ exists l, trace m' = trace m ++ l
               /\ forall d, ~ In (OnDeck d CallStart) l.
Proof.
  unfold deckUnloaded_dequeue, markFrontAsMain.
  destruct sender; simpl;
    (destruct (filter _ (deckQueue m)) as [|front rest]; [|destruct front]);
    simpl; repeat split;
    try (intros d; destruct d; reflexivity);
    eexists; (split; [rewrite <- ?app_assoc; simpl; reflexivity|]);
    intros d H; simpl in H;
    repeat (destruct H as [H|H]; [discriminate H|]); exact H.
Qed.

(** With a deck that holds no track, [loadNextTrack (nullptr, ...)]
    returns. *)
Lemma loadNextTrack_available play m :
  (exists d, trackLoaded (getDeck d m) = false) ->
  exists r, loadNextTrack None play m = Ok r.
Proof.
  intros (d & Hd). unfold loadNextTrack, getAnotherDeck, getAvailableDeck.
  destruct (trackLoaded (deck1 m)) eqn:E1; simpl; [|eexists; reflexivity].
  destruct (trackLoaded (deck2 m)) eqn:E2; simpl; [|eexists; reflexivity].
  destruct d; simpl in Hd; congruence.
Qed.

Lemma forallb_isLoadOrUnload_no_start l d :
  forallb isLoadOrUnload l = true -> ~ In (OnDeck d CallStart) l.
Proof.
  intros H Hin. rewrite forallb_forall in H. apply H in Hin. discriminate Hin.
Qed.

(** The last block of [deckUnloaded] returns when some deck holds no
    track; it leaves the transition state alone and starts no deck. *)
Lemma deckUnloaded_keepPlaying_frame m :
  (exists d, trackLoaded (getDeck d m) = false) ->
  exists m',
    deckUnloaded_keepPlaying m = Ok m'
    /\ transitionState m' = transitionState m
    /\ transitingDeck m' = transitingDeck m
    /\ (isDeckPlaying m = true -> m' = m)
    /\ exists l, trace m' = trace m ++ l
                 /\ forall d, ~ In (OnDeck d CallStart) l.
Proof.
  intros Hav. unfold deckUnloaded_keepPlaying.
  assert (Hnil : exists l : list Action,
             trace m = trace m ++ l /\ forall d, ~ In (OnDeck d CallStart) l).
  { exists []. rewrite app_nil_r. split; [reflexivity|]. intros d []. }
  destruct (isDeckPlaying m) eqn:Ep.
  - rewrite andb_false_r. exists m. repeat split; assumption.
  - destruct (keepPlaying m); simpl;
      [|exists m; repeat split; assumption].
    destruct (0 <? length (queue m))%nat; simpl.
    + destruct (loadNextTrack_available true (setKeepPlaying true m)) as (r & Hr).
      { destruct Hav as (d & Hd). exists d. destruct d; exact Hd. }
      rewrite Hr. simpl. exists (snd r).
      destruct (loadNextTrack_frame _ _ _ _ Hr) as (Hc & _ & _ & l & Ht & Hl).
      apply transitingDeck_control in Hc. destruct Hc as (Hc1 & Hc2 & _).
      repeat split; try assumption; try discriminate.
      exists l. split; [exact Ht|].
      intros d. apply forallb_isLoadOrUnload_no_start. exact Hl.
    + eexists. repeat split; try discriminate.
      exists []. rewrite app_nil_r. split; [reflexivity|]. intros d [].
Qed.

Lemma deckUnloaded_transiting_step sender m :
  transitingDeck m = Some sender ->
  exists m1,
    deckUnloaded_transiting sender m = Ok m1
    /\ transitionState m1 = Idle
    /\ transitingDeck m1 = None
    /\ (forall d, trackLoaded (getDeck d m1) = trackLoaded (getDeck d m))
    /\ (if TransitionState_eqb (transitionState m) Cued
           && trackLoaded (getDeck (otherDeck sender) m)
        then trace m1 = trace m ++ [OnDeck (otherDeck sender) CallStart]
             /\ playing (getDeck (otherDeck sender) m1) = true
        else trace m1 = trace m).
Proof.
  intros Ht. unfold deckUnloaded_transiting.
  rewrite (isTransitingDeck_true _ _ Ht), Ht, getAnotherDeck_Some.
  destruct (TransitionState_eqb (transitionState m) Cued); simpl.
  - destruct (trackLoaded (getDeck (otherDeck sender) m)) eqn:El; simpl.
    + eexists. split; [reflexivity|].
      destruct sender; simpl in *; split_ifs; simpl; rewrite ?El;
        repeat split; try (intros d; destruct d; reflexivity).
    + eexists. split; [reflexivity|].
      split_ifs; simpl; repeat split.
  - eexists. split; [reflexivity|]. split_ifs; simpl; repeat split.
Qed.

(** C6: the deck recorded as the transiting deck has released its track
    and emits [unloaded].  The callback returns, the transition state is
    [Idle] and the transiting deck is cleared.  If the state was [Cued] and
    the other deck holds a loaded track, the other deck is started (and in
    no other case does the callback start a deck). *)
Theorem deckUnloaded_of_transiting_deck sender m :
  transitingDeck m = Some sender ->
  trackLoaded (getDeck sender m) = false ->
  exists m' l,
    deckUnloaded sender m = Ok m'
    /\ transitionState m' = Idle
    /\ transitingDeck m' = None
    /\ trace m' = trace m ++ l
    /\ (transitionState m = Cued ->
        trackLoaded (getDeck (otherDeck sender) m) = true ->
        In (OnDeck (otherDeck sender) CallStart) l
        /\ playing (getDeck (otherDeck sender) m') = true)
    /\ (transitionState m <> Cued
        \/ trackLoaded (getDeck (otherDeck sender) m) = false ->
        forall d, ~ In (OnDeck d CallStart) l).
Proof.
  intros Ht Hun. unfold deckUnloaded.
  destruct (deckUnloaded_transiting_step sender m Ht)
    as (m1 & E1 & Hs1 & Ht1 & Hl1 & Hstart).
  rewrite E1. simpl.
  destruct (deckUnloaded_dequeue_frame sender m1)
    as (Hs2 & Ht2 & _ & _ & Hl2 & Hp2 & l2 & Htr2 & Hno2).
  set (m2 := deckUnloaded_dequeue sender m1) in *.
  destruct (deckUnloaded_keepPlaying_frame m2)
    as (m' & E3 & Hs3 & Ht3 & Hsame & l3 & Htr3 & Hno3).
  { exists sender. rewrite Hl2, Hl1. exact Hun. }
  destruct (TransitionState_eqb (transitionState m) Cued
            && trackLoaded (getDeck (otherDeck sender) m)) eqn:Ec.
  - destruct Hstart as (Htr1 & Hplay).
    exists m', ([OnDeck (otherDeck sender) CallStart] ++ l2 ++ l3).
    split; [exact E3|]. split; [congruence|]. split; [congruence|].
    split; [rewrite Htr3, Htr2, Htr1, <- !app_assoc; reflexivity|].
    split.
    + intros _ _. split; [left; reflexivity|].
      assert (Hp : isDeckPlaying m2 = true).
      { unfold isDeckPlaying. pose proof (Hp2 (otherDeck sender)) as Hq.
        rewrite Hplay in Hq.
        destruct sender; cbn [getDeck otherDeck] in Hq; rewrite Hq;
          [apply orb_true_r|reflexivity]. }
      rewrite (Hsame Hp), Hp2. exact Hplay.
    + apply andb_true_iff in Ec. destruct Ec as (Ec1 & Ec2).
      apply TransitionState_eqb_eq in Ec1.
      intros [H|H]; congruence.
  - exists m', (l2 ++ l3).
    split; [exact E3|]. split; [congruence|]. split; [congruence|].
    split; [rewrite Htr3, Htr2, Hstart, <- !app_assoc; reflexivity|].
    split.
    + intros Hc Hl. rewrite Hl, andb_true_r in Ec.
      apply (proj2 (TransitionState_eqb_eq _ _)) in Hc. congruence.
    + intros _ d Hin. apply in_app_or in Hin.
      destruct Hin as [Hin|Hin]; [exact (Hno2 d Hin)|exact (Hno3 d Hin)].
Qed.

(** ** The callback of the main deck in normal form *)

Lemma getDeck_preCueStep sender position m d :
  getDeck d (preCueStep sender position m) = getDeck d m.
Proof. unfold preCueStep. split_ifs; destruct d; reflexivity. Qed.

Lemma getDeck_cued sender m d : getDeck d (cued sender m) = getDeck d m.
Proof. destruct d; reflexivity. Qed.

(** A position event of the main deck: the callback returns, and its
    result is one of four states. *)
Lemma deckPosition_main pow sender position m :
  main (getDeck sender m) = true ->
  exists l,
    loadNextTrack (Some sender) false (preCueStep sender position m) = Ok l
    /\ deckPosition pow sender position m
       = Ok (if TransitionState_ltb (transitionState m) Cued then
               if position >? transitionCuePosition (getDeck sender m) then
                 if negb (fst l) && (forceFadingOut m <=? 0)%Z
                 then snd l
                 else afterCueing pow sender position m (cued sender (snd l))
               else afterCueing pow sender position m
                      (preCueStep sender position m)
             else afterCueing pow sender position m
                    (emit (EvDeckPosition sender position) m)).
Proof.
  intros Hmain.
  destruct (loadNextTrack_sender sender false (preCueStep sender position m))
    as (l & Hl & Hsender & _).
  destruct (loadNextTrack_frame _ _ _ _ Hl) as (Hc & _ & _ & _).
  apply transitingDeck_control in Hc. destruct Hc as (_ & _ & Hff & _).
  assert (Hff0 : forceFadingOut (preCueStep sender position m) = forceFadingOut m)
    by (unfold preCueStep; split_ifs; reflexivity).
  exists l. split; [exact Hl|].
  unfold deckPosition. rewrite getAnotherDeck_Some.
  set (me := emit (EvDeckPosition sender position) m).
  assert (Hdeck : forall d, getDeck d me = getDeck d m) by (destruct d; reflexivity).
  rewrite !Hdeck, Hmain.
  change (transitionState me) with (transitionState m).
  destruct (TransitionState_ltb (transitionState m) Cued); [|reflexivity].
  unfold deckPosition_cueing.
  change (if TransitionState_eqb (transitionState me) Idle
             && (position >? transitionPreCuePosition (getDeck sender m))
          then emit EvPreCueNext (setTransitionState Cueing me) else me)
    with (preCueStep sender position m).
  destruct (position >? transitionCuePosition (getDeck sender m)).
  - rewrite Hl. simpl. rewrite Hff, Hff0.
    destruct (negb (fst l) && (forceFadingOut m <=? 0)%Z); simpl; [reflexivity|].
    assert (Hm : main (getDeck sender
                   (setTransitingDeck (Some sender)
                      (setTransitionState Cued (snd l)))) = true).
    { transitivity (main (getDeck sender (snd l))); [destruct sender; reflexivity|].
      rewrite Hsender, getDeck_preCueStep. exact Hmain. }
    rewrite Hm. reflexivity.
  - simpl. rewrite getDeck_preCueStep, Hmain. reflexivity.
Qed.

(** [deckPosition] always returns. *)
Lemma deckPosition_returns pow sender position m :
  exists m', deckPosition pow sender position m = Ok m'.
Proof.
  destruct (main (getDeck sender m)) eqn:Em.
  - destruct (deckPosition_main pow sender position m Em) as (l & _ & H).
    eexists. exact H.
  - unfold deckPosition. rewrite getAnotherDeck_Some.
    replace (main (getDeck sender (emit (EvDeckPosition sender position) m)))
      with false by (rewrite <- Em; destruct sender; reflexivity).
    destruct (deckQueue _) as [|front rest]; [eexists; reflexivity|].
    destruct (DeckPtr_eqb front sender); eexists; reflexivity.
Qed.

Lemma deckData_eq a b :
  deckData a = deckData b ->
  trackLoaded a = trackLoaded b
  /\ main a = main b
  /\ volume a = volume b
  /\ firstAudiblePosition a = firstAudiblePosition b
  /\ leadingDuration a = leadingDuration b.
Proof.
  unfold deckData. intros H. injection H as H1 _ H3 H4 _ H6 H7 _ _ _ _.
  repeat split; assumption.
Qed.

Lemma TransitionState_ltb_Cued s :
  TransitionState_ltb s Cued = true <-> s = Idle \/ s = Cueing.
Proof.
  destruct s; cbv; split; intros H; auto; try discriminate;
    destruct H; discriminate.
Qed.

(** The transiting block enters [Transit] only from [Cued], with the next
    deck loaded and the position past [start - leading]. *)
Lemma deckPosition_transiting_enter pow next position start leading m :
  transitionState m <> Transit ->
  transitionState (deckPosition_transiting pow next position start leading m)
  = Transit ->
  transitionState m = Cued
  /\ trackLoaded (getDeck next m) = true
  /\ (position >? start - leading) = true.
Proof.
  unfold deckPosition_transiting. intros Hn.
  destruct (position >? start - leading); [|intros H; congruence].
  destruct (TransitionState_eqb (transitionState m) Cued) eqn:Es.
  - apply TransitionState_eqb_eq in Es.
    destruct (trackLoaded (getDeck next m)); [auto|].
    change (TransitionState_eqb (transitionState m) Transit)
      with (TransitionState_eqb (transitionState m) Transit).
    replace (TransitionState_eqb (transitionState m) Transit) with false
      by (rewrite Es; reflexivity).
    intros H. congruence.
  - destruct (TransitionState_eqb (transitionState m) Transit) eqn:Et.
    + apply TransitionState_eqb_eq in Et. congruence.
    + intros H. congruence.
Qed.

(** The transiting block on its step from [Cued] to [Transit]. *)
Lemma deckPosition_transiting_step pow next position start leading m :
  transitionState m = Cued ->
  trackLoaded (getDeck next m) = true ->
  (position >? start - leading) = true ->
  let target := firstAudiblePosition (getDeck next m) + leading
                - maxLeadingDuration m in
  let seek := if (forceFadingOut m >? 0)%Z
                 && (leading >=? maxLeadingDuration m)
              then [OnDeck next (CallSetPosition target)] else [] in
  let fadeIn := jlimit (lit 0.25) (lit 1)
                  ((position - (start - leading)) / leading) in
  let m' := deckPosition_transiting pow next position start leading m in
  transitionState m' = Transit
  /\ playing (getDeck next m') = true
  /\ (forall d, d <> next -> getDeck d m' = getDeck d m)
  /\ trace m' = trace m ++ [OnDeck next (CallSetVolume (lit 1))] ++ seek
                ++ [OnDeck next CallStart]
                ++ (if leading >=? maxLeadingDuration m
                    then [OnDeck next (CallSetVolume (pow fadeIn (fadingFactor m)))]
                    else [])
  /\ volume (getDeck next m')
     = (if leading >=? maxLeadingDuration m
        then pow fadeIn (fadingFactor m) else lit 1)
  /\ ((forceFadingOut m >? 0)%Z && (leading >=? maxLeadingDuration m) = true ->
      positionSec (getDeck next m') = target).
Proof.
  intros Hs Hl Hp. unfold deckPosition_transiting.
  rewrite Hp, Hs, Hl.
  change (TransitionState_eqb Cued Cued) with true. cbv iota zeta.
  destruct next; simpl in *;
  (destruct (forceFadingOut m >? 0)%Z; simpl;
    destruct (leading >=? maxLeadingDuration m) eqn:Eg; simpl;
    rewrite ?Eg, ?Hl; simpl; rewrite <- ?app_assoc; simpl;
    repeat split; try reflexivity;
    try (intros d Hd; destruct d; congruence || reflexivity);
    try discriminate; try (rewrite Hl; reflexivity)).
Qed.

(** The fading-out block only calls [setVolume] and [stop] on the
    sender. *)
Lemma deckPosition_fadingOut_frame pow sender position start fin m :
  let m' := deckPosition_fadingOut pow sender position start fin m in
  (forall d, d <> sender -> getDeck d m' = getDeck d m)
  /\ exists l, trace m' = trace m ++ l
               /\ forall a, In a l ->
                    a = OnDeck sender CallStop
                    \/ exists v, a = OnDeck sender (CallSetVolume v).
Proof.
  unfold deckPosition_fadingOut.
  destruct (position >=? start).
  2:{ split; [reflexivity|]. exists []. rewrite app_nil_r.
      split; [reflexivity|intros a []]. }
  cbv zeta.
  destruct (fin - start >? lit 0).
  - match goal with
    | |- context [onDeck sender (CallSetVolume ?v) m] => set (vol := v)
    end.
    assert (Hs : transitionState (onDeck sender (CallSetVolume vol) m)
                 = transitionState m) by (destruct sender; reflexivity).
    rewrite Hs.
    destruct (negb (TransitionState_eqb (transitionState m) Idle)
              && (position >? fin));
      [destruct (jlimit (lit 0) (lit 1) ((position - start) / (fin - start))
                 >=? lit 1)|].
    + split; [intros d Hd; rewrite !getDeck_onDeck_other by exact Hd; reflexivity|].
      exists [OnDeck sender (CallSetVolume vol); OnDeck sender CallStop].
      split; [rewrite !trace_onDeck, <- app_assoc; reflexivity|].
      intros a [<-|[<-|[]]]; [right; exists vol; reflexivity|left; reflexivity].
    + split; [intros d Hd; rewrite !getDeck_onDeck_other by exact Hd; reflexivity|].
      exists [OnDeck sender (CallSetVolume vol)].
      split; [rewrite !trace_onDeck; reflexivity|].
      intros a [<-|[]]; right; exists vol; reflexivity.
    + split; [intros d Hd; rewrite !getDeck_onDeck_other by exact Hd; reflexivity|].
      exists [OnDeck sender (CallSetVolume vol)].
      split; [rewrite !trace_onDeck; reflexivity|].
      intros a [<-|[]]; right; exists vol; reflexivity.
  - destruct (negb (TransitionState_eqb (transitionState m) Idle)
              && (position >? fin));
      [destruct (jlimit (lit 0) (lit 1) ((position - start) / (fin - start))
                 >=? lit 1)|].
    + split; [intros d Hd; rewrite !getDeck_onDeck_other by exact Hd; reflexivity|].
      exists [OnDeck sender CallStop].
      split; [rewrite !trace_onDeck; reflexivity|].
      intros a [<-|[]]; left; reflexivity.
    + split; [reflexivity|]. exists []. rewrite app_nil_r.
      split; [reflexivity|intros a []].
    + split; [reflexivity|]. exists []. rewrite app_nil_r.
      split; [reflexivity|intros a []].
Qed.

(** A callback of the main deck that takes the engine into [Transit] ran
    the transiting block from a [Cued] state [x], reached by emitting
    listener events and by load and unload calls only. *)
Lemma deckPosition_enters_Transit pow sender position m m' :
  main (getDeck sender m) = true ->
  transitionState m <> Transit ->
  deckPosition pow sender position m = Ok m' ->
  transitionState m' = Transit ->
  exists x pre,
    m' = afterCueing pow sender position m x
    /\ transitionState x = Cued
    /\ trackLoaded (getDeck (otherDeck sender) x) = true
    /\ (position >? transitionStartPosition (getDeck sender m)
                    - leadingDuration (getDeck (otherDeck sender) m)) = true
    /\ forceFadingOut x = forceFadingOut m
    /\ maxLeadingDuration x = maxLeadingDuration m
    /\ fadingFactor x = fadingFactor m
    /\ deckData (getDeck (otherDeck sender) x)
       = deckData (getDeck (otherDeck sender) m)
    /\ trace x = trace m ++ pre
    /\ forall d c, In (OnDeck d c) pre -> isLoadOrUnload (OnDeck d c) = true.
Proof.
  intros Hmain Hnt Hrun Hst.
  destruct (deckPosition_main pow sender position m Hmain) as (l & Hl & Hform).
  rewrite Hform in Hrun. injection Hrun as Hm'. clear Hform.
  set (me := emit (EvDeckPosition sender position) m) in *.
  set (m0 := preCueStep sender position m) in *.
  assert (H0 : (transitionState m0 = transitionState m
                \/ transitionState m0 = Cueing)
               /\ control (setTransitionState Idle m0)
                  = control (setTransitionState Idle m)
               /\ exists pre0, trace m0 = trace m ++ pre0
                    /\ forall d c, ~ In (OnDeck d c) pre0).
  { unfold m0, preCueStep. split_ifs; simpl.
    - split; [right; reflexivity|]. split; [reflexivity|].
      exists [Emit (EvDeckPosition sender position); Emit EvPreCueNext].
      split; [rewrite <- app_assoc; reflexivity|].
      intros d c [H|[H|[]]]; discriminate H.
    - split; [left; reflexivity|]. split; [reflexivity|].
      exists [Emit (EvDeckPosition sender position)].
      split; [reflexivity|]. intros d c [H|[]]; discriminate H. }
  destruct H0 as (Hs0 & Hc0 & pre0 & Htr0 & Hq0).
  apply transitingDeck_control in Hc0. simpl in Hc0.
  destruct Hc0 as (_ & _ & Hff0 & _ & Hfac0 & Hmax0).
  assert (Henter : forall x,
             m' = afterCueing pow sender position m x ->
             transitionState x <> Transit ->
             transitionState x = Cued
             /\ trackLoaded (getDeck (otherDeck sender) x) = true
             /\ (position >? transitionStartPosition (getDeck sender m)
                   - leadingDuration (getDeck (otherDeck sender) m)) = true).
  { intros x Hx Hxn. rewrite Hx in Hst. unfold afterCueing in Hst.
    pose proof (deckPosition_fadingOut_control pow sender position
                  (transitionStartPosition (getDeck sender m))
                  (transitionEndPosition (getDeck sender m))
                  (deckPosition_transiting pow (otherDeck sender) position
                     (transitionStartPosition (getDeck sender m))
                     (leadingDuration (getDeck (otherDeck sender) m)) x)) as Hf.
    apply transitingDeck_control in Hf. destruct Hf as (_ & Hf & _).
    rewrite Hf in Hst.
    exact (deckPosition_transiting_enter _ _ _ _ _ _ Hxn Hst). }
  destruct (TransitionState_ltb (transitionState m) Cued) eqn:Elt.
  - apply TransitionState_ltb_Cued in Elt.
    assert (Hlow : transitionState m0 = Idle \/ transitionState m0 = Cueing).
    { destruct Hs0 as [-> | ->]; [exact Elt|right; reflexivity]. }
    destruct (position >? transitionCuePosition (getDeck sender m)).
    + destruct (loadNextTrack_frame _ _ _ _ Hl) as (Hc & _ & _ & ll & Htr & Hq).
      apply transitingDeck_control in Hc.
      destruct Hc as (_ & Hs1 & Hff1 & _ & Hfac1 & Hmax1).
      destruct (negb (fst l) && (forceFadingOut m <=? 0)%Z).
      * exfalso. rewrite <- Hm' in Hst. rewrite Hs1 in Hst.
        destruct Hlow; congruence.
      * symmetry in Hm'.
        destruct (Henter _ Hm') as (Hx1 & Hx2 & Hx3); [discriminate|].
        exists (cued sender (snd l)), (pre0 ++ ll).
        split; [exact Hm'|]. split; [reflexivity|]. split; [exact Hx2|].
        split; [exact Hx3|].
        split; [simpl; congruence|]. split; [simpl; congruence|].
        split; [simpl; congruence|].
        rewrite getDeck_cued in *.
        destruct (loadNextTrack_sender sender false m0) as (l' & Hl' & _ & Hd).
        rewrite Hl in Hl'. injection Hl' as <-.
        split; [rewrite (Hd Hx2); unfold m0; rewrite getDeck_preCueStep; reflexivity|].
        split; [simpl; rewrite Htr, Htr0, app_assoc; reflexivity|].
        intros d c Hin. apply in_app_or in Hin. destruct Hin as [Hin|Hin].
        -- elim (Hq0 d c Hin).
        -- rewrite forallb_forall in Hq. exact (Hq _ Hin).
    + exfalso. symmetry in Hm'.
      destruct (Henter _ Hm') as (Hx1 & _); destruct Hlow; congruence.
  - symmetry in Hm'.
    destruct (Henter _ Hm' Hnt) as (Hx1 & Hx2 & Hx3).
    exists me, [Emit (EvDeckPosition sender position)].
    split; [exact Hm'|]. split; [exact Hx1|]. split; [exact Hx2|].
    split; [exact Hx3|].
    split; [reflexivity|]. split; [reflexivity|]. split; [reflexivity|].
    split; [destruct sender; reflexivity|]. split; [reflexivity|].
    intros d c [H|[]]; discriminate H.
Qed.

(** ** The step from [Cued] to [Transit] under a forced fade *)

(** C5: a callback of the main deck takes the engine into [Transit] while
    a forced fade is pending ([forceFadingOut > 0]) and the leading
    duration of the incoming deck is at least [maxLeadingDuration].  Then
    the incoming deck is seeked to [first_audible + leading -
    maxLeadingDuration] and started right after; it is not started before
    that, nor started or seeked again in this callback.  The seek target
    lies [maxLeadingDuration] before [first_audible + leading]. *)
Theorem forced_fade_seeks_incoming_deck pow sender position m m' :
  main (getDeck sender m) = true ->
  transitionState m <> Transit ->
  deckPosition pow sender position m = Ok m' ->
  transitionState m' = Transit ->
  (forceFadingOut m > 0)%Z ->
  (leadingDuration (getDeck (otherDeck sender) m) >=? maxLeadingDuration m) = true ->
  let next := otherDeck sender in
  let target := firstAudiblePosition (getDeck next m)
                + leadingDuration (getDeck next m) - maxLeadingDuration m in
  exists pre post,
    trace m' = trace m ++ pre
               ++ [OnDeck next (CallSetPosition target); OnDeck next CallStart]
               ++ post
    /\ (forall d, ~ In (OnDeck d CallStart) pre)
    /\ (forall d, ~ In (OnDeck d CallStart) post)
    /\ (forall p, ~ In (OnDeck next (CallSetPosition p)) post)
    /\ positionSec (getDeck next m') = target
    /\ playing (getDeck next m') = true
    /\ forall f l x,
         firstAudiblePosition (getDeck next m) = Fin f ->
         leadingDuration (getDeck next m) = Fin l ->
         maxLeadingDuration m = Fin x ->
         exists t, target = Fin t /\ (t + x == f + l)%Q.
Proof.
  intros Hmain Hnt Hrun Hst Hff Hlead. cbv zeta.
  destruct (deckPosition_enters_Transit pow sender position m m'
              Hmain Hnt Hrun Hst)
    as (x & pre & Hm' & Hxs & Hxl & Hpos & Hxff & Hxmax & Hxfac & Hxd & Hxt & Hq).
  apply deckData_eq in Hxd. destruct Hxd as (_ & _ & _ & Hfa & _).
  destruct (deckPosition_transiting_step pow (otherDeck sender) position
              (transitionStartPosition (getDeck sender m))
              (leadingDuration (getDeck (otherDeck sender) m)) x Hxs Hxl Hpos)
    as (_ & Hplay & _ & Htr & _ & Hseek).
  assert (Hgt : (forceFadingOut m >? 0)%Z = true) by (apply Z.gtb_lt; lia).
  rewrite Hxff, Hxmax, Hxfac, Hfa, Hgt, Hlead in Htr.
  rewrite Hxff, Hxmax, Hfa, Hgt, Hlead in Hseek.
  simpl in Htr, Hseek. specialize (Hseek eq_refl).
  set (target := firstAudiblePosition (getDeck (otherDeck sender) m)
                 + leadingDuration (getDeck (otherDeck sender) m)
                 - maxLeadingDuration m) in *.
  set (y := deckPosition_transiting pow (otherDeck sender) position
              (transitionStartPosition (getDeck sender m))
              (leadingDuration (getDeck (otherDeck sender) m)) x) in *.
  destruct (deckPosition_fadingOut_frame pow sender position
              (transitionStartPosition (getDeck sender m))
              (transitionEndPosition (getDeck sender m)) y)
    as (Hother & l & Hl & Hlq).
  assert (Hm'' : m' = deckPosition_fadingOut pow sender position
                        (transitionStartPosition (getDeck sender m))
                        (transitionEndPosition (getDeck sender m)) y)
    by exact Hm'.
  rewrite <- Hm'' in Hother, Hl.
  match type of Htr with
  | context [CallSetVolume (pow ?a ?b)] => set (fadeIn := pow a b) in *
  end.
  exists (pre ++ [OnDeck (otherDeck sender) (CallSetVolume (lit 1))]),
         ([OnDeck (otherDeck sender) (CallSetVolume fadeIn)] ++ l).
  split; [rewrite Hl, Htr, Hxt, <- !app_assoc; reflexivity|].
  split.
  { intros d Hin. apply in_app_or in Hin. destruct Hin as [Hin|[Hin|[]]].
    - apply Hq in Hin. discriminate Hin.
    - discriminate Hin. }
  split.
  { intros d [Hin|Hin]; [discriminate Hin|].
    apply Hlq in Hin. destruct Hin as [Hin|(v & Hin)]; discriminate Hin. }
  split.
  { intros p [Hin|Hin]; [discriminate Hin|].
    apply Hlq in Hin.
    destruct Hin as [Hin|(v & Hin)]; destruct sender; discriminate Hin. }
  rewrite (Hother (otherDeck sender) (otherDeck_neq sender)).
  split; [exact Hseek|]. split; [exact Hplay|].
  intros f l0 x0 Ef El Ex. unfold target. rewrite Ef, El, Ex. simpl.
  eexists. split; [reflexivity|]. ring.
Qed.

(** ** The fading-out block when the transition has no length *)

(** The transiting block only makes calls on the next deck. *)
Lemma deckPosition_transiting_frame pow next position start leading m :
  let m' := deckPosition_transiting pow next position start leading m in
  (forall d, d <> next -> getDeck d m' = getDeck d m)
  /\ exists l, trace m' = trace m ++ l
               /\ forall a, In a l -> exists c, a = OnDeck next c.
Proof.
  assert (Hnil : forall x : Medley, exists l : list Action,
             trace x = trace x ++ l /\ forall a, In a l -> exists c, a = OnDeck next c).
  { intros x. exists []. rewrite app_nil_r. split; [reflexivity|intros a []]. }
  unfold deckPosition_transiting.
  destruct (position >? start - leading); [|split; [reflexivity|apply Hnil]].
  destruct (TransitionState_eqb (transitionState m) Cued) eqn:Es.
  - apply TransitionState_eqb_eq in Es.
    destruct (trackLoaded (getDeck next m)) eqn:El.
    + change (TransitionState_eqb Cued Cued) with true. cbv iota zeta.
      clear Hnil.
      destruct next; simpl; split_ifs; simpl;
        (split; [intros d Hd; destruct d; congruence || reflexivity|]);
        eexists; (split; [rewrite <- ?app_assoc; simpl; reflexivity|]);
        intros a Hin; simpl in Hin;
        repeat (destruct Hin as [Hin|Hin]; [eexists; symmetry; exact Hin|]);
        contradiction.
    + rewrite Es. change (TransitionState_eqb Cued Transit) with false.
      cbv iota. split; [reflexivity|apply Hnil].
  - destruct (TransitionState_eqb (transitionState m) Transit);
      [|split; [reflexivity|apply Hnil]].
    destruct (leading >=? maxLeadingDuration m); [|split; [reflexivity|apply Hnil]].
    split; [intros d Hd; apply getDeck_onDeck_other; exact Hd|].
    eexists. split; [apply trace_onDeck|].
    intros a [<-|[]]. eexists. reflexivity.
Qed.

Lemma dle_not_dgt (a b : double) : (a <=? b) = true -> (a >? b) = false.
Proof.
  unfold dle, dgt.
  destruct a, b; simpl; try discriminate; try reflexivity;
    intros H; apply negb_true_iff in H; exact H.
Qed.

(** With a transition of no length, a position past its end makes the
    progress of the fade 1. *)
Lemma progress_zero_duration (position start fin : double) :
  dzero (fin - start) = true ->
  (position >? fin) = true ->
  (jlimit (lit 0) (lit 1) ((position - start) / (fin - start)) >=? lit 1) = true.
Proof.
  destruct fin as [e| | |], start as [s| | |]; simpl; try discriminate.
  intros Hz. apply Qeqb_eq in Hz.
  destruct position as [p| | |]; simpl; try discriminate; unfold dgt; simpl.
  - intros Hp. apply Qltb_lt in Hp.
    assert (H1 : Qeqb (e + - s) 0 = true) by (apply Qeqb_eq; exact Hz).
    assert (H2 : Qeqb (p + - s) 0 = false) by (apply Qeqb_neq; lra).
    assert (H3 : Qltb (p + - s) 0 = false) by (apply Qltb_ge; lra).
    rewrite H1, H2, H3. reflexivity.
  - intros _.
    assert (H3 : Qltb (e + - s) 0 = false) by (apply Qltb_ge; lra).
    rewrite H3. reflexivity.
Qed.

(** A callback of the main deck either returns from the cueing block, or
    runs the two later blocks from a state [x]; [x] differs from the state
    before the callback by listener events, load and unload calls, and it
    has the sender as it was. *)
Lemma deckPosition_shape pow sender position m :
  main (getDeck sender m) = true ->
  exists x pre,
    trace x = trace m ++ pre
    /\ forallb isQuiet pre = true
    /\ getDeck sender x = getDeck sender m
    /\ ((TransitionState_ltb (transitionState m) Cued = true
         /\ deckPosition pow sender position m = Ok x)
        \/ deckPosition pow sender position m
           = Ok (afterCueing pow sender position m x))
    /\ (TransitionState_ltb (transitionState m) Cued = false ->
        transitionState x = transitionState m).
Proof.
  intros Hmain.
  destruct (deckPosition_main pow sender position m Hmain) as (l & Hl & Hform).
  set (me := emit (EvDeckPosition sender position) m) in *.
  set (m0 := preCueStep sender position m) in *.
  assert (H0 : exists pre0, trace m0 = trace m ++ pre0
                            /\ forallb isQuiet pre0 = true).
  { unfold m0, preCueStep. split_ifs; simpl.
    - exists [Emit (EvDeckPosition sender position); Emit EvPreCueNext].
      split; [rewrite <- app_assoc; reflexivity|reflexivity].
    - exists [Emit (EvDeckPosition sender position)].
      split; reflexivity. }
  destruct H0 as (pre0 & Htr0 & Hq0).
  destruct (loadNextTrack_frame _ _ _ _ Hl) as (_ & _ & _ & ll & Htr & Hq).
  destruct (loadNextTrack_sender sender false m0) as (l' & Hl' & Hsender & _).
  rewrite Hl in Hl'. injection Hl' as <-.
  assert (Hqq : forallb isQuiet (pre0 ++ ll) = true).
  { rewrite forallb_app, Hq0. simpl. rewrite forallb_forall in *.
    intros a Ha. specialize (Hq a Ha). destruct a; [exact Hq|reflexivity]. }
  rewrite Hform.
  destruct (TransitionState_ltb (transitionState m) Cued).
  - destruct (position >? transitionCuePosition (getDeck sender m)).
    + destruct (negb (fst l) && (forceFadingOut m <=? 0)%Z).
      * exists (snd l), (pre0 ++ ll).
        split; [rewrite Htr, Htr0, app_assoc; reflexivity|].
        split; [exact Hqq|].
        split; [rewrite Hsender; apply getDeck_preCueStep|].
        split; [left; split; reflexivity|discriminate].
      * exists (cued sender (snd l)), (pre0 ++ ll).
        split; [simpl; rewrite Htr, Htr0, app_assoc; reflexivity|].
        split; [exact Hqq|].
        split; [rewrite getDeck_cued, Hsender; apply getDeck_preCueStep|].
        split; [right; reflexivity|discriminate].
    + exists m0, pre0.
      split; [exact Htr0|]. split; [exact Hq0|].
      split; [apply getDeck_preCueStep|].
      split; [right; reflexivity|discriminate].
  - exists me, [Emit (EvDeckPosition sender position)].
    split; [reflexivity|]. split; [reflexivity|].
    split; [destruct sender; reflexivity|].
    split; [right; reflexivity|]. intros _. reflexivity.
Qed.

(** With a transition of length zero or less the two later blocks leave
    the volume of the sender alone. *)
Lemma afterCueing_no_ramp pow sender position m x :
  (transitionEndPosition (getDeck sender m)
   - transitionStartPosition (getDeck sender m) <=? lit 0) = true ->
  let y := afterCueing pow sender position m x in
  volume (getDeck sender y) = volume (getDeck sender x)
  /\ exists l, trace y = trace x ++ l
               /\ forall v, ~ In (OnDeck sender (CallSetVolume v)) l.
Proof.
  intros Hle. apply dle_not_dgt in Hle. unfold afterCueing.
  set (start := transitionStartPosition (getDeck sender m)) in *.
  set (fin := transitionEndPosition (getDeck sender m)) in *.
  set (leading := leadingDuration (getDeck (otherDeck sender) m)).
  destruct (deckPosition_transiting_frame pow (otherDeck sender) position
              start leading x) as (Hd & l1 & Ht1 & Hq1).
  set (y1 := deckPosition_transiting pow (otherDeck sender) position
               start leading x) in *.
  assert (Hs : getDeck sender y1 = getDeck sender x).
  { apply Hd. intro E. symmetry in E. exact (otherDeck_neq _ E). }
  assert (Hno1 : forall v, ~ In (OnDeck sender (CallSetVolume v)) l1).
  { intros v Hin. apply Hq1 in Hin. destruct Hin as (c & Hin).
    injection Hin as Hin _. symmetry in Hin. exact (otherDeck_neq _ Hin). }
  unfold deckPosition_fadingOut. rewrite Hle.
  destruct (position >=? start); [|cbv zeta].
  - cbv zeta.
    destruct (negb (TransitionState_eqb (transitionState y1) Idle)
              && (position >? fin));
      [destruct (jlimit (lit 0) (lit 1) ((position - start) / (fin - start))
                 >=? lit 1)|].
    + split; [rewrite getDeck_onDeck_same, <- Hs; reflexivity|].
      exists (l1 ++ [OnDeck sender CallStop]).
      split; [rewrite trace_onDeck, Ht1, app_assoc; reflexivity|].
      intros v Hin. apply in_app_or in Hin.
      destruct Hin as [Hin|[Hin|[]]]; [exact (Hno1 v Hin)|discriminate Hin].
    + split; [rewrite Hs; reflexivity|]. exists l1. split; assumption.
    + split; [rewrite Hs; reflexivity|]. exists l1. split; assumption.
  - split; [rewrite Hs; reflexivity|]. exists l1. split; assumption.
Qed.

Lemma zero_duration_facts (position start fin : double) :
  dzero (fin - start) = true ->
  (position >? fin) = true ->
  (position >=? start) = true /\ (fin - start >? lit 0) = false.
Proof.
  destruct fin as [e| | |], start as [s| | |]; simpl; try discriminate.
  intros Hz. apply Qeqb_eq in Hz.
  unfold dgt, dge, dle.
  destruct position as [p| | |]; simpl; try discriminate.
  - intros Hp. apply Qltb_lt in Hp. split.
    + apply negb_true_iff. apply Qltb_ge. lra.
    + apply Qltb_ge. lra.
  - intros _. split; [reflexivity|]. apply Qltb_ge. lra.
Qed.

(** With a transition of length zero, under way, the two later blocks stop
    the sender once the position is past the end. *)
Lemma afterCueing_stop pow sender position m x :
  dzero (transitionEndPosition (getDeck sender m)
         - transitionStartPosition (getDeck sender m)) = true ->
  (position >? transitionEndPosition (getDeck sender m)) = true ->
  transitionState x = Cued \/ transitionState x = Transit ->
  let y := afterCueing pow sender position m x in
  (exists l, trace y = trace x ++ l ++ [OnDeck sender CallStop])
  /\ playing (getDeck sender y) = false
  /\ (transitionState y = Cued \/ transitionState y = Transit).
Proof.
  intros Hz Hp Hx. unfold afterCueing.
  set (start := transitionStartPosition (getDeck sender m)) in *.
  set (fin := transitionEndPosition (getDeck sender m)) in *.
  set (leading := leadingDuration (getDeck (otherDeck sender) m)).
  destruct (zero_duration_facts position start fin Hz Hp) as (Hge & Hgt).
  pose proof (progress_zero_duration position start fin Hz Hp) as Hprog.
  destruct (deckPosition_transiting_frame pow (otherDeck sender) position
              start leading x) as (_ & l1 & Ht1 & _).
  destruct (deckPosition_transiting_control pow (otherDeck sender) position
              start leading x) as (_ & _ & Hst).
  set (y1 := deckPosition_transiting pow (otherDeck sender) position
               start leading x) in *.
  assert (Hy1 : transitionState y1 = Cued \/ transitionState y1 = Transit).
  { destruct Hst as [-> | [_ ->]]; [exact Hx|right; reflexivity]. }
  assert (Hidle : TransitionState_eqb (transitionState y1) Idle = false).
  { destruct Hy1 as [-> | ->]; reflexivity. }
  unfold deckPosition_fadingOut. rewrite Hge. cbv zeta.
  rewrite Hgt, Hidle, Hp, Hprog. cbn [negb andb]. cbv iota.
  split; [exists l1; rewrite trace_onDeck, Ht1, app_assoc; reflexivity|].
  split; [rewrite getDeck_onDeck_same; reflexivity|].
  replace (transitionState (onDeck sender CallStop y1)) with (transitionState y1)
    by (destruct sender; reflexivity).
  exact Hy1.
Qed.

(** C3, as amended: a position event of the main deck (at any position,
    so also at or past the start) of a transition whose length
    [end - start] is zero or less.  The callback returns and never ramps
    the volume of the sender: no [setVolume] call on it, volume unchanged.
    When the length is zero (as with a maximal transition time of zero) and
    a transition is under way (state [Cued] or [Transit]), the sender is
    stopped as soon as the position is past the end, and the transition
    stays under way until the sender unloads. *)
Theorem transition_without_length pow sender position m :
  main (getDeck sender m) = true ->
  (transitionEndPosition (getDeck sender m)
   - transitionStartPosition (getDeck sender m) <=? lit 0) = true ->
  exists m' l,
    deckPosition pow sender position m = Ok m'
    /\ trace m' = trace m ++ l
    /\ (forall v, ~ In (OnDeck sender (CallSetVolume v)) l)
    /\ volume (getDeck sender m') = volume (getDeck sender m)
    /\ (dzero (transitionEndPosition (getDeck sender m)
               - transitionStartPosition (getDeck sender m)) = true ->
        (position >? transitionEndPosition (getDeck sender m)) = true ->
        transitionState m = Cued \/ transitionState m = Transit ->
        In (OnDeck sender CallStop) l
        /\ playing (getDeck sender m') = false
        /\ (transitionState m' = Cued \/ transitionState m' = Transit)).
Proof.
  intros Hmain Hle.
  destruct (deckPosition_shape pow sender position m Hmain)
    as (x & pre & Htr & Hq & Hsx & Hrun & Hhigh).
  assert (Hnov : forall v, ~ In (OnDeck sender (CallSetVolume v)) pre).
  { intros v Hin. rewrite forallb_forall in Hq. apply Hq in Hin.
    discriminate Hin. }
  destruct (afterCueing_no_ramp pow sender position m x Hle)
    as (Hvol & l2 & Ht2 & Hno2).
  destruct Hrun as [(Hlow & Hrun)|Hrun].
  - exists x, pre. split; [exact Hrun|]. split; [exact Htr|].
    split; [exact Hnov|]. split; [rewrite Hsx; reflexivity|].
    intros _ _ Hst. exfalso.
    destruct Hst as [Hst|Hst]; rewrite Hst in Hlow; discriminate Hlow.
  - exists (afterCueing pow sender position m x), (pre ++ l2).
    split; [exact Hrun|].
    split; [rewrite Ht2, Htr, app_assoc; reflexivity|].
    split.
    { intros v Hin. apply in_app_or in Hin.
      destruct Hin as [Hin|Hin]; [exact (Hnov v Hin)|exact (Hno2 v Hin)]. }
    split; [rewrite Hvol, Hsx; reflexivity|].
    intros Hz Hp Hst.
    assert (Hh : TransitionState_ltb (transitionState m) Cued = false)
      by (destruct Hst as [-> | ->]; reflexivity).
    pose proof (Hhigh Hh) as Hsame.
    destruct (afterCueing_stop pow sender position m x Hz Hp) as ((l3 & Ht3) & Hpl & Hst').
    { rewrite Hsame. exact Hst. }
    split; [|split; [exact Hpl|exact Hst']].
    apply in_or_app. right.
    rewrite Ht2 in Ht3. apply app_inv_head in Ht3. rewrite Ht3.
    apply in_or_app. right. left. reflexivity.
Qed.

(** C3, as stated, fails: in [Transit], with the end of the transition
    (8 s) before its start (10 s), a position event at 11 s is past both,
    the length is below zero, and the sender is not stopped: the progress
    of the fade is clamped to 0. *)
Lemma transition_of_negative_length_not_stopped :
  ~ (forall pow sender position m m',
       main (getDeck sender m) = true ->
       transitionState m = Transit ->
       (position >=? transitionStartPosition (getDeck sender m)) = true ->
       (transitionEndPosition (getDeck sender m)
        - transitionStartPosition (getDeck sender m) <=? lit 0) = true ->
       (position >? transitionEndPosition (getDeck sender m)) = true ->
       deckPosition pow sender position m = Ok m' ->
       In (OnDeck sender CallStop) (trace m')).
Proof.
  intros H.
  pose proof (H linear_pow Deck1 (lit 11) invertedTransit _
                eq_refl eq_refl eq_refl eq_refl eq_refl eq_refl) as Hin.
  simpl in Hin.
  repeat (destruct Hin as [Hin|Hin]; [discriminate Hin|]).
  exact Hin.
Qed.

(** ** The volume of the incoming deck during a transit *)

Lemma leadingDuration_applyCall c d :
  (forall t p, c <> CallLoadTrack t p) -> c <> CallUnloadTrack ->
  leadingDuration (applyCall c d) = leadingDuration d.
Proof. destruct c; intros H1 H2; try reflexivity; congruence. Qed.










(** A position event of a deck that is not main only reaches the
    listeners. *)
Lemma deckPosition_not_main pow sender position m :
  mainIsHead m ->
  main (getDeck sender m) = false ->
  deckPosition pow sender position m
  = Ok (emit (EvDeckPosition sender position) m).
Proof.
  intros Inv Hmain. unfold deckPosition. rewrite getAnotherDeck_Some.
  replace (main (getDeck sender (emit (EvDeckPosition sender position) m)))
    with false by (rewrite <- Hmain; destruct sender; reflexivity).
  change (deckQueue (emit (EvDeckPosition sender position) m)) with (deckQueue m).
  destruct (deckQueue m) as [|front rest] eqn:Eq; [reflexivity|].
  destruct (DeckPtr_eqb_spec front sender) as [->|Hne]; [|reflexivity].
  exfalso. destruct (Inv sender) as [_ H]. unfold getMainDeck in H.
  rewrite Eq, Hmain in H. discriminate H. reflexivity.
Qed.








(** The short-leading case at a concrete engine: in the transit, after the
    position event at 9 s, the incoming deck is at full volume. *)
Example short_leading_unity_example :
  transitionState shortTransitNext = Transit
  /\ (leadingDuration (getDeck Deck2 shortTransit)
      <? maxLeadingDuration shortTransit) = true
  /\ volume (getDeck Deck2 shortTransitNext) = lit 1.
Proof. vm_compute. repeat split. Qed.

(** The long-leading ramp at a concrete engine: the position event at 7.6
    calls [setVolume] on the incoming deck with 0.92, the value of the
    ramp for a linear [pow]. *)
Example long_leading_ramp_example :
  exists l,
    trace longTransitNext = trace longTransit ++ l
    /\ In (OnDeck Deck2 (CallSetVolume (Fin (46 # 50)))) l
    /\ volume (getDeck Deck2 longTransitNext) = Fin (46 # 50).
Proof.
  exists [Emit (EvDeckPosition Deck1 (lit 7.6));
          OnDeck Deck2 (CallSetVolume (Fin (46 # 50)))].
  split; [vm_compute; reflexivity|].
  split; [right; left; reflexivity|vm_compute; reflexivity].
Qed.

(** ** [preCueNext] once per transition cycle *)

Lemma preCueCount_ext m m' l :
  trace m' = trace m ++ l ->
  filter isPreCueNext l = [] ->
  preCueCount m' = preCueCount m.
Proof.
  unfold preCueCount. intros -> H.
  rewrite filter_app, H, app_nil_r. reflexivity.
Qed.

Lemma filter_isPreCueNext_loads l :
  forallb isLoadOrUnload l = true -> filter isPreCueNext l = [].
Proof.
  induction l as [|a l IH]; simpl; [reflexivity|].
  intros H. apply andb_true_iff in H. destruct H as (Ha & Hl).
  destruct a as [d c|e]; [|discriminate Ha]. simpl. exact (IH Hl).
Qed.

Lemma filter_isPreCueNext_calls l :
  (forall a, In a l -> exists d c, a = OnDeck d c) ->
  filter isPreCueNext l = [].
Proof.
  induction l as [|a l IH]; simpl; [reflexivity|].
  intros H. destruct (H a (or_introl eq_refl)) as (d & c & ->). simpl.
  apply IH. intros b Hb. apply H. right. exact Hb.
Qed.

Lemma preCueCount_onDeck p c m : preCueCount (onDeck p c m) = preCueCount m.
Proof.
  apply (preCueCount_ext m _ [OnDeck p c]); [apply trace_onDeck|reflexivity].
Qed.

Lemma loadNextTrack_preCue cur play m r :
  loadNextTrack cur play m = Ok r ->
  preCueCount (snd r) = preCueCount m
  /\ transitionState (snd r) = transitionState m.
Proof.
  intros H. destruct (loadNextTrack_frame _ _ _ _ H) as (Hc & _ & _ & l & Ht & Hl).
  apply transitingDeck_control in Hc. destruct Hc as (_ & Hs & _).
  split; [|exact Hs].
  exact (preCueCount_ext _ _ _ Ht (filter_isPreCueNext_loads _ Hl)).
Qed.

Lemma afterCueing_preCue pow sender position m x :
  let y := afterCueing pow sender position m x in
  preCueCount y = preCueCount x
  /\ (transitionState x <> Idle -> transitionState y <> Idle).
Proof.
  unfold afterCueing.
  set (start := transitionStartPosition (getDeck sender m)).
  set (fin := transitionEndPosition (getDeck sender m)).
  set (leading := leadingDuration (getDeck (otherDeck sender) m)).
  destruct (deckPosition_transiting_frame pow (otherDeck sender) position
              start leading x) as (_ & l1 & Ht1 & Hq1).
  destruct (deckPosition_transiting_control pow (otherDeck sender) position
              start leading x) as (_ & _ & Hst).
  set (y1 := deckPosition_transiting pow (otherDeck sender) position
               start leading x) in *.
  destruct (deckPosition_fadingOut_frame pow sender position start fin y1)
    as (_ & l2 & Ht2 & Hq2).
  pose proof (deckPosition_fadingOut_control pow sender position start fin y1) as Hc.
  apply transitingDeck_control in Hc. destruct Hc as (_ & Hs2 & _).
  split.
  - rewrite (preCueCount_ext _ _ _ Ht2), (preCueCount_ext _ _ _ Ht1);
      [reflexivity| |].
    + apply filter_isPreCueNext_calls. intros a Ha.
      destruct (Hq1 a Ha) as (c & ->). eexists _, _. reflexivity.
    + apply filter_isPreCueNext_calls. intros a Ha.
      destruct (Hq2 a Ha) as [->|(v & ->)]; eexists _, _; reflexivity.
  - intros Hx. rewrite Hs2.
    destruct Hst as [-> | [_ ->]]; [exact Hx|discriminate].
Qed.

(** A position event tells the listeners [preCueNext] exactly when the
    pre-cue step fires: the sender is the main deck, the state is [Idle]
    and the position is past the pre-cue point; the state then leaves
    [Idle].  No position event takes the state back to [Idle]. *)
Lemma deckPosition_preCue pow sender position m m' :
  deckPosition pow sender position m = Ok m' ->
  preCueCount m'
  = (if preCueFires sender position m then S (preCueCount m) else preCueCount m)
  /\ (preCueFires sender position m = true -> transitionState m' <> Idle)
  /\ (transitionState m <> Idle -> transitionState m' <> Idle).
Proof.
  intros Hrun. unfold preCueFires.
  destruct (main (getDeck sender m)) eqn:Hmain.
  - destruct (deckPosition_main pow sender position m Hmain) as (l & Hl & Hform).
    rewrite Hform in Hrun. injection Hrun as <-. clear Hform. simpl.
    destruct (loadNextTrack_preCue _ _ _ _ Hl) as (Hcl & Hsl).
    set (m0 := preCueStep sender position m) in *.
    set (fires := TransitionState_eqb (transitionState m) Idle
                  && (position >? transitionPreCuePosition (getDeck sender m))).
    assert (H0 : preCueCount m0
                 = (if fires then S (preCueCount m) else preCueCount m)
                 /\ (fires = true -> transitionState m0 <> Idle)
                 /\ (transitionState m <> Idle -> transitionState m0 <> Idle)
                 /\ (fires = true -> TransitionState_ltb (transitionState m) Cued = true)).
    { unfold m0, preCueStep, fires.
      replace (getDeck sender (emit (EvDeckPosition sender position) m))
        with (getDeck sender m) by (destruct sender; reflexivity).
      change (transitionState (emit (EvDeckPosition sender position) m))
        with (transitionState m).
      destruct (TransitionState_eqb (transitionState m) Idle) eqn:Ei; simpl.
      - apply TransitionState_eqb_eq in Ei.
        destruct (position >? transitionPreCuePosition (getDeck sender m)).
        + split; [|split; [discriminate|split; [discriminate|rewrite Ei; reflexivity]]].
          unfold preCueCount. simpl. rewrite !filter_app. simpl.
          rewrite !length_app. simpl. lia.
        + split; [|split; [discriminate|split; [auto|discriminate]]].
          unfold preCueCount. simpl. rewrite !filter_app. simpl.
          rewrite app_nil_r. reflexivity.
      - split; [|split; [discriminate|split; [auto|discriminate]]].
        unfold preCueCount. simpl. rewrite !filter_app. simpl.
        rewrite app_nil_r. reflexivity. }
    destruct H0 as (Hc0 & Hf0 & Hs0 & Hlow).
    assert (Hme : preCueCount (emit (EvDeckPosition sender position) m)
                  = preCueCount m).
    { unfold preCueCount. simpl. rewrite filter_app. simpl.
      rewrite app_nil_r. reflexivity. }
    destruct (TransitionState_ltb (transitionState m) Cued) eqn:Elt.
    + destruct (position >? transitionCuePosition (getDeck sender m)).
      * destruct (negb (fst l) && (forceFadingOut m <=? 0)%Z).
        -- rewrite Hcl, Hsl. auto.
        -- destruct (afterCueing_preCue pow sender position m (cued sender (snd l)))
             as (Hca & Hsa).
           rewrite Hca.
           assert (Hcc : preCueCount (cued sender (snd l)) = preCueCount (snd l))
             by reflexivity.
           rewrite Hcc, Hcl. split; [exact Hc0|].
           split; intros _; apply Hsa; discriminate.
      * destruct (afterCueing_preCue pow sender position m m0) as (Hca & Hsa).
        rewrite Hca. split; [exact Hc0|]. split; intros H; apply Hsa; auto.
    + destruct (afterCueing_preCue pow sender position m
                  (emit (EvDeckPosition sender position) m)) as (Hca & Hsa).
      rewrite Hca, Hme.
      destruct fires eqn:Ef; [specialize (Hlow eq_refl); discriminate Hlow|].
      split; [reflexivity|]. split; [discriminate|]. exact Hsa.
  - simpl. unfold deckPosition in Hrun. rewrite getAnotherDeck_Some in Hrun.
    replace (main (getDeck sender (emit (EvDeckPosition sender position) m)))
      with false in Hrun by (rewrite <- Hmain; destruct sender; reflexivity).
    assert (Hme : preCueCount (emit (EvDeckPosition sender position) m)
                  = preCueCount m).
    { unfold preCueCount. simpl. rewrite filter_app. simpl.
      rewrite app_nil_r. reflexivity. }
    destruct (deckQueue _) as [|front rest];
      [|destruct (DeckPtr_eqb front sender)];
      injection Hrun as <-; rewrite ?preCueCount_onDeck, Hme;
      (split; [reflexivity|]); (split; [discriminate|]);
      intros H; try exact H; destruct sender; exact H.
Qed.

Ltac same_preCueCount :=
  unfold preCueCount; simpl; rewrite ?filter_app; simpl;
  rewrite ?app_nil_r; reflexivity.

Lemma deckUnloaded_dequeue_preCue sender m :
  preCueCount (deckUnloaded_dequeue sender m) = preCueCount m.
Proof.
  unfold deckUnloaded_dequeue, markFrontAsMain.
  destruct sender; simpl;
    (destruct (filter _ (deckQueue m)) as [|front rest]; [|destruct front]);
    same_preCueCount.
Qed.

Lemma deckUnloaded_transiting_preCue sender m m1 :
  deckUnloaded_transiting sender m = Ok m1 ->
  preCueCount m1 = preCueCount m
  /\ (isTransitingDeck sender m = false -> m1 = m).
Proof.
  unfold deckUnloaded_transiting.
  destruct (isTransitingDeck sender m);
    [|intros H; injection H as <-; split; reflexivity].
  destruct (TransitionState_eqb (transitionState m) Cued).
  - destruct (getAnotherDeck (transitingDeck m) m) as [next|]; [|discriminate].
    destruct (trackLoaded (getDeck next m)); simpl; intros H; injection H as <-;
      (split; [|discriminate]); split_ifs; try destruct next; same_preCueCount.
  - simpl. intros H; injection H as <-. split; [|discriminate].
    split_ifs; same_preCueCount.
Qed.

Lemma deckUnloaded_keepPlaying_preCue m m' :
  deckUnloaded_keepPlaying m = Ok m' ->
  preCueCount m' = preCueCount m /\ transitionState m' = transitionState m.
Proof.
  unfold deckUnloaded_keepPlaying.
  destruct (keepPlaying m && negb (isDeckPlaying m));
    [|intros H; injection H as <-; split; reflexivity].
  destruct (0 <? length (queue m))%nat; simpl;
    [|intros H; injection H as <-; split; reflexivity].
  destruct (loadNextTrack None true (setKeepPlaying true m)) as [r|] eqn:E;
    simpl; [|discriminate].
  intros H; injection H as <-.
  destruct (loadNextTrack_preCue _ _ _ _ E) as (Hc & Hs).
  rewrite Hc, Hs. split; reflexivity.
Qed.

Lemma deckUnloaded_preCue sender m m' :
  deckUnloaded sender m = Ok m' ->
  preCueCount m' = preCueCount m
  /\ (isTransitingDeck sender m = false ->
      transitionState m' = transitionState m).
Proof.
  unfold deckUnloaded.
  destruct (deckUnloaded_transiting sender m) as [m1|] eqn:E1; simpl;
    [|discriminate].
  intros E2.
  destruct (deckUnloaded_transiting_preCue _ _ _ E1) as (Hc1 & Hs1).
  destruct (deckUnloaded_keepPlaying_preCue _ _ E2) as (Hc2 & Hs2).
  destruct (deckUnloaded_dequeue_frame sender m1) as (Hs3 & _).
  rewrite Hc2, deckUnloaded_dequeue_preCue, Hc1. split; [reflexivity|].
  intros Hn. rewrite Hs2, Hs3, (Hs1 Hn). reflexivity.
Qed.

Lemma fadeOutMainDeck_preCue m :
  preCueCount (fadeOutMainDeck m) = preCueCount m
  /\ (TransitionState_eqb (transitionState m) Transit = false ->
      transitionState (fadeOutMainDeck m) = transitionState m).
Proof.
  unfold fadeOutMainDeck.
  destruct (getMainDeck m) as [deck|]; [|split; reflexivity].
  simpl.
  destruct (TransitionState_eqb (transitionState m) Transit).
  - split; [|discriminate].
    destruct (getMainDeck _) as [d|]; [destruct d|]; destruct deck;
      same_preCueCount.
  - split; destruct deck; try same_preCueCount; reflexivity.
Qed.

Lemma play_preCue m m' :
  play m = Ok m' ->
  preCueCount m' = preCueCount m /\ transitionState m' = transitionState m.
Proof.
  unfold play. destruct (negb (isDeckPlaying m)); simpl.
  - destruct (loadNextTrack None true m) as [r|] eqn:E; simpl; [|discriminate].
    intros H; injection H as <-.
    destruct (loadNextTrack_preCue _ _ _ _ E) as (Hc & Hs).
    rewrite <- Hc, <- Hs. split; reflexivity.
  - intros H; injection H as <-. split; reflexivity.
Qed.

(** Only a position event tells the listeners [preCueNext]. *)
Lemma handle_preCue pow i m m' :
  handle pow i m = Ok m' ->
  preCueCount m'
  = match i with
    | InDeckPosition sender position =>
        if preCueFires sender position m
        then S (preCueCount m) else preCueCount m
    | _ => preCueCount m
    end.
Proof.
  destruct i; simpl; intros H;
    try (injection H as <-; same_preCueCount).
  - injection H as <-. unfold deckLoaded, markFrontAsMain. simpl.
    destruct (deckQueue m ++ [sender]) as [|front rest];
      [|destruct front]; same_preCueCount.
  - exact (proj1 (deckUnloaded_preCue _ _ _ H)).
  - exact (proj1 (deckPosition_preCue _ _ _ _ _ H)).
  - exact (proj1 (play_preCue _ _ H)).
  - injection H as <-. exact (proj1 (fadeOutMainDeck_preCue m)).
  - injection H as <-. destruct d; same_preCueCount.
Qed.

(** The state goes back to [Idle] only on an input that ends the cycle. *)
Lemma handle_back_to_Idle pow i m m' :
  handle pow i m = Ok m' ->
  transitionState m <> Idle ->
  transitionState m' = Idle ->
  endsCycle i m = true.
Proof.
  destruct i; simpl; intros H Hn Hi;
    try (injection H as <-; exfalso; apply Hn; exact Hi).
  - injection H as <-. exfalso. apply Hn. rewrite <- Hi.
    unfold deckLoaded, markFrontAsMain. simpl.
    destruct (deckQueue m ++ [sender]) as [|front rest];
      [|destruct front]; reflexivity.
  - destruct (isTransitingDeck sender m) eqn:Et; [reflexivity|].
    exfalso. apply Hn. rewrite <- Hi. symmetry.
    exact (proj2 (deckUnloaded_preCue _ _ _ H) Et).
  - exfalso. exact (proj2 (proj2 (deckPosition_preCue _ _ _ _ _ H)) Hn Hi).
  - exfalso. apply Hn. rewrite <- Hi. symmetry. exact (proj2 (play_preCue _ _ H)).
  - injection H as <-.
    destruct (TransitionState_eqb (transitionState m) Transit) eqn:Et;
      [reflexivity|].
    exfalso. apply Hn. rewrite <- Hi. symmetry.
    exact (proj2 (fadeOutMainDeck_preCue m) Et).
  - injection H as <-. exfalso. apply Hn. rewrite <- Hi.
    destruct d; reflexivity.
Qed.

Lemma preCueFires_true sender position m :
  preCueFires sender position m = true ->
  main (getDeck sender m) = true
  /\ transitionState m = Idle
  /\ (position >? transitionPreCuePosition (getDeck sender m)) = true.
Proof.
  unfold preCueFires. intros H.
  apply andb_true_iff in H. destruct H as (H & H3).
  apply andb_true_iff in H. destruct H as (H1 & H2).
  apply TransitionState_eqb_eq in H2. auto.
Qed.

(** One input that does not end the cycle: outside [Idle] nothing is told
    and the state stays outside [Idle]; in [Idle] at most one [preCueNext]
    is told, and then the state leaves [Idle]. *)
Lemma handle_within_cycle pow i m m' :
  endsCycle i m = false ->
  handle pow i m = Ok m' ->
  (transitionState m <> Idle ->
   preCueCount m' = preCueCount m /\ transitionState m' <> Idle)
  /\ (preCueCount m' = preCueCount m
      \/ (preCueCount m' = S (preCueCount m) /\ transitionState m' <> Idle)).
Proof.
  intros He H. pose proof (handle_preCue pow i m m' H) as Hc.
  assert (Hout : transitionState m <> Idle -> transitionState m' <> Idle).
  { intros Hn Hi.
    rewrite (handle_back_to_Idle pow i m m' H Hn Hi) in He. discriminate He. }
  destruct i; try (split; [intros Hn; split; [exact Hc|exact (Hout Hn)]|left; exact Hc]).
  destruct (preCueFires sender position m) eqn:Ef.
  - destruct (preCueFires_true _ _ _ Ef) as (_ & Hi & _).
    split; [intros Hn; congruence|].
    right. split; [exact Hc|].
    simpl in H. exact (proj1 (proj2 (deckPosition_preCue _ _ _ _ _ H)) Ef).
  - split; [intros Hn; split; [exact Hc|exact (Hout Hn)]|left; exact Hc].
Qed.

Lemma run_within_cycle pow inputs :
  forall m m',
    withinCycle pow inputs m = true ->
    run pow inputs m = Ok m' ->
    (preCueCount m' <= preCueCount m + 1)%nat
    /\ (transitionState m <> Idle ->
        preCueCount m' = preCueCount m /\ transitionState m' <> Idle).
Proof.
  induction inputs as [|i rest IH]; simpl; intros m m' Hw H.
  - injection H as <-. split; [lia|]. intros Hn. split; [reflexivity|exact Hn].
  - apply andb_true_iff in Hw. destruct Hw as (He & Hw).
    apply negb_true_iff in He.
    destruct (handle pow i m) as [m1|] eqn:E; simpl in H; [|discriminate].
    destruct (IH m1 m' Hw H) as (Hle & Hout).
    destruct (handle_within_cycle pow i m m1 He E) as (Hs1 & Hs2).
    split.
    + destruct Hs2 as [Hs2|(Hs2 & Hn1)]; [lia|].
      destruct (Hout Hn1) as (Heq & _). lia.
    + intros Hn. destruct (Hs1 Hn) as (Hc1 & Hn1).
      destruct (Hout Hn1) as (Heq & Hn'). split; [lia|exact Hn'].
Qed.

(** ** The transiting deck is the main deck *)

Lemma cycleView_control m m' : control m' = control m -> cycleView m' = cycleView m.
Proof.
  unfold control, cycleView. intros H.
  injection H as -> -> -> _ _ _ _ _ _ _. reflexivity.
Qed.

Lemma transitingIsMain_view m m' :
  cycleView m' = cycleView m -> transitingIsMain m -> transitingIsMain m'.
Proof.
  unfold cycleView, transitingIsMain, getMainDeck.
  intros H. injection H as -> -> ->. auto.
Qed.

Lemma transitingIsMain_low m :
  TransitionState_ltb (transitionState m) Cued = true -> transitingIsMain m.
Proof.
  intros H [E|E]; rewrite E in H; discriminate H.
Qed.

Lemma afterCueing_cycleView pow sender position m x :
  let y := afterCueing pow sender position m x in
  transitingDeck y = transitingDeck x
  /\ deckQueue y = deckQueue x
  /\ (transitionState y = transitionState x
      \/ (transitionState x = Cued /\ transitionState y = Transit)).
Proof.
  unfold afterCueing.
  set (start := transitionStartPosition (getDeck sender m)).
  set (fin := transitionEndPosition (getDeck sender m)).
  set (leading := leadingDuration (getDeck (otherDeck sender) m)).
  destruct (deckPosition_transiting_control pow (otherDeck sender) position
              start leading x) as (Ht & _ & Hs).
  pose proof (deckPosition_transiting_mains pow (otherDeck sender) position
                start leading x) as Hm.
  set (y1 := deckPosition_transiting pow (otherDeck sender) position
               start leading x) in *.
  pose proof (deckPosition_fadingOut_control pow sender position start fin y1) as Hc.
  apply transitingDeck_control in Hc.
  destruct Hc as (Hc1 & Hc2 & _ & Hc4 & _).
  unfold mains in Hm. injection Hm as _ _ Hq.
  rewrite Hc1, Hc2, Hc4, Ht, Hq. auto.
Qed.

Lemma deckPosition_transitingIsMain pow sender position m m' :
  mainIsHead m ->
  transitingIsMain m ->
  deckPosition pow sender position m = Ok m' ->
  transitingIsMain m'.
Proof.
  intros Inv T Hrun.
  destruct (main (getDeck sender m)) eqn:Hmain.
  2:{ rewrite (deckPosition_not_main pow sender position m Inv Hmain) in Hrun.
      injection Hrun as <-. exact T. }
  destruct (deckPosition_main pow sender position m Hmain) as (l & Hl & Hform).
  rewrite Hform in Hrun. injection Hrun as <-. clear Hform.
  destruct (loadNextTrack_frame _ _ _ _ Hl) as (Hc & _ & _ & _).
  apply cycleView_control in Hc.
  set (m0 := preCueStep sender position m) in *.
  assert (H0 : transitingDeck m0 = transitingDeck m
               /\ deckQueue m0 = deckQueue m
               /\ (TransitionState_ltb (transitionState m) Cued = true ->
                   TransitionState_ltb (transitionState m0) Cued = true)).
  { unfold m0, preCueStep. split_ifs; simpl; auto. }
  destruct H0 as (Ht0 & Hq0 & Hlow0).
  assert (Hafter : forall x, transitingIsMain x ->
                     transitingIsMain (afterCueing pow sender position m x)).
  { intros x Tx.
    destruct (afterCueing_cycleView pow sender position m x) as (Ht & Hq & Hs).
    intros Hy. unfold getMainDeck. rewrite Ht, Hq. apply Tx.
    destruct Hs as [<- | [Hs _]]; [exact Hy|left; exact Hs]. }
  destruct (TransitionState_ltb (transitionState m) Cued) eqn:Elt.
  - specialize (Hlow0 eq_refl).
    destruct (position >? transitionCuePosition (getDeck sender m)).
    + destruct (negb (fst l) && (forceFadingOut m <=? 0)%Z).
      * apply transitingIsMain_low.
        unfold cycleView in Hc. injection Hc as -> _ _. exact Hlow0.
      * apply Hafter. intros _. exists sender. split; [reflexivity|].
        unfold cycleView in Hc. injection Hc as _ _ Hq.
        unfold getMainDeck. simpl. rewrite Hq, Hq0.
        apply Inv. exact Hmain.
    + apply Hafter. apply transitingIsMain_low. exact Hlow0.
  - apply Hafter. exact T.
Qed.

Lemma deckUnloaded_keepPlaying_cycleView m m' :
  deckUnloaded_keepPlaying m = Ok m' -> cycleView m' = cycleView m.
Proof.
  unfold deckUnloaded_keepPlaying.
  destruct (keepPlaying m && negb (isDeckPlaying m));
    [|intros H; injection H as <-; reflexivity].
  destruct (0 <? length (queue m))%nat; simpl;
    [|intros H; injection H as <-; reflexivity].
  destruct (loadNextTrack None true (setKeepPlaying true m)) as [r|] eqn:E;
    simpl; [|discriminate].
  intros H; injection H as <-.
  destruct (loadNextTrack_frame _ _ _ _ E) as (Hc & _).
  rewrite (cycleView_control _ _ Hc). reflexivity.
Qed.

Lemma isTransitingDeck_false sender m d :
  isTransitingDeck sender m = false -> transitingDeck m = Some d -> d <> sender.
Proof.
  unfold isTransitingDeck. intros H E. rewrite E in H. intros ->.
  destruct sender; discriminate H.
Qed.

Lemma deckUnloaded_transitingIsMain sender m m' :
  transitingIsMain m ->
  deckUnloaded sender m = Ok m' ->
  transitingIsMain m'.
Proof.
  intros T. unfold deckUnloaded.
  destruct (deckUnloaded_transiting sender m) as [m1|] eqn:E1; simpl;
    [|discriminate].
  intros E2. apply deckUnloaded_keepPlaying_cycleView in E2.
  apply (transitingIsMain_view _ _ E2).
  destruct (deckUnloaded_dequeue_frame sender m1) as (Hs & Ht & _).
  destruct (isTransitingDeck sender m) eqn:Ei.
  - assert (Hsome : transitingDeck m = Some sender).
    { unfold isTransitingDeck in Ei. destruct (transitingDeck m) as [d|];
        [|discriminate]. destruct sender, d; try discriminate; reflexivity. }
    destruct (deckUnloaded_transiting_step sender m Hsome) as (m1' & E1' & Hi & _).
    rewrite E1 in E1'. injection E1' as <-.
    intros [H|H]; rewrite Hs, Hi in H; discriminate H.
  - destruct (deckUnloaded_transiting_preCue _ _ _ E1) as (_ & Hsame).
    rewrite (Hsame Ei) in *. clear Hsame E1 m1.
    intros Hy. rewrite Hs in Hy. destruct (T Hy) as (d & Hd & Hq).
    exists d. split; [rewrite Ht; exact Hd|].
    pose proof (isTransitingDeck_false sender m d Ei Hd) as Hne.
    unfold getMainDeck in *.
    destruct (deckQueue m) as [|front rest] eqn:Eq; [discriminate|].
    injection Hq as ->.
    unfold deckUnloaded_dequeue, markFrontAsMain.
    destruct sender, d; try congruence; simpl; rewrite Eq; reflexivity.
Qed.

(** A forced fade in [Transit] unloads the main deck and takes the state
    to [Idle]. *)
Lemma fadeOutMainDeck_Transit m d :
  transitionState m = Transit ->
  getMainDeck m = Some d ->
  transitionState (fadeOutMainDeck m) = Idle
  /\ In (OnDeck d CallUnloadTrack) (trace (fadeOutMainDeck m)).
Proof.
  intros Hs Hd. unfold fadeOutMainDeck. rewrite Hd. cbv zeta.
  change (transitionState (setForceFadingOut (wrap_int (forceFadingOut m + 1)) m))
    with (transitionState m).
  rewrite Hs. change (TransitionState_eqb Transit Transit) with true. cbv iota.
  set (m2 := setTransitionState Idle
               (onDeck d CallUnloadTrack
                  (setForceFadingOut (wrap_int (forceFadingOut m + 1)) m))).
  assert (Hm2 : getMainDeck m2 = Some d).
  { rewrite <- Hd. unfold m2, getMainDeck. destruct d; reflexivity. }
  rewrite Hm2.
  assert (Ht : trace m2 = trace m ++ [OnDeck d CallUnloadTrack])
    by (unfold m2; destruct d; reflexivity).
  split; [destruct d; reflexivity|].
  replace (trace (setMixer (setPause false (mixer (onDeck d CallFadeOut m2)))
                    (onDeck d CallFadeOut m2)))
    with (trace m2 ++ [OnDeck d CallFadeOut]) by (destruct d; reflexivity).
  rewrite Ht. apply in_or_app. left. apply in_or_app. right. left. reflexivity.
Qed.

Lemma handle_transitingIsMain pow i m m' :
  mainIsHead m ->
  transitingIsMain m ->
  handle pow i m = Ok m' ->
  transitingIsMain m'.
Proof.
  intros Inv T. destruct i; simpl; intros H;
    try (injection H as <-; exact T).
  - injection H as <-. intros Hy.
    assert (Hy' : transitionState m = Cued \/ transitionState m = Transit).
    { unfold deckLoaded, markFrontAsMain in Hy. simpl in Hy.
      destruct (deckQueue m ++ [sender]) as [|front rest];
        [|destruct front]; exact Hy. }
    destruct (T Hy') as (d & Hd & Hq). exists d.
    unfold getMainDeck in *.
    destruct (deckQueue m) as [|front rest] eqn:Eq; [discriminate|].
    injection Hq as ->.
    unfold deckLoaded, markFrontAsMain. simpl. rewrite Eq. simpl.
    destruct d; simpl; (split; [exact Hd|reflexivity]).
  - exact (deckUnloaded_transitingIsMain _ _ _ T H).
  - exact (deckPosition_transitingIsMain _ _ _ _ _ Inv T H).
  - apply (transitingIsMain_view m); [|exact T].
    unfold play in H. destruct (negb (isDeckPlaying m)); simpl in H.
    + destruct (loadNextTrack None true m) as [r|] eqn:E; simpl in H; [|discriminate].
      injection H as <-.
      destruct (loadNextTrack_frame _ _ _ _ E) as (Hc & _).
      rewrite <- (cycleView_control _ _ Hc). reflexivity.
    + injection H as <-. reflexivity.
  - injection H as <-.
    destruct (TransitionState_eqb (transitionState m) Transit) eqn:Et.
    + intros Hy. exfalso. apply TransitionState_eqb_eq in Et.
      destruct (T (or_intror Et)) as (d & _ & Hq).
      destruct (fadeOutMainDeck_Transit m d Et Hq) as (Hi & _).
      rewrite Hi in Hy. destruct Hy; discriminate.
    + apply (transitingIsMain_view m); [|exact T].
      unfold fadeOutMainDeck. destruct (getMainDeck m) as [deck|]; [|reflexivity].
      simpl. rewrite Et. destruct deck; reflexivity.
  - injection H as <-. apply (transitingIsMain_view m); [|exact T].
    destruct d; reflexivity.
Qed.

Lemma reachable_transitingIsMain pow m :
  reachable pow m -> mainIsHead m /\ transitingIsMain m.
Proof.
  intros (q & curve & maxTransition & maxLeading & inputs & H).
  assert (G : forall inputs a b,
             mainIsHead a -> transitingIsMain a ->
             run pow inputs a = Ok b -> mainIsHead b /\ transitingIsMain b).
  { clear. induction inputs as [|i rest IH]; simpl; intros a b Inv T H.
    - injection H as <-. split; assumption.
    - destruct (handle pow i a) as [a1|] eqn:E; simpl in H; [|discriminate].
      exact (IH a1 b (handle_mainIsHead _ _ _ _ Inv E)
                     (handle_transitingIsMain _ _ _ _ Inv T E) H). }
  apply (G inputs _ _ (mainIsHead_newMedley q curve maxTransition maxLeading));
    [|exact H].
  intros [E|E]; discriminate E.
Qed.

(** C7: in a run of inputs none of which ends the transition cycle (the
    unloaded event of the transiting deck; a forced fade in [Transit]), the
    listeners are told [preCueNext] at most once, and not at all when the
    run starts outside [Idle], where the state then stays outside [Idle].
    An input tells [preCueNext] only if it is a position event of the main
    deck, in [Idle], past the pre-cue point; it tells it once and the state
    leaves [Idle].  The state goes back to [Idle] only on an input that
    ends the cycle; and in a reachable state a forced fade in [Transit]
    unloads the main deck, which is the transiting deck. *)
Theorem preCueNext_once_per_cycle pow inputs m m' :
  withinCycle pow inputs m = true ->
  run pow inputs m = Ok m' ->
  (preCueCount m' <= preCueCount m + 1)%nat
  /\ (transitionState m <> Idle ->
      preCueCount m' = preCueCount m /\ transitionState m' <> Idle)
  /\ (forall i a b,
        handle pow i a = Ok b ->
        preCueCount b <> preCueCount a ->
        exists sender position,
          i = InDeckPosition sender position
          /\ main (getDeck sender a) = true
          /\ transitionState a = Idle
          /\ (position >? transitionPreCuePosition (getDeck sender a)) = true
          /\ preCueCount b = S (preCueCount a)
          /\ transitionState b <> Idle)
  /\ (forall i a b,
        handle pow i a = Ok b ->
        transitionState a <> Idle ->
        transitionState b = Idle ->
        endsCycle i a = true)
  /\ (forall a d,
        reachable pow a ->
        transitionState a = Transit ->
        getMainDeck a = Some d ->
        transitingDeck a = Some d
        /\ transitionState (fadeOutMainDeck a) = Idle
        /\ In (OnDeck d CallUnloadTrack) (trace (fadeOutMainDeck a))).
Proof.
  intros Hw Hrun.
  destruct (run_within_cycle pow inputs m m' Hw Hrun) as (H1 & H2).
  split; [exact H1|]. split; [exact H2|]. split; [|split].
  3:{ intros a d Hr Hs Hd.
      destruct (reachable_transitingIsMain pow a Hr) as (_ & T).
      destruct (T (or_intror Hs)) as (d' & Ht & Hq).
      split; [congruence|]. exact (fadeOutMainDeck_Transit a d Hs Hd). }
  - intros i a b H Hne. pose proof (handle_preCue pow i a b H) as Hc.
    destruct i; try congruence.
    destruct (preCueFires sender position a) eqn:Ef; [|congruence].
    destruct (preCueFires_true _ _ _ Ef) as (Hm & Hi & Hp).
    exists sender, position. repeat split; try assumption.
    simpl in H. exact (proj1 (proj2 (deckPosition_preCue _ _ _ _ _ H)) Ef).
  - intros i a b. apply handle_back_to_Idle.
Qed.


(** ** The theorems at concrete engines *)



(** [transition_without_length] at a concrete engine. *)
Lemma transition_without_length_witness :
  (main (getDeck Deck1 cutTransit) = true)
  /\
  ((transitionEndPosition (getDeck Deck1 cutTransit)
    - transitionStartPosition (getDeck Deck1 cutTransit) <=? lit 0) = true)
  /\
  (exists m' l,
     deckPosition linear_pow Deck1 (lit 11) cutTransit = Ok m'
     /\ trace m' = trace cutTransit ++ l
     /\ (forall v, ~ In (OnDeck Deck1 (CallSetVolume v)) l)
     /\ volume (getDeck Deck1 m') = volume (getDeck Deck1 cutTransit)
     /\ (dzero (transitionEndPosition (getDeck Deck1 cutTransit)
                - transitionStartPosition (getDeck Deck1 cutTransit)) = true ->
         ((lit 11) >? transitionEndPosition (getDeck Deck1 cutTransit)) = true ->
         transitionState cutTransit = Cued \/ transitionState cutTransit = Transit ->
         In (OnDeck Deck1 CallStop) l
         /\ playing (getDeck Deck1 m') = false
         /\ (transitionState m' = Cued \/ transitionState m' = Transit))).
Proof.
  assert (H1 : main (getDeck Deck1 cutTransit) = true)
    by (vm_compute; reflexivity).
  assert (H2 : (transitionEndPosition (getDeck Deck1 cutTransit)
       - transitionStartPosition (getDeck Deck1 cutTransit) <=? lit 0) = true)
    by (vm_compute; reflexivity).
  exact (conj H1 (conj H2 (transition_without_length linear_pow Deck1 (lit 11) cutTransit H1 H2))).
Defined.


(** [forced_fade_seeks_incoming_deck] at a concrete engine. *)
Lemma forced_fade_seeks_incoming_deck_witness :
  (main (getDeck Deck1 forcedCued) = true)
  /\
  (transitionState forcedCued <> Transit)
  /\
  (deckPosition linear_pow Deck1 (lit 7) forcedCued = Ok forcedTransit)
  /\
  (transitionState forcedTransit = Transit)
  /\
  ((forceFadingOut forcedCued > 0)%Z)
  /\
  ((leadingDuration (getDeck (otherDeck Deck1) forcedCued) >=? maxLeadingDuration forcedCued) = true)
  /\
  (let next := otherDeck Deck1 in
   let target := firstAudiblePosition (getDeck next forcedCued)
                 + leadingDuration (getDeck next forcedCued) - maxLeadingDuration forcedCued in
   exists pre post,
     trace forcedTransit = trace forcedCued ++ pre
                ++ [OnDeck next (CallSetPosition target); OnDeck next CallStart]
                ++ post
     /\ (forall d, ~ In (OnDeck d CallStart) pre)
     /\ (forall d, ~ In (OnDeck d CallStart) post)
     /\ (forall p, ~ In (OnDeck next (CallSetPosition p)) post)
     /\ positionSec (getDeck next forcedTransit) = target
     /\ playing (getDeck next forcedTransit) = true
     /\ forall f l x,
          firstAudiblePosition (getDeck next forcedCued) = Fin f ->
          leadingDuration (getDeck next forcedCued) = Fin l ->
          maxLeadingDuration forcedCued = Fin x ->
          exists t, target = Fin t /\ (t + x == f + l)%Q).
Proof.
  assert (H1 : main (getDeck Deck1 forcedCued) = true)
    by (vm_compute; reflexivity).
  assert (H2 : transitionState forcedCued <> Transit)
    by (intros E; discriminate E).
  assert (H3 : deckPosition linear_pow Deck1 (lit 7) forcedCued = Ok forcedTransit)
    by (vm_compute; reflexivity).
  assert (H4 : transitionState forcedTransit = Transit)
    by (vm_compute; reflexivity).
  assert (H5 : (forceFadingOut forcedCued > 0)%Z)
    by (reflexivity).
  assert (H6 : (leadingDuration (getDeck (otherDeck Deck1) forcedCued) >=? maxLeadingDuration forcedCued) = true)
    by (vm_compute; reflexivity).
  exact (conj H1 (conj H2 (conj H3 (conj H4 (conj H5 (conj H6 (forced_fade_seeks_incoming_deck linear_pow Deck1 (lit 7) forcedCued forcedTransit H1 H2 H3 H4 H5 H6))))))).
Defined.

(** [deckUnloaded_of_transiting_deck] at a concrete engine. *)
Lemma deckUnloaded_of_transiting_deck_witness :
  (transitingDeck cuedReleased = Some Deck1)
  /\
  (trackLoaded (getDeck Deck1 cuedReleased) = false)
  /\
  (exists m' l,
     deckUnloaded Deck1 cuedReleased = Ok m'
     /\ transitionState m' = Idle
     /\ transitingDeck m' = None
     /\ trace m' = trace cuedReleased ++ l
     /\ (transitionState cuedReleased = Cued ->
         trackLoaded (getDeck (otherDeck Deck1) cuedReleased) = true ->
         In (OnDeck (otherDeck Deck1) CallStart) l
         /\ playing (getDeck (otherDeck Deck1) m') = true)
     /\ (transitionState cuedReleased <> Cued
         \/ trackLoaded (getDeck (otherDeck Deck1) cuedReleased) = false ->
         forall d, ~ In (OnDeck d CallStart) l)).
Proof.
  assert (H1 : transitingDeck cuedReleased = Some Deck1)
    by (vm_compute; reflexivity).
  assert (H2 : trackLoaded (getDeck Deck1 cuedReleased) = false)
    by (vm_compute; reflexivity).
  exact (conj H1 (conj H2 (deckUnloaded_of_transiting_deck Deck1 cuedReleased H1 H2))).
Defined.

(** [preCueNext_once_per_cycle] at a concrete engine. *)
Lemma preCueNext_once_per_cycle_witness :
  (withinCycle linear_pow cycleInputs soloPlaying = true)
  /\
  (run linear_pow cycleInputs soloPlaying = Ok cycleEnd)
  /\
  ((preCueCount cycleEnd <= preCueCount soloPlaying + 1)%nat
   /\ (transitionState soloPlaying <> Idle ->
       preCueCount cycleEnd = preCueCount soloPlaying /\ transitionState cycleEnd <> Idle)
   /\ (forall i a b,
         handle linear_pow i a = Ok b ->
         preCueCount b <> preCueCount a ->
         exists sender position,
           i = InDeckPosition sender position
           /\ main (getDeck sender a) = true
           /\ transitionState a = Idle
           /\ (position >? transitionPreCuePosition (getDeck sender a)) = true
           /\ preCueCount b = S (preCueCount a)
           /\ transitionState b <> Idle)
   /\ (forall i a b,
         handle linear_pow i a = Ok b ->
         transitionState a <> Idle ->
         transitionState b = Idle ->
         endsCycle i a = true)
   /\ (forall a d,
         reachable linear_pow a ->
         transitionState a = Transit ->
         getMainDeck a = Some d ->
         transitingDeck a = Some d
         /\ transitionState (fadeOutMainDeck a) = Idle
         /\ In (OnDeck d CallUnloadTrack) (trace (fadeOutMainDeck a)))).
Proof.
  assert (H1 : withinCycle linear_pow cycleInputs soloPlaying = true)
    by (vm_compute; reflexivity).
  assert (H2 : run linear_pow cycleInputs soloPlaying = Ok cycleEnd)
    by (vm_compute; reflexivity).
  exact (conj H1 (conj H2 (preCueNext_once_per_cycle linear_pow cycleInputs soloPlaying cycleEnd H1 H2))).
Defined.

(** * The rest of the engine and its callers: properties *)

(** ** The queue of the playground *)

Lemma fetchMany_all (T : Type) (l : list T) :
  Queue.fetchMany T (length l) l = Some (l, []).
Proof.
  induction l as [|t l IH]; simpl; [reflexivity|]. rewrite IH. reflexivity.
Qed.

Lemma fetchMany_beyond (T : Type) (l : list T) :
  Queue.fetchMany T (S (length l)) l = None.
Proof.
  induction l as [|t l IH]; [reflexivity|].
  change (Queue.fetchMany T (S (length (t :: l))) (t :: l))
    with (match Queue.fetchMany T (S (length l)) l with
          | None => None
          | Some (fetched, remaining) => Some (t :: fetched, remaining)
          end).
  rewrite IH. reflexivity.
Qed.

Lemma push_back_all (T : Type) (pushed : list T) :
  forall tracks,
    fold_left (fun q t => Queue.push_back T t q) pushed tracks = tracks ++ pushed.
Proof.
  induction pushed as [|t pushed IH]; intros tracks; simpl.
  - rewrite app_nil_r. reflexivity.
  - rewrite IH. unfold Queue.push_back. rewrite <- app_assoc. reflexivity.
Qed.

(** X1: the queue of the playground is first in, first out.  After the
    tracks [pushed] were pushed at its back, its count has grown by their
    number; as many fetches as its count return the tracks that were there
    followed by the pushed ones, in this order, and leave it empty; one
    fetch more reads the front of an empty list. *)
Theorem Queue_first_in_first_out (T : Type) (tracks pushed : list T) :
  let q := fold_left (fun q t => Queue.push_back T t q) pushed tracks in
  Queue.count T q = (Queue.count T tracks + length pushed)%nat
  /\ Queue.fetchMany T (Queue.count T q) q = Some (tracks ++ pushed, [])
  /\ Queue.fetchMany T (S (Queue.count T q)) q = None.
Proof.
  cbv zeta. rewrite push_back_all. unfold Queue.count.
  split; [apply length_app|]. split; [apply fetchMany_all|apply fetchMany_beyond].
Qed.

(** X2: the loop of [loadNextTrack], run against the queue of the
    playground, ends within one test of its condition more than the queue
    has tracks, whatever the decks accept, and never fetches from an empty
    queue; its result is the one of [fetchAndLoad]. *)
Theorem loadLoop_terminates (deck : DeckPtr) (play : bool) (m : Medley)
  (extra : nat) :
  loadLoop (S (Queue.count Track (queue m)) + extra) deck play m
  = Some (fetchAndLoad deck play (queue m) m).
Proof.
  unfold Queue.count. remember (queue m) as q eqn:Hq. symmetry in Hq.
  revert m Hq.
  induction q as [|track rest IH]; intros m Hq.
  - simpl. rewrite Hq. reflexivity.
  - change (S (length (track :: rest)) + extra)%nat
      with (S (S (length rest) + extra)).
    cbn [loadLoop]. rewrite Hq.
    cbn [Queue.count Queue.fetchNextTrack length Nat.ltb Nat.leb].
    cbn [fetchAndLoad]. unfold loadTrack.
    destruct (loadAccepted track (getDeck deck (setQueue rest m))); [reflexivity|].
    apply IH. reflexivity.
Qed.

(** ** The dispatch-loop worker of the Node binding *)

Lemma wrap_int_small (z : Z) :
  (- 2 ^ 31 <= z < 2 ^ 31)%Z -> wrap_int z = z.
Proof.
  intros H. unfold wrap_int.
  rewrite Z.mod_small; lia.
Qed.


Lemma workerStep_one_worker (o : WorkerOp) (s : WorkerState) :
  workersQueued s = (workersShutDown s + if worker s then 1 else 0)%nat ->
  workersQueued (workerStep o s)
  = (workersShutDown (workerStep o s)
     + if worker (workerStep o s) then 1 else 0)%nat.
Proof.
  intros H. destruct s as [w c q sd]. simpl in H.
  destruct o; unfold workerStep, ensureWorker, decWorkerRefCount, shutdownWorker;
    cbn [worker workerRefCount workersQueued workersShutDown].
  - destruct w; cbn [worker workersQueued workersShutDown]; lia.
  - destruct (c <=? 0)%Z; cbn [worker workerRefCount workersQueued workersShutDown];
      destruct w; cbn [worker workersQueued workersShutDown]; lia.
  - destruct w; cbn [worker workersQueued workersShutDown]; lia.
Qed.

(** X3: whatever objects of the binding are constructed and destroyed and
    however often the static [shutdown] is called, in any order, at most
    one dispatch-loop worker is alive: every worker queued but the live one
    has been shut down, and none is shut down twice. *)
Theorem worker_at_most_one_alive (ops : list WorkerOp) :
  let s := workerRun ops noWorker in
  workersQueued s = (workersShutDown s + if worker s then 1 else 0)%nat.
Proof.
  cbv zeta.
  assert (G : forall s,
             workersQueued s = (workersShutDown s + if worker s then 1 else 0)%nat ->
             workersQueued (workerRun ops s)
             = (workersShutDown (workerRun ops s)
                + if worker (workerRun ops s) then 1 else 0)%nat).
  { induction ops as [|o ops IH]; intros s H; [exact H|].
    apply (IH (workerStep o s)). apply workerStep_one_worker. exact H. }
  apply G. reflexivity.
Qed.




(** ** The audio callback of the mixer *)

Lemma filter_isGainRamp_gainRamps (info : AudioSourceChannelInfo)
  (g1 g2 : double) :
  filter isGainRamp (gainRamps info g1 g2) = gainRamps info g1 g2.
Proof.
  unfold gainRamps. induction (channelsDown (bufferChannels info)) as [|i l IH];
    simpl; [reflexivity|]. rewrite IH. reflexivity.
Qed.

Lemma existsb_isMixInputs_gainRamps (info : AudioSourceChannelInfo)
  (g1 g2 : double) :
  existsb isMixInputs (gainRamps info g1 g2) = false.
Proof.
  unfold gainRamps. induction (channelsDown (bufferChannels info)) as [|i l IH];
    simpl; [reflexivity|]. exact IH.
Qed.

Lemma getNextAudioBlock_cases (info : AudioSourceChannelInfo) (x : Mixer) :
  fst (getNextAudioBlock info x)
  = mkMixer (paused x) (paused x) true (prepared x)
  /\ existsb isMixInputs (snd (getNextAudioBlock info x))
     = negb (stalled x && paused x)
  /\ filter isGainRamp (snd (getNextAudioBlock info x))
     = if Bool.eqb (paused x) (stalled x) then []
       else gainRamps info (if paused x then lit 1 else lit 0)
                           (if paused x then lit 0 else lit 1).
Proof.
  destruct x as [p s o r]. unfold getNextAudioBlock.
  cbn [paused stalled outputStarted prepared].
  destruct s, p; cbn [negb fst snd paused stalled outputStarted prepared
                      andb Bool.eqb];
    (split; [reflexivity|]);
    rewrite ?filter_app, ?existsb_app; cbn [filter existsb isMixInputs isGainRamp app];
    rewrite ?filter_app, ?existsb_app, ?filter_isGainRamp_gainRamps,
      ?existsb_isMixInputs_gainRamps;
    destruct r; cbn [filter existsb isMixInputs isGainRamp app orb];
    rewrite ?app_nil_r; split; reflexivity.
Qed.

(** X5: what one audio callback does, for every state of the mixer.
    After the block the mixer is stalled exactly when it is paused, and the
    output is marked as started.  The decks are mixed into the block unless
    the mixer was already both stalled and paused.  The block carries gain
    ramps exactly when the pause flag and the stalled flag disagreed at
    its start: one ramp on every channel, over at most 256 samples from the
    start of the block, down to silence when paused and up from silence
    when resumed. *)
Theorem getNextAudioBlock_follows_pause (info : AudioSourceChannelInfo)
  (x : Mixer) :
  let r := getNextAudioBlock info x in
  stalled (fst r) = paused x
  /\ paused (fst r) = paused x
  /\ outputStarted (fst r) = true
  /\ existsb isMixInputs (snd r) = negb (stalled x && paused x)
  /\ length (filter isGainRamp (snd r))
     = (if Bool.eqb (paused x) (stalled x) then 0%nat else bufferChannels info)
  /\ (forall c s n g1 g2,
         In (ApplyGainRamp c s n g1 g2) (snd r) ->
         (c < bufferChannels info)%nat
         /\ s = startSample info
         /\ n = Z.min 256 (numSamples info)
         /\ (n <= 256)%Z
         /\ g1 = (if paused x then lit 1 else lit 0)
         /\ g2 = (if paused x then lit 0 else lit 1)).
Proof.
  cbv zeta. destruct (getNextAudioBlock_cases info x) as (E1 & E2 & E3).
  rewrite E1, E2, E3. cbn [paused stalled outputStarted prepared].
  split; [reflexivity|]. split; [reflexivity|]. split; [reflexivity|].
  split; [reflexivity|]. split.
  - destruct (Bool.eqb (paused x) (stalled x)); [reflexivity|].
    unfold gainRamps, channelsDown.
    rewrite length_map, length_rev, length_seq. reflexivity.
  - intros c s n g1 g2 HIn.
    assert (F : In (ApplyGainRamp c s n g1 g2)
                  (filter isGainRamp (snd (getNextAudioBlock info x)))).
    { apply filter_In. split; [exact HIn|reflexivity]. }
    rewrite E3 in F.
    destruct (Bool.eqb (paused x) (stalled x)); [destruct F|].
    unfold gainRamps, channelsDown in F.
    apply in_map_iff in F. destruct F as (i & Ei & Hi).
    apply in_rev in Hi. apply in_seq in Hi.
    injection Ei as <- <- <- <- <-.
    split; [lia|]. split; [reflexivity|]. split; [reflexivity|].
    split; [lia|]. split; reflexivity.
Qed.

Lemma mixerRun_Block (info : AudioSourceChannelInfo) (rest : list MixerInput)
  (x : Mixer) :
  mixerRun (Block info :: rest) x
  = (fst (mixerRun rest (fst (getNextAudioBlock info x))),
     snd (getNextAudioBlock info x)
     :: snd (mixerRun rest (fst (getNextAudioBlock info x)))).
Proof.
  cbn [mixerRun].
  destruct (getNextAudioBlock info x) as [x1 ops]. cbn [fst snd].
  destruct (mixerRun rest x1) as [x2 blocks]. reflexivity.
Qed.

Lemma mixerRun_Toggle (rest : list MixerInput) (x : Mixer) :
  mixerRun (TogglePause :: rest) x = mixerRun rest (snd (togglePause x)).
Proof. reflexivity. Qed.

Lemma mixerRun_steady (infos : list AudioSourceChannelInfo) :
  forall x : Mixer,
    stalled x = paused x ->
    Forall (fun ops => filter isGainRamp ops = []
                       /\ existsb isMixInputs ops = negb (paused x))
           (snd (mixerRun (map Block infos) x))
    /\ paused (fst (mixerRun (map Block infos) x)) = paused x
    /\ stalled (fst (mixerRun (map Block infos) x)) = paused x.
Proof.
  induction infos as [|info infos IH]; intros x Hx.
  - simpl. split; [constructor|]. split; [reflexivity|exact Hx].
  - cbn [map]. rewrite mixerRun_Block. cbn [fst snd].
    destruct (getNextAudioBlock_cases info x) as (E1 & E2 & E3).
    destruct (IH (fst (getNextAudioBlock info x))) as (F & P & S).
    { rewrite E1. reflexivity. }
    rewrite E1 in F, P, S |- *. cbn [paused] in F, P, S.
    split; [|split; assumption].
    constructor; [|exact F].
    rewrite E2, E3, Hx. split.
    + rewrite Bool.eqb_reflx. reflexivity.
    + destruct (paused x); reflexivity.
Qed.

(** X6: while the pause is not toggled, only the first block of a run of
    audio callbacks can carry a gain ramp.  Every later block has none, and
    the decks are mixed into it exactly when the mixer is not paused; after
    the first block the mixer is stalled exactly when it is paused. *)
Theorem blocks_without_toggle (info : AudioSourceChannelInfo)
  (infos : list AudioSourceChannelInfo) (x : Mixer) :
  let r := mixerRun (map Block (info :: infos)) x in
  Forall (fun ops => filter isGainRamp ops = []
                     /\ existsb isMixInputs ops = negb (paused x))
         (tl (snd r))
  /\ paused (fst r) = paused x
  /\ stalled (fst r) = paused x.
Proof.
  cbv zeta. cbn [map]. rewrite mixerRun_Block. cbn [fst snd tl].
  destruct (getNextAudioBlock_cases info x) as (E1 & _ & _).
  destruct (mixerRun_steady infos (fst (getNextAudioBlock info x))) as (F & P & S).
  { rewrite E1. reflexivity. }
  rewrite E1 in F, P, S |- *. cbn [paused] in F, P, S.
  split; [exact F|]. split; assumption.
Qed.

(** X7: pausing and resuming around the audio callbacks.  From a mixer at
    rest (stalled exactly when paused), a toggle, a block, a second toggle
    and a second block bring the mixer back to where it was: the decks are
    mixed into both blocks, the first block ramps every channel from the
    level of the old state to the level of the new one (unity when playing,
    silence when paused) and the second block ramps back.  Two toggles with
    no block between them are not heard at all. *)
Theorem pause_and_resume (a b : AudioSourceChannelInfo) (x : Mixer) :
  stalled x = paused x ->
  let level (p : bool) := if p then lit 0 else lit 1 in
  let r := mixerRun [TogglePause; Block a; TogglePause; Block b] x in
  fst r = mkMixer (paused x) (paused x) true (prepared x)
  /\ map (filter isGainRamp) (snd r)
     = [gainRamps a (level (paused x)) (level (negb (paused x)));
        gainRamps b (level (negb (paused x))) (level (paused x))]
  /\ map (existsb isMixInputs) (snd r) = [true; true]
  /\ mixerRun [TogglePause; TogglePause; Block a] x = mixerRun [Block a] x.
Proof.
  intros Hx. destruct x as [p s o r]. cbn [paused stalled] in Hx. subst s.
  cbv zeta. rewrite !mixerRun_Toggle, !mixerRun_Block, !mixerRun_Toggle.
  rewrite !mixerRun_Block.
  cbn [togglePause fst snd map paused stalled outputStarted prepared].
  rewrite Bool.negb_involutive.
  pose proof (getNextAudioBlock_cases a (mkMixer (negb p) p o r)) as (A1 & A2 & A3).
  rewrite A1, A2, A3.
  cbn [paused stalled outputStarted prepared fst snd map togglePause].
  rewrite Bool.negb_involutive.
  pose proof (getNextAudioBlock_cases b (mkMixer p (negb p) true r)) as (B1 & B2 & B3).
  rewrite B1, B2, B3.
  cbn [paused stalled outputStarted prepared mixerRun fst snd map].
  destruct p; cbn [negb andb Bool.eqb]; repeat split; reflexivity.
Qed.

(** ** Starting, loading and stopping *)

(** X8: [play] either returns or dereferences the null deck pointer, and it
    does the latter exactly when no deck plays while both decks hold a
    track.  When it returns, the engine keeps playing and the mixer is not
    paused; while a deck plays nothing is fetched or loaded. *)
Theorem play_returns_unless_both_held (m : Medley) :
  match play m with
  | NullDeref =>
      isDeckPlaying m = false
      /\ trackLoaded (deck1 m) = true
      /\ trackLoaded (deck2 m) = true
  | Ok m' =>
      (isDeckPlaying m = true
       \/ trackLoaded (deck1 m) = false
       \/ trackLoaded (deck2 m) = false)
      /\ keepPlaying m' = true
      /\ paused (mixer m') = false
      /\ (isDeckPlaying m = true ->
          m' = setMixer (setPause false (mixer m)) (setKeepPlaying true m))
  end.
Proof.
  unfold play. destruct (isDeckPlaying m) eqn:P; cbn [negb bind].
  - split; [left; reflexivity|]. split; [reflexivity|]. split; reflexivity.
  - unfold loadNextTrack, getAnotherDeck, getAvailableDeck.
    destruct (trackLoaded (deck1 m)) eqn:L1; cbn [negb];
      [destruct (trackLoaded (deck2 m)) eqn:L2; cbn [negb]|]; cbn [bind].
    + split; [reflexivity|]. split; reflexivity.
    + split; [right; right; reflexivity|]. split; [reflexivity|].
      split; [reflexivity|]. intros E; discriminate E.
    + split; [right; left; reflexivity|]. split; [reflexivity|].
      split; [reflexivity|]. intros E; discriminate E.
Qed.

Lemma fetchAndLoad_skip (deck : DeckPtr) (play : bool) (tail : list Track)
  (refused : list Track) :
  forall m : Medley,
    forallb (fun t => negb (openable t)) refused = true ->
    exists x,
      fetchAndLoad deck play (refused ++ tail) m = fetchAndLoad deck play tail x
      /\ trace x
         = trace m ++ map (fun t => OnDeck deck (CallLoadTrack t play)) refused
      /\ (forall d, getDeck d x = getDeck d m)
      /\ queue x = match refused with [] => queue m | _ :: _ => tail end.
Proof.
  induction refused as [|t r IH]; intros m H.
  - exists m. cbn [app map]. rewrite app_nil_r. repeat split.
  - cbn [forallb] in H. apply andb_prop in H. destruct H as [Ht Hr].
    apply Bool.negb_true_iff in Ht.
    cbn [app fetchAndLoad]. unfold loadTrack, loadAccepted. rewrite Ht.
    rewrite Bool.andb_false_r.
    destruct (IH (record (OnDeck deck (CallLoadTrack t play))
                    (setQueue (r ++ tail) m)) Hr) as (x & E & T & D & Q).
    exists x. split; [exact E|].
    split; [rewrite T; cbn [trace record setQueue map];
            rewrite <- app_assoc; reflexivity|].
    split; [intros d; rewrite D; destruct d; reflexivity|].
    rewrite Q. destruct r; reflexivity.
Qed.

(** X9: how [loadNextTrack] goes through the queue.  A deck still loading
    is unloaded first.  Every track fetched is offered to the deck with
    [loadTrack]; the tracks the deck refuses are dropped; the first track
    it accepts is loaded and ends the search, the tracks behind it stay
    queued.  When every track is refused the queue ends up empty, no load
    is under way and the result is [false]. *)
Theorem loadNextTrack_skips_refused_tracks (currentDeck : option DeckPtr)
  (next : DeckPtr) (play : bool) (m : Medley) (refused tail : list Track) :
  getAnotherDeck currentDeck m = Some next ->
  queue m = refused ++ tail ->
  forallb (fun t => negb (openable t)) refused = true ->
  match tail with [] => True | t :: _ => openable t = true end ->
  exists m',
    loadNextTrack currentDeck play m
    = Ok (match tail with [] => false | _ :: _ => true end, m')
    /\ queue m' = tl tail
    /\ trace m'
       = trace m
         ++ (if isTrackLoading (getDeck next m)
             then [OnDeck next CallUnloadTrack] else [])
         ++ map (fun t => OnDeck next (CallLoadTrack t play)) refused
         ++ match tail with
            | [] => []
            | t :: _ => [OnDeck next (CallLoadTrack t play)]
            end
    /\ isTrackLoading (getDeck next m')
       = match tail with [] => false | _ :: _ => true end.
Proof.
  intros Hnext Hq Hrefused Htail.
  unfold loadNextTrack. rewrite Hnext.
  set (m1 := if isTrackLoading (getDeck next m)
             then onDeck next CallUnloadTrack m else m).
  assert (Q1 : queue m1 = refused ++ tail).
  { unfold m1. destruct (isTrackLoading (getDeck next m)); [|exact Hq].
    destruct next; exact Hq. }
  assert (L1 : isTrackLoading (getDeck next m1) = false).
  { unfold m1. destruct (isTrackLoading (getDeck next m)) eqn:L; [|exact L].
    rewrite getDeck_onDeck_same. reflexivity. }
  assert (T1 : trace m1 = trace m ++ if isTrackLoading (getDeck next m)
                                     then [OnDeck next CallUnloadTrack] else []).
  { unfold m1. destruct (isTrackLoading (getDeck next m)).
    - apply trace_onDeck.
    - rewrite app_nil_r. reflexivity. }
  rewrite Q1.
  destruct (fetchAndLoad_skip next play tail refused m1 Hrefused)
    as (x & E & Tx & Dx & Qx0).
  rewrite E.
  assert (Qx : queue x = tail).
  { rewrite Qx0. destruct refused; [exact Q1|reflexivity]. }
  assert (Lx : isTrackLoading (getDeck next x) = false)
    by (rewrite Dx; exact L1).
  destruct tail as [|t rest].
  - exists x. cbn [fetchAndLoad tl]. split; [reflexivity|].
    split; [exact Qx|]. split; [|exact Lx].
    rewrite Tx, T1, app_nil_r, <- app_assoc. reflexivity.
  - exists (onDeck next (CallLoadTrack t play) (setQueue rest x)).
    cbn [fetchAndLoad tl]. unfold loadTrack, loadAccepted.
    replace (getDeck next (setQueue rest x)) with (getDeck next x)
      by (destruct next; reflexivity).
    rewrite Lx, Htail. cbn [negb andb].
    split; [reflexivity|]. split; [destruct next; reflexivity|].
    split.
    + rewrite trace_onDeck. cbn [trace setQueue]. rewrite Tx, T1.
      rewrite <- !app_assoc. reflexivity.
    + rewrite getDeck_onDeck_same. reflexivity.
Qed.

(** ** The [unloaded] callback *)

Lemma deckUnloaded_transiting_cases (sender : DeckPtr) (m : Medley) :
  exists m1,
    deckUnloaded_transiting sender m = Ok m1
    /\ keepPlaying m1 = keepPlaying m
    /\ queue m1 = queue m
    /\ deckQueue m1 = deckQueue m
    /\ (forall d, main (getDeck d m1) = main (getDeck d m)
                  /\ trackLoaded (getDeck d m1) = trackLoaded (getDeck d m)
                  /\ isTrackLoading (getDeck d m1) = isTrackLoading (getDeck d m))
    /\ (isTransitingDeck sender m = false -> m1 = m)
    /\ (isTransitingDeck sender m = true ->
        transitionState m1 = Idle
        /\ transitingDeck m1 = None
        /\ forceFadingOut m1
           = if (forceFadingOut m >? 0)%Z
             then wrap_int (forceFadingOut m - 1) else forceFadingOut m)
    /\ ((trace m1 = trace m
         /\ forall d, playing (getDeck d m1) = playing (getDeck d m))
        \/ (trace m1 = trace m ++ [OnDeck (otherDeck sender) CallStart]
            /\ playing (getDeck (otherDeck sender) m1) = true
            /\ transitingDeck m = Some sender
            /\ transitionState m = Cued
            /\ trackLoaded (getDeck (otherDeck sender) m) = true)).
Proof.
  unfold deckUnloaded_transiting.
  destruct (isTransitingDeck sender m) eqn:T.
  2:{ exists m. split; [reflexivity|]. split; [reflexivity|].
      split; [reflexivity|]. split; [reflexivity|].
      split; [intros d; repeat split|]. split; [reflexivity|].
      split; [intros E; discriminate E|]. left. split; reflexivity. }
  assert (Ht : transitingDeck m = Some sender).
  { unfold isTransitingDeck in T. destruct (transitingDeck m) as [t|]; [|discriminate T].
    destruct (DeckPtr_eqb_spec sender t); [congruence|discriminate T]. }
  rewrite Ht, getAnotherDeck_Some.
  destruct (TransitionState_eqb (transitionState m) Cued) eqn:S;
    [destruct (trackLoaded (getDeck (otherDeck sender) m)) eqn:L|];
    cbn [bind];
    match goal with
    | |- context [if ?c then setForceFadingOut ?n ?x else ?y] =>
        exists (if c then setForceFadingOut n x else y)
    end;
    (split; [reflexivity|]);
    cbn [forceFadingOut setTransitingDeck setTransitionState];
    replace (forceFadingOut (onDeck (otherDeck sender) CallStart m))
      with (forceFadingOut m) by (destruct sender; reflexivity);
    destruct (forceFadingOut m >? 0)%Z;
    (split; [destruct sender; reflexivity|]);
    (split; [destruct sender; reflexivity|]);
    (split; [destruct sender; reflexivity|]);
    (split; [intros d; destruct sender, d; repeat split; reflexivity|]);
    (split; [intros E; discriminate E|]);
    (split; [intros _; repeat split; destruct sender; reflexivity|]);
    first [ left; split; [reflexivity|intros d; reflexivity]
          | right; apply TransitionState_eqb_eq in S;
            split; [destruct sender; reflexivity|];
            split; [destruct sender; cbn; cbn in L; rewrite L; reflexivity|];
            split; [reflexivity|]; split; [exact S|reflexivity] ].
Qed.

Lemma deckUnloaded_dequeue_trace (sender : DeckPtr) (m : Medley) :
  exists l,
    trace (deckUnloaded_dequeue sender m) = trace m ++ l
    /\ forallb isMarkOrEvent l = true.
Proof.
  unfold deckUnloaded_dequeue, markFrontAsMain.
  cbn [deckQueue setDeckQueue].
  replace (deckQueue (onDeck sender (CallMarkAsMain false) m))
    with (deckQueue m) by (destruct sender; reflexivity).
  destruct (filter (fun d => negb (DeckPtr_eqb d sender)) (deckQueue m))
    as [|front rest].
  - exists [OnDeck sender (CallMarkAsMain false); Emit (EvDeckUnloaded sender)].
    split; [|reflexivity]. destruct sender; cbn; rewrite <- app_assoc; reflexivity.
  - exists [OnDeck sender (CallMarkAsMain false);
            OnDeck front (CallMarkAsMain true); Emit (EvDeckUnloaded sender)].
    split; [|reflexivity].
    destruct sender, front; cbn; rewrite <- !app_assoc; reflexivity.
Qed.

Lemma deckUnloaded_dequeue_decks (sender : DeckPtr) (m : Medley) :
  let m' := deckUnloaded_dequeue sender m in
  forceFadingOut m' = forceFadingOut m
  /\ deckQueue m' = filter (fun d => negb (DeckPtr_eqb d sender)) (deckQueue m)
  /\ main (getDeck sender m') = false
  /\ (forall d, isTrackLoading (getDeck d m') = isTrackLoading (getDeck d m))
  /\ forall d, d <> sender ->
       main (getDeck d m')
       = match filter (fun d => negb (DeckPtr_eqb d sender)) (deckQueue m) with
         | [] => main (getDeck d m)
         | _ :: _ => true
         end.
Proof.
  cbv zeta. unfold deckUnloaded_dequeue, markFrontAsMain.
  cbn [deckQueue setDeckQueue].
  replace (deckQueue (onDeck sender (CallMarkAsMain false) m))
    with (deckQueue m) by (destruct sender; reflexivity).
  destruct (filter (fun d => negb (DeckPtr_eqb d sender)) (deckQueue m))
    as [|front rest] eqn:F.
  - split; [destruct sender; reflexivity|]. split; [destruct sender; reflexivity|].
    split; [destruct sender; reflexivity|].
    split; [intros d; destruct sender, d; reflexivity|].
    intros d Hd. destruct sender, d; try reflexivity; congruence.
  - pose proof (filter_head_neq _ _ _ _ F) as N.
    split; [destruct sender, front; reflexivity|].
    split; [destruct sender, front; reflexivity|].
    split; [destruct sender, front; try reflexivity; congruence|].
    split; [intros d; destruct sender, front, d; reflexivity|].
    intros d Hd. destruct sender, front, d; try reflexivity; congruence.
Qed.

Lemma forallb_isMarkOrEvent_calls (l : list Action) (d : DeckPtr) (c : DeckCall) :
  forallb isMarkOrEvent l = true ->
  In (OnDeck d c) l -> exists b, c = CallMarkAsMain b.
Proof.
  intros H HIn. rewrite forallb_forall in H. specialize (H _ HIn).
  destruct c; try discriminate H. exists b. reflexivity.
Qed.

Lemma deckUnloaded_keepPlaying_off (m : Medley) :
  keepPlaying m = false -> deckUnloaded_keepPlaying m = Ok m.
Proof. intros H. unfold deckUnloaded_keepPlaying. rewrite H. reflexivity. Qed.

Lemma deckUnloaded_not_keepPlaying (sender : DeckPtr) (m : Medley) :
  keepPlaying m = false ->
  exists m1,
    deckUnloaded_transiting sender m = Ok m1
    /\ deckUnloaded sender m = Ok (deckUnloaded_dequeue sender m1).
Proof.
  intros K.
  destruct (deckUnloaded_transiting_cases sender m) as (m1 & E & K1 & _).
  exists m1. split; [exact E|].
  unfold deckUnloaded. rewrite E. cbn [bind].
  apply deckUnloaded_keepPlaying_off.
  destruct (deckUnloaded_dequeue_frame sender m1) as (_ & _ & K2 & _).
  rewrite K2, K1. exact K.
Qed.

(** X10: an [unloaded] event that arrives while the engine is not told to
    keep playing always returns; it fetches nothing from the queue and
    loads, unloads and stops no deck.  The only deck it can start is the
    other deck, and only when the sender was the transiting deck of a
    cued transition and the other deck holds a track: the start of the next
    deck does not look at [keepPlaying]. *)
Theorem deckUnloaded_while_not_keepPlaying (sender : DeckPtr) (m : Medley) :
  keepPlaying m = false ->
  exists m' l,
    deckUnloaded sender m = Ok m'
    /\ keepPlaying m' = false
    /\ queue m' = queue m
    /\ trace m' = trace m ++ l
    /\ forall d c,
         In (OnDeck d c) l ->
         (exists b, c = CallMarkAsMain b)
         \/ (c = CallStart
             /\ d = otherDeck sender
             /\ transitingDeck m = Some sender
             /\ transitionState m = Cued
             /\ trackLoaded (getDeck d m) = true).
Proof.
  intros K.
  destruct (deckUnloaded_not_keepPlaying sender m K) as (m1 & E1 & E).
  destruct (deckUnloaded_transiting_cases sender m)
    as (m1' & E1' & K1 & Q1 & _ & _ & _ & _ & T1).
  rewrite E1 in E1'. injection E1' as <-.
  destruct (deckUnloaded_dequeue_frame sender m1) as (_ & _ & K2 & Q2 & _).
  destruct (deckUnloaded_dequeue_trace sender m1) as (l2 & T2 & F2).
  destruct T1 as [(T1 & _)|(T1 & _ & A & B & C)].
  - exists (deckUnloaded_dequeue sender m1), l2.
    split; [exact E|]. split; [rewrite K2, K1; exact K|].
    split; [rewrite Q2, Q1; reflexivity|].
    split; [rewrite T2, T1; reflexivity|].
    intros d c HIn. left. exact (forallb_isMarkOrEvent_calls _ _ _ F2 HIn).
  - exists (deckUnloaded_dequeue sender m1),
      ([OnDeck (otherDeck sender) CallStart] ++ l2).
    split; [exact E|]. split; [rewrite K2, K1; exact K|].
    split; [rewrite Q2, Q1; reflexivity|].
    split; [rewrite T2, T1, <- app_assoc; reflexivity|].
    intros d c HIn. apply in_app_or in HIn. destruct HIn as [HIn|HIn].
    + destruct HIn as [HIn|[]]. injection HIn as <- <-. right.
      repeat split; assumption.
    + left. exact (forallb_isMarkOrEvent_calls _ _ _ F2 HIn).
Qed.




(** X12: an [unloaded] event that finds the queue of tracks empty always
    returns and ends the playback when nothing is left to play: afterwards
    the engine is told to keep playing exactly when it was before and a
    deck is playing.  The queue stays empty, and no deck is loaded or
    unloaded. *)
Theorem deckUnloaded_with_empty_queue (sender : DeckPtr) (m : Medley) :
  queue m = [] ->
  exists m' l,
    deckUnloaded sender m = Ok m'
    /\ queue m' = []
    /\ keepPlaying m' = keepPlaying m && isDeckPlaying m'
    /\ trace m' = trace m ++ l
    /\ forall d c,
         In (OnDeck d c) l -> c = CallStart \/ exists b, c = CallMarkAsMain b.
Proof.
  intros Q.
  destruct (deckUnloaded_transiting_cases sender m)
    as (m1 & E1 & K1 & Q1 & _ & _ & _ & _ & T1).
  destruct (deckUnloaded_dequeue_frame sender m1) as (_ & _ & K2 & Q2 & _).
  destruct (deckUnloaded_dequeue_trace sender m1) as (l2 & T2 & F2).
  set (m5 := deckUnloaded_dequeue sender m1) in *.
  assert (Q5 : queue m5 = []) by (rewrite Q2, Q1; exact Q).
  assert (K5 : keepPlaying m5 = keepPlaying m) by (rewrite K2; exact K1).
  assert (T : exists l, trace m5 = trace m ++ l
                        /\ forall d c, In (OnDeck d c) l ->
                             c = CallStart \/ exists b, c = CallMarkAsMain b).
  { destruct T1 as [(T1 & _)|(T1 & _)].
    - exists l2. split; [rewrite T2, T1; reflexivity|].
      intros d c HIn. right. exact (forallb_isMarkOrEvent_calls _ _ _ F2 HIn).
    - exists ([OnDeck (otherDeck sender) CallStart] ++ l2).
      split; [rewrite T2, T1, <- app_assoc; reflexivity|].
      intros d c HIn. apply in_app_or in HIn. destruct HIn as [HIn|HIn].
      + destruct HIn as [HIn|[]]. injection HIn as <- <-. left. reflexivity.
      + right. exact (forallb_isMarkOrEvent_calls _ _ _ F2 HIn). }
  destruct T as (l & T & C).
  unfold deckUnloaded. rewrite E1. cbn [bind]. fold m5.
  unfold deckUnloaded_keepPlaying. rewrite Q5. cbn [length Nat.ltb Nat.leb].
  destruct (keepPlaying m5 && negb (isDeckPlaying m5)) eqn:B.
  - exists (setKeepPlaying false m5), l.
    apply andb_prop in B. destruct B as [_ B].
    apply Bool.negb_true_iff in B.
    split; [reflexivity|]. split; [exact Q5|]. split.
    { change (isDeckPlaying (setKeepPlaying false m5)) with (isDeckPlaying m5).
      rewrite B, Bool.andb_false_r. reflexivity. }
    split; [exact T|exact C].
  - exists m5, l. split; [reflexivity|]. split; [exact Q5|]. split.
    { rewrite <- K5. destruct (keepPlaying m5), (isDeckPlaying m5);
        try reflexivity; discriminate B. }
    split; [exact T|exact C].
Qed.

(** ** The position callback *)

Lemma settings_control (m m' : Medley) :
  control m' = control m -> settings m' = settings m.
Proof. unfold control, settings. intros H. congruence. Qed.

Lemma settings_fields (m m' : Medley) :
  settings m' = settings m ->
  deckQueue m' = deckQueue m
  /\ forceFadingOut m' = forceFadingOut m
  /\ keepPlaying m' = keepPlaying m
  /\ fadingFactor m' = fadingFactor m
  /\ mixer m' = mixer m.
Proof. unfold settings. intros H. repeat split; congruence. Qed.

Lemma deckPosition_transiting_settings pow next position start leading m :
  let m' := deckPosition_transiting pow next position start leading m in
  settings m' = settings m /\ queue m' = queue m.
Proof.
  cbv zeta. unfold deckPosition_transiting.
  split_ifs; split; try reflexivity; destruct next; reflexivity.
Qed.

Lemma deckPosition_fadingOut_queue pow sender position start fin m :
  queue (deckPosition_fadingOut pow sender position start fin m) = queue m.
Proof.
  unfold deckPosition_fadingOut.
  split_ifs; try reflexivity; destruct sender; reflexivity.
Qed.

Lemma afterCueing_settings pow sender position m x :
  let y := afterCueing pow sender position m x in
  settings y = settings x /\ queue y = queue x.
Proof.
  cbv zeta. unfold afterCueing.
  rewrite (settings_control _ _ (deckPosition_fadingOut_control _ _ _ _ _ _)).
  rewrite deckPosition_fadingOut_queue.
  apply deckPosition_transiting_settings.
Qed.

Lemma preCueStep_settings sender position m :
  settings (preCueStep sender position m) = settings m
  /\ queue (preCueStep sender position m) = queue m
  /\ transitingDeck (preCueStep sender position m) = transitingDeck m
  /\ (transitionState (preCueStep sender position m) = transitionState m
      \/ (transitionState m = Idle
          /\ transitionState (preCueStep sender position m) = Cueing)).
Proof.
  unfold preCueStep.
  change (transitionState (emit (EvDeckPosition sender position) m))
    with (transitionState m).
  destruct (TransitionState_eqb (transitionState m) Idle) eqn:E; cbn [andb].
  - apply TransitionState_eqb_eq in E.
    destruct (position >? _); repeat split; auto.
  - repeat split; auto.
Qed.

Lemma rank_ltb_Cued (s : TransitionState) :
  TransitionState_ltb s Cued = true -> (rank s <= rank Cued)%nat.
Proof. destruct s; cbv; intros H; try discriminate H; lia. Qed.

Lemma deckPosition_not_main_cases pow sender position m :
  main (getDeck sender m) = false ->
  deckPosition pow sender position m
  = Ok (emit (EvDeckPosition sender position) m)
  \/ deckPosition pow sender position m
     = Ok (onDeck sender (CallMarkAsMain true)
             (emit (EvDeckPosition sender position) m)).
Proof.
  intros Hmain. unfold deckPosition. rewrite getAnotherDeck_Some.
  replace (main (getDeck sender (emit (EvDeckPosition sender position) m)))
    with false by (rewrite <- Hmain; destruct sender; reflexivity).
  destruct (deckQueue _) as [|front rest]; [left; reflexivity|].
  destruct (DeckPtr_eqb front sender); [right|left]; reflexivity.
Qed.

Lemma deckPosition_settings pow (sender : DeckPtr) (position : double)
  (m : Medley) :
  exists m',
    deckPosition pow sender position m = Ok m' /\ settings m' = settings m.
Proof.
  destruct (main (getDeck sender m)) eqn:Hmain.
  2:{ destruct (deckPosition_not_main_cases pow sender position m Hmain) as [E|E];
        rewrite E; eexists; (split; [reflexivity|]);
        [reflexivity|destruct sender; reflexivity]. }
  destruct (deckPosition_main pow sender position m Hmain) as (l & Hl & E).
  rewrite E. eexists. split; [reflexivity|].
  destruct (loadNextTrack_frame _ _ _ _ Hl) as (Hc & _).
  pose proof (settings_control _ _ Hc) as Sl.
  destruct (preCueStep_settings sender position m) as (Sp & _).
  split_ifs;
    rewrite ?(proj1 (afterCueing_settings pow sender position m _));
    first [ rewrite Sl; exact Sp | exact Sp | reflexivity
          | transitivity (settings (snd l)); [reflexivity|rewrite Sl; exact Sp] ].
Qed.

(** X13: what the position callback leaves alone.  It always returns; it
    never writes the deck queue, the forced-fade counter, [keepPlaying],
    the fading curve and factor, the limits or the mixer; the transition
    state never moves backwards in [Idle < Cueing < Cued < Transit]; and
    once the transition is cued, or when the sender is not the main deck,
    the callback fetches nothing from the queue and keeps the transiting
    deck. *)
Theorem deckPosition_leaves_settings pow (sender : DeckPtr) (position : double)
  (m : Medley) :
  exists m',
    deckPosition pow sender position m = Ok m'
    /\ settings m' = settings m
    /\ (rank (transitionState m) <= rank (transitionState m'))%nat
    /\ (TransitionState_ltb (transitionState m) Cued
        && main (getDeck sender m) = false ->
        queue m' = queue m /\ transitingDeck m' = transitingDeck m).
Proof.
  destruct (main (getDeck sender m)) eqn:Hmain.
  2:{ destruct (deckPosition_not_main_cases pow sender position m Hmain) as [E|E];
        rewrite E; eexists; (split; [reflexivity|]).
      - split; [reflexivity|]. split; [apply Nat.le_refl|].
        intros _. split; reflexivity.
      - split; [destruct sender; reflexivity|].
        split; [destruct sender; apply Nat.le_refl|].
        intros _. split; destruct sender; reflexivity. }
  destruct (deckPosition_main pow sender position m Hmain) as (l & Hl & E).
  rewrite E. eexists. split; [reflexivity|].
  destruct (loadNextTrack_frame _ _ _ _ Hl) as (Hc & _).
  pose proof (settings_control _ _ Hc) as Sl.
  apply transitingDeck_control in Hc. destruct Hc as (_ & Hs & _).
  destruct (preCueStep_settings sender position m) as (Sp & Qp & Tp & Rp).
  destruct (TransitionState_ltb (transitionState m) Cued) eqn:Lt; cbn [andb].
  - pose proof (rank_ltb_Cued _ Lt) as RC.
    assert (R1 : (rank (transitionState m)
                  <= rank (transitionState (preCueStep sender position m)))%nat).
    { destruct Rp as [->|[-> ->]]; [apply Nat.le_refl|cbv; lia]. }
    destruct (position >? transitionCuePosition (getDeck sender m)).
    + destruct (negb (fst l) && (forceFadingOut m <=? 0)%Z).
      * split; [rewrite Sl; exact Sp|]. split; [rewrite Hs; exact R1|].
        intros C; discriminate C.
      * destruct (afterCueing_settings pow sender position m (cued sender (snd l)))
          as (Sy & _).
        destruct (afterCueing_cycleView pow sender position m (cued sender (snd l)))
          as (_ & _ & Ry).
        split; [rewrite Sy; transitivity (settings (snd l)); [reflexivity|];
                rewrite Sl; exact Sp|].
        split; [|intros C; discriminate C].
        change (transitionState (cued sender (snd l))) with Cued in Ry.
        destruct Ry as [->|[_ ->]]; [exact RC|].
        etransitivity; [exact RC|cbv; lia].
    + destruct (afterCueing_settings pow sender position m
                  (preCueStep sender position m)) as (Sy & _).
      destruct (afterCueing_cycleView pow sender position m
                  (preCueStep sender position m)) as (_ & _ & Ry).
      split; [rewrite Sy; exact Sp|].
      split; [|intros C; discriminate C].
      destruct Ry as [->|[Ry ->]]; [exact R1|].
      etransitivity; [exact RC|cbv; lia].
  - set (me := emit (EvDeckPosition sender position) m).
    destruct (afterCueing_settings pow sender position m me) as (Sy & Qy).
    destruct (afterCueing_cycleView pow sender position m me) as (Ty & _ & Ry).
    split; [rewrite Sy; reflexivity|].
    split.
    { change (transitionState me) with (transitionState m) in Ry.
      destruct Ry as [->|[-> ->]]; [apply Nat.le_refl|cbv; lia]. }
    intros _. split; [rewrite Qy; reflexivity|rewrite Ty; reflexivity].
Qed.

Lemma fetchAndLoad_calls (deck : DeckPtr) (play : bool) (q : list Track) :
  forall m : Medley,
    exists l,
      trace (snd (fetchAndLoad deck play q m)) = trace m ++ l
      /\ forall a, In a l -> exists t, a = OnDeck deck (CallLoadTrack t play).
Proof.
  induction q as [|track rest IH]; intros m; cbn [fetchAndLoad].
  - exists []. rewrite app_nil_r. split; [reflexivity|intros a []].
  - unfold loadTrack.
    destruct (loadAccepted track (getDeck deck (setQueue rest m))); cbn [snd].
    + exists [OnDeck deck (CallLoadTrack track play)].
      split; [destruct deck; reflexivity|].
      intros a [<-|[]]. exists track. reflexivity.
    + destruct (IH (record (OnDeck deck (CallLoadTrack track play))
                      (setQueue rest m))) as (l & T & H).
      exists (OnDeck deck (CallLoadTrack track play) :: l).
      split; [rewrite T; cbn [trace record setQueue];
              rewrite <- app_assoc; reflexivity|].
      intros a [<-|Ha]; [exists track; reflexivity|exact (H a Ha)].
Qed.

Lemma beforeFade_next (sender : DeckPtr) (c : DeckCall) :
  isNextDeckCall c = true -> beforeFade sender (OnDeck (otherDeck sender) c) = true.
Proof. intros H. destruct sender; cbn; exact H. Qed.

Lemma loadNextTrack_beforeFade (sender : DeckPtr) (play : bool) (m : Medley)
  (r : bool * Medley) :
  loadNextTrack (Some sender) play m = Ok r ->
  exists l, trace (snd r) = trace m ++ l /\ forallb (beforeFade sender) l = true.
Proof.
  unfold loadNextTrack. rewrite getAnotherDeck_Some. intros H. injection H as <-.
  set (next := otherDeck sender).
  assert (F : forall l play,
             (forall a, In a l -> exists t, a = OnDeck next (CallLoadTrack t play)) ->
             forallb (beforeFade sender) l = true).
  { intros l p H. apply forallb_forall. intros a Ha. destruct (H a Ha) as (t & ->).
    apply beforeFade_next. reflexivity. }
  destruct (isTrackLoading (getDeck next m)).
  - destruct (fetchAndLoad_calls next play
                (queue (onDeck next CallUnloadTrack m))
                (onDeck next CallUnloadTrack m)) as (l & T & H).
    exists ([OnDeck next CallUnloadTrack] ++ l).
    split; [rewrite T, trace_onDeck, <- app_assoc; reflexivity|].
    rewrite forallb_app, (F _ _ H), Bool.andb_true_r. cbn [forallb].
    rewrite Bool.andb_true_r. apply beforeFade_next. reflexivity.
  - destruct (fetchAndLoad_calls next play (queue m) m) as (l & T & H).
    exists l. split; [exact T|exact (F _ _ H)].
Qed.

Lemma deckPosition_transiting_calls pow next position start leading m :
  exists l,
    trace (deckPosition_transiting pow next position start leading m)
    = trace m ++ l
    /\ forall a, In a l -> exists c, a = OnDeck next c /\ isIncomingCall c = true.
Proof.
  assert (Hnil : forall x : Medley, exists l : list Action,
             trace x = trace x ++ l
             /\ forall a, In a l ->
                  exists c, a = OnDeck next c /\ isIncomingCall c = true).
  { intros x. exists []. rewrite app_nil_r. split; [reflexivity|intros a []]. }
  unfold deckPosition_transiting.
  destruct (position >? start - leading); [|apply Hnil].
  destruct (TransitionState_eqb (transitionState m) Cued) eqn:Es.
  - apply TransitionState_eqb_eq in Es.
    destruct (trackLoaded (getDeck next m)) eqn:El.
    + change (TransitionState_eqb Cued Cued) with true. cbv iota zeta.
      clear Hnil.
      destruct next; simpl; split_ifs; simpl;
        eexists; (split; [rewrite <- ?app_assoc; simpl; reflexivity|]);
        intros a Hin; simpl in Hin;
        repeat (destruct Hin as [Hin|Hin];
                [subst a; eexists; split; reflexivity|]);
        contradiction.
    + rewrite Es. change (TransitionState_eqb Cued Transit) with false.
      cbv iota. apply Hnil.
  - destruct (TransitionState_eqb (transitionState m) Transit); [|apply Hnil].
    destruct (leading >=? maxLeadingDuration m); [|apply Hnil].
    eexists. split; [apply trace_onDeck|].
    intros a [<-|[]]. eexists. split; reflexivity.
Qed.

Lemma deckPosition_fadingOut_calls pow sender position start fin m :
  exists l,
    trace (deckPosition_fadingOut pow sender position start fin m) = trace m ++ l
    /\ (forall a, In a l ->
          a = OnDeck sender CallStop
          \/ exists v, a = OnDeck sender (CallSetVolume v))
    /\ (In (OnDeck sender CallStop) l ->
        (position >? fin) = true /\ transitionState m <> Idle).
Proof.
  unfold deckPosition_fadingOut.
  destruct (position >=? start).
  2:{ exists []. rewrite app_nil_r. split; [reflexivity|].
      split; [intros a []|intros []]. }
  cbv zeta.
  assert (Hst : forall v, transitionState (onDeck sender (CallSetVolume v) m)
                          = transitionState m) by (destruct sender; reflexivity).
  assert (Hidle : negb (TransitionState_eqb (transitionState m) Idle) = true ->
                  transitionState m <> Idle).
  { intros H E. rewrite E in H. discriminate H. }
  destruct (fin - start >? lit 0).
  - rewrite Hst.
    destruct (negb (TransitionState_eqb (transitionState m) Idle)) eqn:Ei;
      cbn [andb];
      [destruct (position >? fin) eqn:Ep;
       [destruct (jlimit (lit 0) (lit 1) ((position - start) / (fin - start))
                  >=? lit 1)|]|].
    + eexists. split; [rewrite !trace_onDeck, <- app_assoc; reflexivity|].
      split; [intros a [<-|[<-|[]]]; [right; eexists; reflexivity|left; reflexivity]|].
      intros _. split; [reflexivity|apply Hidle; reflexivity].
    + eexists. split; [rewrite trace_onDeck; reflexivity|].
      split; [intros a [<-|[]]; right; eexists; reflexivity|].
      intros [C|[]]. discriminate C.
    + eexists. split; [rewrite trace_onDeck; reflexivity|].
      split; [intros a [<-|[]]; right; eexists; reflexivity|].
      intros [C|[]]. discriminate C.
    + eexists. split; [rewrite trace_onDeck; reflexivity|].
      split; [intros a [<-|[]]; right; eexists; reflexivity|].
      intros [C|[]]. discriminate C.
  - destruct (negb (TransitionState_eqb (transitionState m) Idle)) eqn:Ei;
      cbn [andb];
      [destruct (position >? fin) eqn:Ep;
       [destruct (jlimit (lit 0) (lit 1) ((position - start) / (fin - start))
                  >=? lit 1)|]|].
    + eexists. split; [rewrite trace_onDeck; reflexivity|].
      split; [intros a [<-|[]]; left; reflexivity|].
      intros _. split; [reflexivity|apply Hidle; reflexivity].
    + exists []. rewrite app_nil_r. split; [reflexivity|].
      split; [intros a []|intros []].
    + exists []. rewrite app_nil_r. split; [reflexivity|].
      split; [intros a []|intros []].
    + exists []. rewrite app_nil_r. split; [reflexivity|].
      split; [intros a []|intros []].
Qed.

Lemma beforeFade_isPositionAction (sender : DeckPtr) (a : Action) :
  beforeFade sender a = true ->
  isPositionAction sender a = true /\ a <> OnDeck sender CallStop.
Proof.
  destruct a as [d c|e]; cbn; [|intros H; split; [exact H|discriminate]].
  destruct (DeckPtr_eqb_spec d sender) as [->|N]; cbn; intros H;
    [discriminate H|].
  split; [exact H|]. intros E. injection E as E _. contradiction.
Qed.

Lemma afterCueing_calls pow sender position m x :
  exists l,
    trace (afterCueing pow sender position m x) = trace x ++ l
    /\ forallb (isPositionAction sender) l = true
    /\ (In (OnDeck sender CallStop) l ->
        (position >? transitionEndPosition (getDeck sender m)) = true
        /\ transitionState (afterCueing pow sender position m x) <> Idle).
Proof.
  unfold afterCueing.
  set (start := transitionStartPosition (getDeck sender m)).
  set (fin := transitionEndPosition (getDeck sender m)).
  set (leading := leadingDuration (getDeck (otherDeck sender) m)).
  destruct (deckPosition_transiting_calls pow (otherDeck sender) position
              start leading x) as (l1 & T1 & H1).
  set (y := deckPosition_transiting pow (otherDeck sender) position
              start leading x) in *.
  destruct (deckPosition_fadingOut_calls pow sender position start fin y)
    as (l2 & T2 & H2 & S2).
  pose proof (deckPosition_fadingOut_control pow sender position start fin y) as C.
  apply transitingDeck_control in C. destruct C as (_ & C & _).
  exists (l1 ++ l2). split; [rewrite T2, T1, <- app_assoc; reflexivity|].
  split.
  - rewrite forallb_app. apply andb_true_intro. split; apply forallb_forall.
    + intros a Ha. destruct (H1 a Ha) as (c & -> & Hc).
      apply beforeFade_isPositionAction, beforeFade_next.
      destruct c; try discriminate Hc; reflexivity.
    + intros a Ha. destruct (H2 a Ha) as [->|(v & ->)];
        destruct sender; reflexivity.
  - intros HIn. apply in_app_or in HIn. destruct HIn as [HIn|HIn].
    + destruct (H1 _ HIn) as (c & E & _). injection E as E _.
      elim (otherDeck_neq sender). symmetry. exact E.
    + destruct (S2 HIn) as (P & N). split; [exact P|]. rewrite C. exact N.
Qed.

(** X14: the calls of the position callback.  What it adds to the trace
    are the position event, the pre-cue event and calls on the decks: on
    its sender only [setVolume], [stop] and [markAsMain (true)], on the
    other deck only [loadTrack], [unloadTrack], [setVolume], [setPosition]
    and [start].  So it never stops the other deck and never loads,
    unloads, starts or seeks its sender.  It stops its sender only when
    the sender is the main deck, the position is past the end of the
    transition and the engine is not [Idle]. *)
Theorem deckPosition_calls pow (sender : DeckPtr) (position : double)
  (m : Medley) :
  exists m' l,
    deckPosition pow sender position m = Ok m'
    /\ trace m' = trace m ++ l
    /\ forallb (isPositionAction sender) l = true
    /\ (In (OnDeck sender CallStop) l ->
        main (getDeck sender m) = true
        /\ (position >? transitionEndPosition (getDeck sender m)) = true
        /\ transitionState m' <> Idle).
Proof.
  destruct (main (getDeck sender m)) eqn:Hmain.
  2:{ destruct (deckPosition_not_main_cases pow sender position m Hmain) as [E|E];
        rewrite E.
      - exists (emit (EvDeckPosition sender position) m),
          [Emit (EvDeckPosition sender position)].
        split; [reflexivity|]. split; [reflexivity|]. split; [reflexivity|].
        intros [C|[]]. discriminate C.
      - exists (onDeck sender (CallMarkAsMain true)
                  (emit (EvDeckPosition sender position) m)),
          [Emit (EvDeckPosition sender position);
           OnDeck sender (CallMarkAsMain true)].
        split; [reflexivity|].
        split; [rewrite trace_onDeck; cbn; rewrite <- app_assoc; reflexivity|].
        split; [destruct sender; reflexivity|].
        intros [C|[C|[]]]; discriminate C. }
  destruct (deckPosition_main pow sender position m Hmain) as (l & Hl & E).
  rewrite E.
  destruct (loadNextTrack_beforeFade _ _ _ _ Hl) as (ll & Tl & Fl).
  assert (Hp : exists lp,
             trace (preCueStep sender position m) = trace m ++ lp
             /\ forallb (beforeFade sender) lp = true).
  { unfold preCueStep. split_ifs.
    - exists [Emit (EvDeckPosition sender position); Emit EvPreCueNext].
      split; [cbn; rewrite <- app_assoc; reflexivity|reflexivity].
    - exists [Emit (EvDeckPosition sender position)].
      split; reflexivity. }
  destruct Hp as (lp & Tp & Fp).
  assert (G : forall x pre,
             trace x = trace m ++ pre ->
             forallb (beforeFade sender) pre = true ->
             exists l0,
               trace (afterCueing pow sender position m x) = trace m ++ l0
               /\ forallb (isPositionAction sender) l0 = true
               /\ (In (OnDeck sender CallStop) l0 ->
                   true = true
                   /\ (position >? transitionEndPosition (getDeck sender m)) = true
                   /\ transitionState (afterCueing pow sender position m x) <> Idle)).
  { intros x pre Tx Fx.
    destruct (afterCueing_calls pow sender position m x) as (la & Ta & Fa & Sa).
    exists (pre ++ la). split; [rewrite Ta, Tx, <- app_assoc; reflexivity|].
    rewrite forallb_forall in Fx.
    split.
    - rewrite forallb_app, Fa, Bool.andb_true_r. apply forallb_forall.
      intros a Ha. apply beforeFade_isPositionAction, Fx, Ha.
    - intros HIn. split; [reflexivity|].
      apply in_app_or in HIn. destruct HIn as [HIn|HIn]; [|exact (Sa HIn)].
      destruct (beforeFade_isPositionAction _ _ (Fx _ HIn)) as (_ & N).
      elim N. reflexivity. }
  assert (Q : forall x pre,
             trace x = trace m ++ pre ->
             forallb (beforeFade sender) pre = true ->
             exists l0,
               trace x = trace m ++ l0
               /\ forallb (isPositionAction sender) l0 = true
               /\ (In (OnDeck sender CallStop) l0 ->
                   true = true
                   /\ (position >? transitionEndPosition (getDeck sender m)) = true
                   /\ transitionState x <> Idle)).
  { intros x pre Tx Fx. exists pre. split; [exact Tx|].
    rewrite forallb_forall in Fx. split.
    - apply forallb_forall. intros a Ha.
      apply beforeFade_isPositionAction, Fx, Ha.
    - intros HIn. destruct (beforeFade_isPositionAction _ _ (Fx _ HIn)) as (_ & N).
      elim N. reflexivity. }
  assert (Tpl : trace (snd l) = trace m ++ lp ++ ll)
    by (rewrite Tl, Tp, <- app_assoc; reflexivity).
  assert (Fpl : forallb (beforeFade sender) (lp ++ ll) = true)
    by (rewrite forallb_app, Fp, Fl; reflexivity).
  destruct (TransitionState_ltb (transitionState m) Cued);
    [destruct (position >? transitionCuePosition (getDeck sender m));
     [destruct (negb (fst l) && (forceFadingOut m <=? 0)%Z)|]|].
  - destruct (Q _ _ Tpl Fpl) as (l0 & H). eexists. exists l0.
    split; [reflexivity|exact H].
  - destruct (G (cued sender (snd l)) _ Tpl Fpl) as (l0 & H). eexists. exists l0.
    split; [reflexivity|exact H].
  - destruct (G _ _ Tp Fp) as (l0 & H). eexists. exists l0.
    split; [reflexivity|exact H].
  - destruct (G (emit (EvDeckPosition sender position) m)
                [Emit (EvDeckPosition sender position)] eq_refl eq_refl)
      as (l0 & H). eexists. exists l0. split; [reflexivity|exact H].
Qed.

Lemma afterCueing_forceFadingOut pow sender position m x :
  forceFadingOut (afterCueing pow sender position m x) = forceFadingOut x.
Proof.
  destruct (afterCueing_settings pow sender position m x) as (S & _).
  apply settings_fields in S. apply S.
Qed.

(** X15: a forced fade makes the cue unconditional.  After
    [fadeOutMainDeck] on an engine that is not yet cued, the first position
    report of the main deck past its cue point takes the engine to [Cued]
    (or on to [Transit]) with the main deck as the transiting deck, whether
    or not a next track could be loaded; the forced-fade counter has gone
    up by one and stays there, and the mixer is not paused. *)
Theorem fadeOutMainDeck_then_cue pow (d : DeckPtr) (position : double)
  (m : Medley) :
  mainIsHead m ->
  getMainDeck m = Some d ->
  TransitionState_ltb (transitionState m) Cued = true ->
  (0 <= forceFadingOut m < 2 ^ 31 - 1)%Z ->
  (position >? transitionCuePosition (getDeck d m)) = true ->
  exists m',
    deckPosition pow d position (fadeOutMainDeck m) = Ok m'
    /\ transitingDeck m' = Some d
    /\ (transitionState m' = Cued \/ transitionState m' = Transit)
    /\ forceFadingOut m' = (forceFadingOut m + 1)%Z
    /\ paused (mixer m') = false
    /\ In (OnDeck d CallFadeOut) (trace m').
Proof.
  intros Inv Hd Lt Hf Hp.
  assert (Hmain : main (getDeck d m) = true) by (apply Inv; exact Hd).
  assert (NT : TransitionState_eqb (transitionState m) Transit = false).
  { apply TransitionState_ltb_Cued in Lt. destruct Lt as [-> | ->]; reflexivity. }
  set (m1 := setForceFadingOut (wrap_int (forceFadingOut m + 1)) m).
  set (m3 := onDeck d CallFadeOut m1).
  assert (Ef : fadeOutMainDeck m = setMixer (setPause false (mixer m3)) m3).
  { unfold fadeOutMainDeck. rewrite Hd. cbv zeta.
    change (transitionState (setForceFadingOut _ m)) with (transitionState m).
    rewrite NT. reflexivity. }
  set (f := fadeOutMainDeck m) in *.
  assert (Df : getDeck d f = getDeck d m)
    by (rewrite Ef; unfold m3, m1; destruct d; reflexivity).
  assert (Sf : transitionState f = transitionState m)
    by (rewrite Ef; unfold m3, m1; destruct d; reflexivity).
  assert (Ff : forceFadingOut f = (forceFadingOut m + 1)%Z).
  { rewrite Ef. transitivity (wrap_int (forceFadingOut m + 1));
      [unfold m3, m1; destruct d; reflexivity|].
    apply wrap_int_small. lia. }
  assert (Pf : paused (mixer f) = false) by (rewrite Ef; reflexivity).
  assert (Tf : In (OnDeck d CallFadeOut) (trace f)).
  { rewrite Ef. change (trace (setMixer (setPause false (mixer m3)) m3))
      with (trace m3). unfold m3. rewrite trace_onDeck.
    apply in_or_app. right. left. reflexivity. }
  assert (Hmf : main (getDeck d f) = true) by (rewrite Df; exact Hmain).
  destruct (deckPosition_main pow d position f Hmf) as (l & Hl & E).
  rewrite Sf, Lt, Df, Hp, Ff in E.
  replace (forceFadingOut m + 1 <=? 0)%Z with false in E
    by (symmetry; apply Z.leb_gt; lia).
  rewrite Bool.andb_false_r in E.
  eexists. split; [exact E|].
  destruct (afterCueing_cycleView pow d position f (cued d (snd l)))
    as (Ty & _ & Ry).
  destruct (afterCueing_settings pow d position f (cued d (snd l))) as (Sy & _).
  apply settings_fields in Sy. destruct Sy as (_ & Fy & _ & _ & My).
  destruct (loadNextTrack_frame _ _ _ _ Hl) as (Hc & _ & _ & ll & Tl & _).
  apply settings_control, settings_fields in Hc.
  destruct Hc as (_ & Fc & _ & _ & Mc).
  destruct (preCueStep_settings d position f) as (Sp & _).
  apply settings_fields in Sp. destruct Sp as (_ & Fp & _ & _ & Mp).
  split; [rewrite Ty; reflexivity|].
  split.
  { change (transitionState (cued d (snd l))) with Cued in Ry.
    destruct Ry as [->|[_ ->]]; [left|right]; reflexivity. }
  split.
  { rewrite Fy. change (forceFadingOut (cued d (snd l)))
      with (forceFadingOut (snd l)). rewrite Fc, Fp. exact Ff. }
  split.
  { rewrite My. change (mixer (cued d (snd l))) with (mixer (snd l)).
    rewrite Mc, Mp. exact Pf. }
  destruct (afterCueing_calls pow d position f (cued d (snd l))) as (la & Ta & _).
  rewrite Ta. change (trace (cued d (snd l))) with (trace (snd l)).
  rewrite Tl. apply in_or_app. left. apply in_or_app. left.
  assert (Tp : exists lp, trace (preCueStep d position f) = trace f ++ lp).
  { unfold preCueStep. split_ifs; eexists; cbn;
      rewrite <- ?app_assoc; reflexivity. }
  destruct Tp as (lp & ->). apply in_or_app. left. exact Tf.
Qed.

(** X16: in every state the engine can reach, a position report from a
    deck that is not the main deck only reaches the listeners: the engine
    state and both decks stay as they are, and no call is made on a
    deck. *)
Theorem position_of_deck_not_main pow (sender : DeckPtr) (position : double)
  (m : Medley) :
  reachable pow m ->
  main (getDeck sender m) = false ->
  exists m',
    deckPosition pow sender position m = Ok m'
    /\ trace m' = trace m ++ [Emit (EvDeckPosition sender position)]
    /\ control m' = control m
    /\ queue m' = queue m
    /\ deck1 m' = deck1 m
    /\ deck2 m' = deck2 m.
Proof.
  intros R Hmain. apply reachable_transitingIsMain in R. destruct R as (Inv & _).
  rewrite (deckPosition_not_main pow sender position m Inv Hmain).
  eexists. split; [reflexivity|]. repeat split.
Qed.

(** X17: in every state the engine can reach, while a transition is cued
    or under way the transiting deck is the main deck: it is the head of
    the deck queue and flagged as main, and the other deck is not. *)
Theorem transiting_deck_is_main_deck pow (m : Medley) :
  reachable pow m ->
  transitionState m = Cued \/ transitionState m = Transit ->
  exists d,
    transitingDeck m = Some d
    /\ getMainDeck m = Some d
    /\ main (getDeck d m) = true
    /\ main (getDeck (otherDeck d) m) = false.
Proof.
  intros R S. apply reachable_transitingIsMain in R. destruct R as (Inv & T).
  destruct (T S) as (d & Td & Hd). exists d.
  split; [exact Td|]. split; [exact Hd|].
  split; [apply Inv; exact Hd|].
  destruct (main (getDeck (otherDeck d) m)) eqn:Mo; [|reflexivity].
  apply Inv in Mo. rewrite Hd in Mo. injection Mo as Mo.
  elim (otherDeck_neq d). symmetry. exact Mo.
Qed.

(** ** The fade-out of the main deck and the fading curve *)

Lemma fadingOut_finite pow sender (p s e : Q) y :
  (s < e)%Q -> (s <= p)%Q -> transitionState y <> Idle ->
  exists g,
    (0 <= g <= 1)%Q
    /\ ((p <= e)%Q -> (g == (e - p) / (e - s))%Q)
    /\ ((e < p)%Q -> (g == 0)%Q)
    /\ deckPosition_fadingOut pow sender (Fin p) (Fin s) (Fin e) y
       = if Qltb e p
         then onDeck sender CallStop
                (onDeck sender (CallSetVolume (pow (Fin g) (fadingFactor y))) y)
         else onDeck sender (CallSetVolume (pow (Fin g) (fadingFactor y))) y.
Proof.
  intros Hse Hsp Hy.
  assert (Hst : forall v, transitionState (onDeck sender (CallSetVolume v) y)
                          = transitionState y) by (destruct sender; reflexivity).
  assert (Hi : TransitionState_eqb (transitionState y) Idle = false).
  { destruct (TransitionState_eqb (transitionState y) Idle) eqn:E; [|reflexivity].
    apply TransitionState_eqb_eq in E. contradiction. }
  assert (B1 : Qltb p s = false) by (apply Qltb_ge; exact Hsp).
  assert (B2 : Qltb 0 (e + - s) = true) by (apply Qltb_lt; lra).
  assert (B3 : Qeqb (e + - s) 0 = false) by (apply Qeqb_neq; lra).
  set (q := ((p + - s) / (e + - s))%Q).
  assert (Q0 : (0 <= q)%Q) by (apply Qle_shift_div_l; lra).
  assert (B4 : Qltb q 0 = false) by (apply Qltb_ge; exact Q0).
  unfold deckPosition_fadingOut, lit.
  cbn [dge dle dlt dgt dsub dadd dneg ddiv].
  rewrite B1, B2, B3. fold q. unfold jlimit. cbn [dlt negb]. rewrite B4.
  rewrite Hst, Hi. cbn [negb andb].
  destruct (Qltb 1 q) eqn:B5.
  - apply Qltb_lt in B5.
    assert (Hep : (e < p)%Q).
    { apply Qnot_le_lt. intros C.
      assert (q <= 1)%Q by (apply Qle_shift_div_r; lra). lra. }
    exists (1 + - (1))%Q. split; [lra|]. split; [intros C; lra|].
    split; [intros _; lra|].
    cbn [dneg dlt]. rewrite (proj2 (Qltb_lt e p) Hep).
    change (Qltb 1 1) with false. reflexivity.
  - apply Qltb_ge in B5.
    assert (Hep : (p <= e)%Q).
    { apply Qnot_lt_le. intros C.
      assert (1 < q)%Q by (apply Qlt_shift_div_l; lra). lra. }
    exists (1 + - q)%Q. split; [lra|].
    split; [intros _; unfold q; field; lra|].
    split; [intros C; lra|].
    cbn [dneg dlt]. rewrite (proj2 (Qltb_ge e p) Hep). reflexivity.
Qed.

(** X18: the fade-out of the main deck over a transition of positive
    length.  With the transition cued or under way and the position at or
    past the transition start, the position callback sets the volume of its
    sender to [pow (g, fadingFactor)], where the gain [g] falls linearly
    from 1 at the transition start to 0 at the transition end:
    [g = (end - position) / (end - start)] up to the end and 0 beyond it.
    Up to the end the deck plays on; past the end it is stopped. *)
Theorem fade_out_of_main_deck pow (sender : DeckPtr) (p s e : Q) (m : Medley) :
  main (getDeck sender m) = true ->
  transitionState m = Cued \/ transitionState m = Transit ->
  transitionStartPosition (getDeck sender m) = Fin s ->
  transitionEndPosition (getDeck sender m) = Fin e ->
  (s < e)%Q ->
  (s <= p)%Q ->
  exists m' g,
    deckPosition pow sender (Fin p) m = Ok m'
    /\ volume (getDeck sender m') = pow (Fin g) (fadingFactor m)
    /\ (0 <= g <= 1)%Q
    /\ ((p <= e)%Q ->
        (g == (e - p) / (e - s))%Q
        /\ playing (getDeck sender m') = playing (getDeck sender m))
    /\ ((e < p)%Q ->
        (g == 0)%Q
        /\ playing (getDeck sender m') = false
        /\ In (OnDeck sender CallStop) (trace m')).
Proof.
  intros Hmain Hs Es Ee Hse Hsp.
  destruct (deckPosition_main pow sender (Fin p) m Hmain) as (l & _ & E).
  assert (Lt : TransitionState_ltb (transitionState m) Cued = false)
    by (destruct Hs as [-> | ->]; reflexivity).
  rewrite Lt in E. rewrite E. unfold afterCueing. rewrite Es, Ee.
  set (me := emit (EvDeckPosition sender (Fin p)) m).
  set (leading := leadingDuration (getDeck (otherDeck sender) m)).
  destruct (deckPosition_transiting_frame pow (otherDeck sender) (Fin p)
              (Fin s) leading me) as (Dy & _).
  destruct (deckPosition_transiting_control pow (otherDeck sender) (Fin p)
              (Fin s) leading me) as (_ & _ & Sy).
  destruct (deckPosition_transiting_settings pow (otherDeck sender) (Fin p)
              (Fin s) leading me) as (Fy & _).
  apply settings_fields in Fy. destruct Fy as (_ & _ & _ & Fy & _).
  set (y := deckPosition_transiting pow (otherDeck sender) (Fin p)
              (Fin s) leading me) in *.
  assert (Dsender : getDeck sender y = getDeck sender m).
  { rewrite Dy; [destruct sender; reflexivity|].
    intros C. exact (otherDeck_neq sender (eq_sym C)). }
  assert (Ny : transitionState y <> Idle).
  { change (transitionState me) with (transitionState m) in Sy.
    destruct Sy as [Sy|[_ Sy]]; rewrite Sy; [|discriminate].
    destruct Hs as [-> | ->]; discriminate. }
  destruct (fadingOut_finite pow sender p s e y Hse Hsp Ny)
    as (g & Hg & Gin & Gout & Ef).
  rewrite Ef, Fy. change (fadingFactor me) with (fadingFactor m).
  destruct (Qltb e p) eqn:B.
  - apply Qltb_lt in B. eexists. exists g. split; [reflexivity|].
    split; [rewrite !getDeck_onDeck_same; reflexivity|].
    split; [exact Hg|]. split; [intros C; lra|].
    intros _. split; [apply Gout; exact B|].
    split; [rewrite getDeck_onDeck_same; reflexivity|].
    rewrite trace_onDeck. apply in_or_app. right. left. reflexivity.
  - apply Qltb_ge in B. eexists. exists g. split; [reflexivity|].
    split; [rewrite getDeck_onDeck_same; reflexivity|].
    split; [exact Hg|]. split; [|intros C; lra].
    intros _. split; [apply Gin; exact B|].
    rewrite getDeck_onDeck_same, Dsender. reflexivity.
Qed.

(** X19: the fading factor as a function of the curve.  For finite curves
    the factor lies between 1 and 1000 and grows with the curve; every
    curve of at most 0 gives the factor 1 and every curve of at least 100
    gives 1000. *)
Theorem fadingFactor_grows_with_curve (c1 c2 : Q) (m1 m2 : Medley) :
  (c1 <= c2)%Q ->
  exists f1 f2,
    fadingFactor (setFadingCurve (Fin c1) m1) = Fin f1
    /\ fadingFactor (setFadingCurve (Fin c2) m2) = Fin f2
    /\ (1 <= f1)%Q /\ (f1 <= f2)%Q /\ (f2 <= 1000)%Q
    /\ ((c2 <= 0)%Q -> (f2 == 1)%Q)
    /\ ((100 <= c1)%Q -> (f1 == 1000)%Q).
Proof.
  intros Hc.
  destruct (fadingFactor_value c1 m1)
    as (k1 & x1 & f1 & _ & K1 & B1 & E1 & X1 & _ & F1 & N1).
  destruct (fadingFactor_value c2 m2)
    as (k2 & x2 & f2 & _ & K2 & B2 & E2 & X2 & _ & F2 & N2).
  exists f1, f2. split; [exact F1|]. split; [exact F2|].
  assert (M : (k1 <= k2)%Q).
  { rewrite K1, K2.
    destruct (Qltb c1 0) eqn:A1; [apply Qltb_lt in A1|apply Qltb_ge in A1];
      (destruct (Qltb 100 c1) eqn:A2; [apply Qltb_lt in A2|apply Qltb_ge in A2]);
      (destruct (Qltb c2 0) eqn:A3; [apply Qltb_lt in A3|apply Qltb_ge in A3]);
      (destruct (Qltb 100 c2) eqn:A4; [apply Qltb_lt in A4|apply Qltb_ge in A4]);
      lra. }
  set (d1 := ((100 - k1) * (999 # 100) + 1)%Q) in *.
  set (d2 := ((100 - k2) * (999 # 100) + 1)%Q) in *.
  assert (D1 : (1 <= d1 <= 1000)%Q) by (unfold d1; lra).
  assert (D2 : (1 <= d2 <= 1000)%Q) by (unfold d2; lra).
  assert (D12 : (d2 <= d1)%Q) by (unfold d1, d2; lra).
  assert (X12 : (x1 <= x2)%Q) by nra.
  rewrite N1, N2.
  split.
  { rewrite <- nearestFloat_1. apply nearestFloat_mono; [reflexivity|apply X1]. }
  split; [apply nearestFloat_mono; lra|].
  split.
  { rewrite <- nearestFloat_1000. apply nearestFloat_mono; [lra|apply X2]. }
  split.
  - intros C. assert (k2 == 0)%Q.
    { rewrite K2. destruct (Qltb c2 0) eqn:A; [lra|]. apply Qltb_ge in A.
      destruct (Qltb 100 c2) eqn:B; [apply Qltb_lt in B; lra|]. lra. }
    assert (d2 == 1000)%Q by (unfold d2; lra).
    assert (x2 == 1)%Q by nra.
    rewrite <- nearestFloat_1. apply nearestFloat_comp; [lra|assumption].
  - intros C. assert (k1 == 100)%Q.
    { rewrite K1. destruct (Qltb c1 0) eqn:A; [apply Qltb_lt in A; lra|].
      destruct (Qltb 100 c1) eqn:B; [lra|]. apply Qltb_ge in B. lra. }
    assert (d1 == 1)%Q by (unfold d1; lra).
    assert (x1 == 1000)%Q by nra.
    rewrite <- nearestFloat_1000. apply nearestFloat_comp; [lra|assumption].
Qed.

(** X20: [setFadingCurve] on every [double].  The clamp catches both
    infinities: whatever the argument, as long as it is a number the curve
    stored lies in [0, 100] and the factor in [1, 1000].  It does not catch
    NaN, which compares false with both limits: NaN is stored as the curve
    and the factor becomes NaN. *)
Theorem setFadingCurve_clamps_all_but_NaN (c : double) (m : Medley) :
  match c with
  | NaN =>
      fadingCurve (setFadingCurve c m) = NaN
      /\ fadingFactor (setFadingCurve c m) = NaN
  | _ =>
      exists k f,
        fadingCurve (setFadingCurve c m) = Fin k
        /\ fadingFactor (setFadingCurve c m) = Fin f
        /\ (0 <= k <= 100)%Q
        /\ (1 <= f <= 1000)%Q
  end.
Proof.
  assert (G : forall q, exists k f,
             fadingCurve (setFadingCurve (Fin q) m) = Fin k
             /\ fadingFactor (setFadingCurve (Fin q) m) = Fin f
             /\ (0 <= k <= 100)%Q
             /\ (1 <= f <= 1000)%Q).
  { intros q.
    destruct (fadingFactor_value q m) as (k & x & f & C & _ & B & _ & X & _ & F & N).
    exists k, f. split; [exact C|]. split; [exact F|]. split; [exact B|].
    rewrite N. split.
    - rewrite <- nearestFloat_1. apply nearestFloat_mono; [reflexivity|apply X].
    - rewrite <- nearestFloat_1000. apply nearestFloat_mono; [lra|apply X]. }
  destruct c as [q| | |].
  - apply G.
  - exact (G 100%Q).
  - exact (G 0%Q).
  - split; reflexivity.
Qed.

(** ** The forced-fade counter *)

Lemma deckUnloaded_keepPlaying_forceFadingOut (m m' : Medley) :
  deckUnloaded_keepPlaying m = Ok m' -> forceFadingOut m' = forceFadingOut m.
Proof.
  unfold deckUnloaded_keepPlaying.
  destruct (keepPlaying m && negb (isDeckPlaying m));
    [|intros H; injection H as <-; reflexivity].
  cbv zeta. destruct (0 <? length (queue m))%nat;
    [|intros H; injection H as <-; reflexivity].
  destruct (loadNextTrack None true (setKeepPlaying true m)) as [r|] eqn:E;
    cbn [bind]; [|discriminate].
  intros H. injection H as <-.
  destruct (loadNextTrack_frame _ _ _ _ E) as (C & _).
  apply transitingDeck_control in C. destruct C as (_ & _ & C & _).
  rewrite C. reflexivity.
Qed.

Lemma fadeOutMainDeck_forceFadingOut (m : Medley) :
  forceFadingOut (fadeOutMainDeck m)
  = match getMainDeck m with
    | Some _ => wrap_int (forceFadingOut m + 1)
    | None => forceFadingOut m
    end.
Proof.
  unfold fadeOutMainDeck. destruct (getMainDeck m) as [deck|]; [|reflexivity].
  cbv zeta.
  destruct (TransitionState_eqb _ Transit).
  - destruct (getMainDeck _) as [d|]; [destruct d|]; destruct deck; reflexivity.
  - destruct deck; reflexivity.
Qed.

(** X21: the counter of forced fades, handler by handler.  With the
    counter in the range of an [int] that cannot overflow, only
    [fadeOutMainDeck] raises it, by one and only when there is a main deck;
    only the [unloaded] event of the transiting deck lowers it, by one and
    never below zero; every other callback and API call leaves it as it
    is. *)
Theorem forceFadingOut_step pow (i : Input) (m m' : Medley) :
  (0 <= forceFadingOut m < 2 ^ 31 - 1)%Z ->
  handle pow i m = Ok m' ->
  forceFadingOut m'
  = (forceFadingOut m
     + match i with
       | InFadeOutMainDeck =>
           match getMainDeck m with Some _ => 1 | None => 0 end
       | InDeckUnloaded sender =>
           if isTransitingDeck sender m && (0 <? forceFadingOut m)
           then -1 else 0
       | _ => 0
       end)%Z
  /\ (0 <= forceFadingOut m')%Z.
Proof.
  intros Hf H.
  assert (G : forceFadingOut m'
              = (forceFadingOut m
                 + match i with
                   | InFadeOutMainDeck =>
                       match getMainDeck m with Some _ => 1 | None => 0 end
                   | InDeckUnloaded sender =>
                       if isTransitingDeck sender m && (0 <? forceFadingOut m)
                       then -1 else 0
                   | _ => 0
                   end)%Z).
  { destruct i; cbn [handle] in H;
      try (injection H as <-; rewrite Z.add_0_r).
    - reflexivity.
    - reflexivity.
    - unfold deckLoaded, markFrontAsMain. cbn [deckQueue setDeckQueue].
      destruct (deckQueue m ++ [sender]) as [|f r]; [reflexivity|].
      destruct f; reflexivity.
    - unfold deckUnloaded in H.
      destruct (deckUnloaded_transiting_cases sender m)
        as (m1 & E1 & _ & _ & _ & _ & N1 & Y1 & _).
      rewrite E1 in H. cbn [bind] in H.
      apply deckUnloaded_keepPlaying_forceFadingOut in H. rewrite H.
      destruct (deckUnloaded_dequeue_decks sender m1) as (F & _). rewrite F.
      destruct (isTransitingDeck sender m) eqn:T; cbn [andb].
      + destruct (Y1 eq_refl) as (_ & _ & ->).
        rewrite Z.gtb_ltb.
        destruct (0 <? forceFadingOut m)%Z eqn:C; [|lia].
        apply Z.ltb_lt in C. rewrite wrap_int_small; lia.
      + rewrite (N1 eq_refl). lia.
    - destruct (deckPosition_settings pow sender position m) as (m2 & E & S).
      rewrite E in H. injection H as <-.
      apply settings_fields in S. destruct S as (_ & -> & _). lia.
    - reflexivity.
    - unfold play in H.
      destruct (isDeckPlaying m); cbn [negb bind] in H.
      + injection H as <-. rewrite Z.add_0_r. reflexivity.
      + destruct (loadNextTrack None true m) as [r|] eqn:E; cbn [bind] in H;
          [|discriminate H].
        injection H as <-.
        destruct (loadNextTrack_frame _ _ _ _ E) as (C & _).
        apply transitingDeck_control in C. destruct C as (_ & _ & C & _).
        rewrite Z.add_0_r. exact C.
    - reflexivity.
    - injection H as <-. rewrite fadeOutMainDeck_forceFadingOut.
      destruct (getMainDeck m); [|lia]. apply wrap_int_small. lia.
    - reflexivity.
    - reflexivity.
    - destruct d; reflexivity.
    - reflexivity.
    - reflexivity. }
  split; [exact G|]. rewrite G.
  destruct i; try lia.
  - destruct (isTransitingDeck sender m && (0 <? forceFadingOut m)%Z) eqn:C; [|lia].
    apply andb_prop in C. destruct C as [_ C]. apply Z.ltb_lt in C. lia.
  - destruct (getMainDeck m); lia.
Qed.

(** ** The deck queue *)

Lemma markAsMain_same (d : Deck) (b : bool) :
  main d = b -> applyCall (CallMarkAsMain b) d = d.
Proof. destruct d. cbn. intros ->. reflexivity. Qed.

Lemma filter_appended (sender : DeckPtr) (l : list DeckPtr) :
  ~ In sender l ->
  filter (fun d => negb (DeckPtr_eqb d sender)) (l ++ [sender]) = l.
Proof.
  induction l as [|x l IH]; intros H.
  - cbn. destruct sender; reflexivity.
  - cbn [app filter].
    destruct (DeckPtr_eqb_spec x sender) as [->|N].
    + elim H. left. reflexivity.
    + cbn [negb]. rewrite IH; [reflexivity|]. intros C. apply H. right. exact C.
Qed.

Lemma deckUnloaded_keepPlaying_off_or_playing (m : Medley) :
  keepPlaying m && negb (isDeckPlaying m) = false ->
  deckUnloaded_keepPlaying m = Ok m.
Proof. intros H. unfold deckUnloaded_keepPlaying. rewrite H. reflexivity. Qed.

(** X22: a load that is given up at once.  When the deck that reports
    [loaded] was not in the deck queue and the same deck then reports
    [unloaded] (it is not the transiting deck, and the engine is not
    waiting for something to play), the engine is back where it was: both
    decks, the deck queue with its main deck, the transition state and the
    queue of tracks are as before the two events; only [markAsMain] calls
    and the two listener events were added to the trace. *)
Theorem deckLoaded_then_deckUnloaded (sender : DeckPtr) (m : Medley) :
  mainIsHead m ->
  ~ In sender (deckQueue m) ->
  transitingDeck m <> Some sender ->
  keepPlaying m && negb (isDeckPlaying m) = false ->
  exists m',
    deckUnloaded sender (deckLoaded sender m) = Ok m'
    /\ deck1 m' = deck1 m
    /\ deck2 m' = deck2 m
    /\ control m' = control m
    /\ queue m' = queue m
    /\ exists l, trace m' = trace m ++ l /\ forallb isMarkOrEvent l = true.
Proof.
  intros Inv Hin Ht Hk.
  set (L := deckLoaded sender m).
  assert (TL : isTransitingDeck sender L = false).
  { unfold isTransitingDeck.
    replace (transitingDeck L) with (transitingDeck m).
    2:{ unfold L, deckLoaded, markFrontAsMain. cbn [deckQueue setDeckQueue].
        destruct (deckQueue m ++ [sender]) as [|f r]; [reflexivity|].
        destruct f; reflexivity. }
    destruct (transitingDeck m) as [t|]; [|reflexivity].
    destruct (DeckPtr_eqb_spec sender t) as [->|N]; [|reflexivity].
    elim Ht. reflexivity. }
  destruct (deckUnloaded_transiting_cases sender L) as (m1 & E1 & _ & _ & _ & _ & N1 & _).
  rewrite (N1 TL) in E1. clear N1 m1.
  unfold deckUnloaded. rewrite E1. cbn [bind].
  assert (Ms : main (getDeck sender m) = false).
  { destruct (main (getDeck sender m)) eqn:C; [|reflexivity].
    apply Inv in C. unfold getMainDeck in C.
    destruct (deckQueue m) as [|f r]; [discriminate C|].
    injection C as ->. elim Hin. left. reflexivity. }
  set (U := deckUnloaded_dequeue sender L).
  assert (G : deck1 U = deck1 m /\ deck2 U = deck2 m /\ control U = control m
              /\ queue U = queue m
              /\ exists l, trace U = trace m ++ l
                           /\ forallb isMarkOrEvent l = true).
  { unfold U, L, deckUnloaded_dequeue, deckLoaded, markFrontAsMain.
    cbn [deckQueue setDeckQueue emit record].
    destruct (deckQueue m) as [|front rest] eqn:Q.
    - unfold control. cbn [app].
      destruct sender; cbn in Ms |- *; rewrite Q;
        (split; [destruct (deck1 m); cbn in Ms |- *; rewrite <- ?Ms; reflexivity|]);
        (split; [destruct (deck2 m); cbn in Ms |- *; rewrite <- ?Ms; reflexivity|]);
        (split; [reflexivity|]); (split; [reflexivity|]);
        eexists; (split; [rewrite <- !app_assoc; cbn [app]; reflexivity|reflexivity]).
    - assert (Mf : main (getDeck front m) = true).
      { apply Inv. unfold getMainDeck. rewrite Q. reflexivity. }
      assert (Nf : front <> sender).
      { intros C. apply Hin. left. exact C. }
      assert (F : filter (fun d => negb (DeckPtr_eqb d sender))
                         (front :: rest ++ [sender]) = front :: rest).
      { apply (filter_appended sender (front :: rest)). exact Hin. }
      unfold control.
      destruct sender, front; try (elim Nf; reflexivity);
        cbn in Ms, Mf |- *; cbn in F; rewrite ?F; cbn; rewrite ?F, ?Q;
        (split; [destruct (deck1 m); cbn in Ms, Mf |- *;
                 rewrite <- ?Ms, <- ?Mf; reflexivity|]);
        (split; [destruct (deck2 m); cbn in Ms, Mf |- *;
                 rewrite <- ?Ms, <- ?Mf; reflexivity|]);
        (split; [reflexivity|]); (split; [reflexivity|]);
        eexists; (split; [rewrite <- !app_assoc; cbn [app]; reflexivity|reflexivity]). }
  destruct G as (G1 & G2 & G3 & G4 & G5).
  exists U. split.
  - apply deckUnloaded_keepPlaying_off_or_playing.
    assert (K : keepPlaying U = keepPlaying m)
      by (unfold control in G3; congruence).
    assert (P : isDeckPlaying U = isDeckPlaying m)
      by (unfold isDeckPlaying; rewrite G1, G2; reflexivity).
    rewrite K, P. exact Hk.
  - repeat split; assumption.
Qed.

(** ** Playback and the queue of tracks, handler by handler *)

Lemma deckUnloaded_keepPlaying_cases (m m' : Medley) :
  deckUnloaded_keepPlaying m = Ok m' ->
  (keepPlaying m' = true -> keepPlaying m = true)
  /\ (keepPlaying m = true -> keepPlaying m' = false ->
      queue m' = [] /\ isDeckPlaying m' = false).
Proof.
  unfold deckUnloaded_keepPlaying.
  destruct (keepPlaying m && negb (isDeckPlaying m)) eqn:B.
  2:{ intros H. injection H as <-. split; [auto|]. intros K1 K2. congruence. }
  apply andb_prop in B. destruct B as [K P]. apply Bool.negb_true_iff in P.
  cbv zeta. destruct (queue m) as [|t rest] eqn:Q.
  - cbn [length Nat.ltb Nat.leb]. intros H. injection H as <-.
    split; [intros C; discriminate C|]. intros _ _. split; [exact Q|exact P].
  - cbn [length Nat.ltb Nat.leb].
    destruct (loadNextTrack None true (setKeepPlaying true m)) as [r|] eqn:E;
      cbn [bind]; [|discriminate].
    intros H. injection H as <-.
    destruct (loadNextTrack_frame _ _ _ _ E) as (C & _).
    assert (K' : keepPlaying (snd r) = keepPlaying (setKeepPlaying true m))
      by (unfold control in C; congruence).
    cbn [keepPlaying setKeepPlaying] in K'.
    split; [intros _; exact K|]. intros _ C'. congruence.
Qed.

(** X23: who switches [keepPlaying].  Of all callbacks and API calls only
    [play] turns it on.  It is turned off only by [stop], and by an
    [unloaded] callback that finds no deck playing and the queue of tracks
    empty; after such a callback the queue is empty and no deck plays. *)
Theorem keepPlaying_step pow (i : Input) (m m' : Medley) :
  handle pow i m = Ok m' ->
  (keepPlaying m' = true -> i = InPlay \/ keepPlaying m = true)
  /\ (keepPlaying m = true -> keepPlaying m' = false ->
      i = InStop
      \/ exists sender,
           i = InDeckUnloaded sender
           /\ queue m' = []
           /\ isDeckPlaying m' = false).
Proof.
  intros H.
  assert (Same : keepPlaying m' = keepPlaying m ->
                 (keepPlaying m' = true -> i = InPlay \/ keepPlaying m = true)
                 /\ (keepPlaying m = true -> keepPlaying m' = false ->
                     i = InStop
                     \/ exists sender,
                          i = InDeckUnloaded sender
                          /\ queue m' = []
                          /\ isDeckPlaying m' = false)).
  { intros E. rewrite E. split; [auto|]. intros K1 K2. congruence. }
  destruct i; cbn [handle] in H;
    try (injection H as <-; apply Same; reflexivity).
  - injection H as <-. apply Same.
    unfold deckLoaded, markFrontAsMain. cbn [deckQueue setDeckQueue].
    destruct (deckQueue m ++ [sender]) as [|f r]; [reflexivity|].
    destruct f; reflexivity.
  - unfold deckUnloaded in H.
    destruct (deckUnloaded_transiting_cases sender m) as (m1 & E1 & K1 & _).
    rewrite E1 in H. cbn [bind] in H.
    destruct (deckUnloaded_dequeue_frame sender m1) as (_ & _ & K2 & _).
    destruct (deckUnloaded_keepPlaying_cases _ _ H) as (A & B).
    rewrite K2, K1 in A, B. split; [intros C; right; exact (A C)|].
    intros C1 C2. right. exists sender. split; [reflexivity|exact (B C1 C2)].
  - destruct (deckPosition_settings pow sender position m) as (m2 & E & S).
    rewrite E in H. injection H as <-. apply Same.
    apply settings_fields in S. apply S.
  - split; [intros _; left; reflexivity|].
    unfold play in H.
    destruct (if negb (isDeckPlaying m)
              then r <- loadNextTrack None true m;; Ok (snd r)
              else Ok m) as [m1|]; cbn [bind] in H; [|discriminate H].
    injection H as <-. intros _ C. discriminate C.
  - injection H as <-. split; [intros C; discriminate C|].
    intros _ _. left. reflexivity.
  - injection H as <-. apply Same.
    unfold fadeOutMainDeck. destruct (getMainDeck m) as [deck|]; [|reflexivity].
    cbv zeta. destruct (TransitionState_eqb _ Transit).
    + destruct (getMainDeck _) as [d|]; [destruct d|]; destruct deck; reflexivity.
    + destruct deck; reflexivity.
  - injection H as <-. apply Same. destruct d; reflexivity.
Qed.

Lemma loadedTracks_app (l1 l2 : list Action) :
  loadedTracks (l1 ++ l2) = loadedTracks l1 ++ loadedTracks l2.
Proof. apply flat_map_app. Qed.

Lemma loadedTracks_none (l : list Action) :
  (forall a, In a l -> forall d t p, a <> OnDeck d (CallLoadTrack t p)) ->
  loadedTracks l = [].
Proof.
  induction l as [|a l IH]; intros H; [reflexivity|].
  cbn [loadedTracks flat_map]. fold (loadedTracks l).
  rewrite IH by (intros b Hb; apply H; right; exact Hb).
  destruct a as [d c|e]; [|reflexivity].
  destruct c as [t0 p0| | | | | | | | |]; try reflexivity.
  elim (H _ (or_introl eq_refl) d t0 p0). reflexivity.
Qed.

Lemma loadedTracks_marks (l : list Action) :
  forallb isMarkOrEvent l = true -> loadedTracks l = [].
Proof.
  intros H. apply loadedTracks_none. intros a Ha d t p ->.
  rewrite forallb_forall in H. specialize (H _ Ha). discriminate H.
Qed.

(** The tracks a run of the loop has taken from the queue are the tracks
    of its [loadTrack] calls. *)
Lemma fetchAndLoad_consumes (deck : DeckPtr) (play : bool) (q : list Track) :
  forall m : Medley,
    queue m = q ->
    exists fetched l,
      q = fetched ++ queue (snd (fetchAndLoad deck play q m))
      /\ trace (snd (fetchAndLoad deck play q m)) = trace m ++ l
      /\ loadedTracks l = fetched.
Proof.
  induction q as [|track rest IH]; intros m Hq; cbn [fetchAndLoad].
  - exists [], []. cbn [snd app]. rewrite app_nil_r.
    split; [symmetry; exact Hq|]. split; reflexivity.
  - unfold loadTrack.
    destruct (loadAccepted track (getDeck deck (setQueue rest m))); cbn [snd].
    + exists [track], [OnDeck deck (CallLoadTrack track play)].
      split; [destruct deck; reflexivity|].
      split; [destruct deck; reflexivity|reflexivity].
    + destruct (IH (record (OnDeck deck (CallLoadTrack track play))
                      (setQueue rest m)) eq_refl) as (fetched & l & Q & T & L).
      exists (track :: fetched), (OnDeck deck (CallLoadTrack track play) :: l).
      split; [cbn [app]; rewrite <- Q; reflexivity|].
      split; [rewrite T; cbn [trace record setQueue];
              rewrite <- app_assoc; reflexivity|].
      cbn [loadedTracks flat_map app]. fold (loadedTracks l). rewrite L.
      reflexivity.
Qed.

Lemma loadNextTrack_consumes (cur : option DeckPtr) (play : bool) (m : Medley)
  (r : bool * Medley) :
  loadNextTrack cur play m = Ok r ->
  exists fetched l,
    queue m = fetched ++ queue (snd r)
    /\ trace (snd r) = trace m ++ l
    /\ loadedTracks l = fetched.
Proof.
  unfold loadNextTrack.
  destruct (getAnotherDeck cur m) as [deck|].
  2:{ destruct cur; [|discriminate]. intros H. injection H as <-.
      exists [], []. cbn [snd app]. rewrite app_nil_r.
      split; [reflexivity|]. split; reflexivity. }
  intros H. injection H as <-.
  destruct (isTrackLoading (getDeck deck m)).
  - destruct (fetchAndLoad_consumes deck play
                (queue (onDeck deck CallUnloadTrack m))
                (onDeck deck CallUnloadTrack m) eq_refl)
      as (fetched & l & Q & T & L).
    exists fetched, ([OnDeck deck CallUnloadTrack] ++ l).
    split; [rewrite <- Q; destruct deck; reflexivity|].
    split; [rewrite T, trace_onDeck, <- app_assoc; reflexivity|].
    rewrite loadedTracks_app. exact L.
  - destruct (fetchAndLoad_consumes deck play (queue m) m eq_refl)
      as (fetched & l & Q & T & L).
    exists fetched, l. split; [exact Q|]. split; [exact T|exact L].
Qed.

Lemma afterCueing_loads pow sender position m x :
  exists l,
    trace (afterCueing pow sender position m x) = trace x ++ l
    /\ loadedTracks l = []
    /\ queue (afterCueing pow sender position m x) = queue x.
Proof.
  unfold afterCueing.
  set (start := transitionStartPosition (getDeck sender m)).
  set (fin := transitionEndPosition (getDeck sender m)).
  set (leading := leadingDuration (getDeck (otherDeck sender) m)).
  destruct (deckPosition_transiting_calls pow (otherDeck sender) position
              start leading x) as (l1 & T1 & H1).
  destruct (deckPosition_transiting_settings pow (otherDeck sender) position
              start leading x) as (_ & Q1).
  set (y := deckPosition_transiting pow (otherDeck sender) position
              start leading x) in *.
  destruct (deckPosition_fadingOut_calls pow sender position start fin y)
    as (l2 & T2 & H2 & _).
  exists (l1 ++ l2). split; [rewrite T2, T1, <- app_assoc; reflexivity|].
  split; [|rewrite deckPosition_fadingOut_queue; exact Q1].
  rewrite loadedTracks_app.
  rewrite (loadedTracks_none l1), (loadedTracks_none l2); [reflexivity| |].
  - intros a Ha d t p ->. destruct (H2 _ Ha) as [C|(v & C)]; discriminate C.
  - intros a Ha d t p ->. destruct (H1 _ Ha) as (c & E & I).
    injection E as _ <-. discriminate I.
Qed.

Lemma deckUnloaded_keepPlaying_consumes (m m' : Medley) :
  deckUnloaded_keepPlaying m = Ok m' ->
  exists fetched l,
    queue m = fetched ++ queue m'
    /\ trace m' = trace m ++ l
    /\ loadedTracks l = fetched.
Proof.
  assert (Same : forall x : Medley,
             queue x = queue m -> trace x = trace m ->
             exists fetched l,
               queue m = fetched ++ queue x
               /\ trace x = trace m ++ l
               /\ loadedTracks l = fetched).
  { intros x Q T. exists [], []. rewrite Q, T, app_nil_r.
    split; [reflexivity|]. split; reflexivity. }
  unfold deckUnloaded_keepPlaying.
  destruct (keepPlaying m && negb (isDeckPlaying m));
    [|intros H; injection H as <-; apply Same; reflexivity].
  cbv zeta. destruct (0 <? length (queue m))%nat;
    [|intros H; injection H as <-; apply Same; reflexivity].
  destruct (loadNextTrack None true (setKeepPlaying true m)) as [r|] eqn:E;
    cbn [bind]; [|discriminate].
  intros H. injection H as <-.
  exact (loadNextTrack_consumes _ _ _ _ E).
Qed.

Lemma fadeOutMainDeck_trace (m : Medley) :
  queue (fadeOutMainDeck m) = queue m
  /\ exists l,
       trace (fadeOutMainDeck m) = trace m ++ l /\ loadedTracks l = [].
Proof.
  unfold fadeOutMainDeck. destruct (getMainDeck m) as [deck|].
  2:{ split; [reflexivity|]. exists []. rewrite app_nil_r. split; reflexivity. }
  cbv zeta. destruct (TransitionState_eqb _ Transit).
  - destruct (getMainDeck _) as [d|]; [destruct d|]; destruct deck;
      (split; [reflexivity|]); eexists;
      (split; [cbn; rewrite <- ?app_assoc; cbn [app]; reflexivity|reflexivity]).
  - destruct deck; (split; [reflexivity|]); eexists;
      (split; [cbn; reflexivity|reflexivity]).
Qed.

(** X24: the engine consumes the queue of tracks in order.  Every callback
    and API call that returns leaves the queue a suffix of what it was: the
    tracks fetched are the ones at its front, none is put back and none is
    reordered.  The [loadTrack] calls the handler makes, the ones a deck
    refuses included, are one call for each track fetched, in the order of
    the queue.  Only [play], the [unloaded] callback and the position
    callback fetch at all. *)
Theorem handle_consumes_queue_in_order pow (i : Input) (m m' : Medley) :
  handle pow i m = Ok m' ->
  exists fetched l,
    queue m = fetched ++ queue m'
    /\ trace m' = trace m ++ l
    /\ loadedTracks l = fetched
    /\ (fetched <> [] ->
        match i with
        | InPlay | InDeckUnloaded _ | InDeckPosition _ _ => True
        | _ => False
        end).
Proof.
  intros H.
  assert (Same : forall l,
             queue m' = queue m -> trace m' = trace m ++ l ->
             loadedTracks l = [] ->
             exists fetched l,
               queue m = fetched ++ queue m'
               /\ trace m' = trace m ++ l
               /\ loadedTracks l = fetched
               /\ (fetched <> [] ->
                   match i with
                   | InPlay | InDeckUnloaded _ | InDeckPosition _ _ => True
                   | _ => False
                   end)).
  { intros l Q T L. exists [], l. rewrite Q.
    split; [reflexivity|]. split; [exact T|]. split; [exact L|].
    intros C. elim C. reflexivity. }
  assert (Some' : forall fetched l,
             queue m = fetched ++ queue m' -> trace m' = trace m ++ l ->
             loadedTracks l = fetched ->
             match i with
             | InPlay | InDeckUnloaded _ | InDeckPosition _ _ => True
             | _ => False
             end ->
             exists fetched l,
               queue m = fetched ++ queue m'
               /\ trace m' = trace m ++ l
               /\ loadedTracks l = fetched
               /\ (fetched <> [] ->
                   match i with
                   | InPlay | InDeckUnloaded _ | InDeckPosition _ _ => True
                   | _ => False
                   end)).
  { intros fetched l Q T L I. exists fetched, l.
    split; [exact Q|]. split; [exact T|]. split; [exact L|]. intros _. exact I. }
  destruct i; cbn [handle] in H.
  - injection H as <-. apply (Same [Emit (EvDeckStarted sender)]); reflexivity.
  - injection H as <-. apply (Same [Emit (EvDeckFinished sender)]); reflexivity.
  - injection H as <-.
    unfold deckLoaded, markFrontAsMain in *. cbn [deckQueue setDeckQueue] in *.
    destruct (deckQueue m ++ [sender]) as [|f r].
    + apply (Same [Emit (EvDeckLoaded sender)]); reflexivity.
    + apply (Same [OnDeck f (CallMarkAsMain true); Emit (EvDeckLoaded sender)]);
        [destruct f; reflexivity| |reflexivity].
      destruct f; cbn; rewrite <- app_assoc; reflexivity.
  - unfold deckUnloaded in H.
    destruct (deckUnloaded_transiting_cases sender m)
      as (m1 & E1 & _ & Q1 & _ & _ & _ & _ & T1).
    rewrite E1 in H. cbn [bind] in H.
    destruct (deckUnloaded_dequeue_frame sender m1) as (_ & _ & _ & Q2 & _).
    destruct (deckUnloaded_dequeue_trace sender m1) as (l2 & T2 & F2).
    destruct (deckUnloaded_keepPlaying_consumes _ _ H) as (fetched & l3 & Q3 & T3 & L3).
    assert (T : exists l1, trace m1 = trace m ++ l1 /\ loadedTracks l1 = []).
    { destruct T1 as [(T1 & _)|(T1 & _)].
      - exists []. rewrite app_nil_r. split; [exact T1|reflexivity].
      - eexists. split; [exact T1|reflexivity]. }
    destruct T as (l1 & T1' & L1).
    apply (Some' fetched (l1 ++ l2 ++ l3)).
    + rewrite <- Q3, Q2, Q1. reflexivity.
    + rewrite T3, T2, T1', <- !app_assoc. reflexivity.
    + rewrite !loadedTracks_app, L1, (loadedTracks_marks _ F2). exact L3.
    + exact I.
  - rename H into H0.
    destruct (main (getDeck sender m)) eqn:Hmain.
    2:{ destruct (deckPosition_not_main_cases pow sender position m Hmain) as [E|E];
          rewrite E in H0; injection H0 as <-.
        - apply (Same [Emit (EvDeckPosition sender position)]); reflexivity.
        - apply (Same [Emit (EvDeckPosition sender position);
                       OnDeck sender (CallMarkAsMain true)]);
            [destruct sender; reflexivity| |reflexivity].
          rewrite trace_onDeck. cbn. rewrite <- app_assoc. reflexivity. }
    destruct (deckPosition_main pow sender position m Hmain) as (l & Hl & E).
    rewrite E in H0. injection H0 as H0.
    destruct (loadNextTrack_consumes _ _ _ _ Hl) as (fetched & ll & Ql & Tl & Ll).
    assert (Hp : queue (preCueStep sender position m) = queue m
                 /\ exists lp, trace (preCueStep sender position m) = trace m ++ lp
                               /\ loadedTracks lp = []).
    { unfold preCueStep. split_ifs; (split; [reflexivity|]); eexists;
        (split; [cbn; rewrite <- ?app_assoc; cbn [app]; reflexivity|reflexivity]). }
    destruct Hp as (Qp & lp & Tp & Lp).
    assert (After : forall x fetched0 l0,
               m' = afterCueing pow sender position m x ->
               queue m = fetched0 ++ queue x ->
               trace x = trace m ++ l0 ->
               loadedTracks l0 = fetched0 ->
               exists fetched l,
                 queue m = fetched ++ queue m'
                 /\ trace m' = trace m ++ l
                 /\ loadedTracks l = fetched
                 /\ (fetched <> [] -> True)).
    { intros x fetched0 l0 -> Q T L.
      destruct (afterCueing_loads pow sender position m x) as (la & Ta & La & Qa).
      exists fetched0, (l0 ++ la).
      split; [rewrite Qa; exact Q|].
      split; [rewrite Ta, T, <- app_assoc; reflexivity|].
      split; [|intros _; exact I].
      rewrite loadedTracks_app, La, app_nil_r. exact L. }
    assert (Ql' : queue m = fetched ++ queue (snd l)) by (rewrite <- Ql; symmetry; exact Qp).
    assert (Tl' : trace (snd l) = trace m ++ lp ++ ll)
      by (rewrite Tl, Tp, <- app_assoc; reflexivity).
    assert (Ll' : loadedTracks (lp ++ ll) = fetched)
      by (rewrite loadedTracks_app, Lp; exact Ll).
    destruct (TransitionState_ltb (transitionState m) Cued);
      [destruct (position >? transitionCuePosition (getDeck sender m));
       [destruct (negb (fst l) && (forceFadingOut m <=? 0)%Z)|]|].
    + subst m'. apply (Some' fetched (lp ++ ll)); [exact Ql'|exact Tl'|exact Ll'|exact I].
    + apply (After (cued sender (snd l)) fetched (lp ++ ll));
        [symmetry; exact H0|exact Ql'|exact Tl'|exact Ll'].
    + apply (After (preCueStep sender position m) [] lp); [symmetry; exact H0|rewrite Qp; reflexivity|exact Tp|].
      exact Lp.
    + apply (After (emit (EvDeckPosition sender position) m) []
               [Emit (EvDeckPosition sender position)]);
        [symmetry; exact H0|reflexivity|reflexivity|reflexivity].
  - injection H as <-. apply (Same [Emit EvAudioDeviceChanged]); reflexivity.
  - unfold play in H.
    destruct (isDeckPlaying m); cbn [negb bind] in H.
    + injection H as <-. apply (Same []); [reflexivity| |reflexivity].
      cbn. rewrite app_nil_r. reflexivity.
    + destruct (loadNextTrack None true m) as [r|] eqn:E; cbn [bind] in H;
        [|discriminate H].
      injection H as <-.
      destruct (loadNextTrack_consumes _ _ _ _ E) as (fetched & l & Q & T & L).
      apply (Some' fetched l); [exact Q|exact T|exact L|exact I].
  - injection H as <-.
    apply (Same [OnDeck Deck1 CallStop; OnDeck Deck2 CallStop;
                 OnDeck Deck1 CallUnloadTrack; OnDeck Deck2 CallUnloadTrack]);
      [reflexivity| |reflexivity].
    cbn. rewrite <- !app_assoc. reflexivity.
  - injection H as <-.
    destruct (fadeOutMainDeck_trace m) as (Q & l & T & L).
    apply (Same l); assumption.
  - injection H as <-. apply (Same []); [reflexivity| |reflexivity].
    cbn. rewrite app_nil_r. reflexivity.
  - injection H as <-. apply (Same []); [reflexivity| |reflexivity].
    cbn. rewrite app_nil_r. reflexivity.
  - injection H as <-. apply (Same []); [destruct d; reflexivity| |reflexivity].
    destruct d; cbn; rewrite app_nil_r; reflexivity.
  - injection H as <-.
    apply (Same [OnDeck Deck1 (CallSetMaxTransitionTime value);
                 OnDeck Deck2 (CallSetMaxTransitionTime value)]);
      [reflexivity| |reflexivity].
    cbn. rewrite <- app_assoc. reflexivity.
  - injection H as <-. apply (Same []); [reflexivity| |reflexivity].
    cbn. rewrite app_nil_r. reflexivity.
Qed.

(** ** The properties at concrete engines *)


(** [pause_and_resume] at concrete values. *)
Lemma pause_and_resume_witness :
  (stalled quietMixer = paused quietMixer)
  /\
  (let level (p : bool) := if p then lit 0 else lit 1 in
   let r := mixerRun [TogglePause; Block stereoBlock; TogglePause; Block stereoBlock] quietMixer in
   fst r = mkMixer (paused quietMixer) (paused quietMixer) true (prepared quietMixer)
   /\ map (filter isGainRamp) (snd r)
      = [gainRamps stereoBlock (level (paused quietMixer)) (level (negb (paused quietMixer)));
         gainRamps stereoBlock (level (negb (paused quietMixer))) (level (paused quietMixer))]
   /\ map (existsb isMixInputs) (snd r) = [true; true]
   /\ mixerRun [TogglePause; TogglePause; Block stereoBlock] quietMixer = mixerRun [Block stereoBlock] quietMixer).
Proof.
  assert (H1 : stalled quietMixer = paused quietMixer)
    by (reflexivity).
  exact (conj H1 (pause_and_resume stereoBlock stereoBlock quietMixer H1)).
Defined.

(** [loadNextTrack_skips_refused_tracks] at concrete values. *)
Lemma loadNextTrack_skips_refused_tracks_witness :
  (getAnotherDeck (Some Deck1) soloBeforeBroken = Some Deck2)
  /\
  (queue soloBeforeBroken = [brokenTrack] ++ [trackB; trackA])
  /\
  (forallb (fun t => negb (openable t)) [brokenTrack] = true)
  /\
  (match [trackB; trackA] with [] => True | t :: _ => openable t = true end)
  /\
  (exists m',
     loadNextTrack (Some Deck1) false soloBeforeBroken
     = Ok (match [trackB; trackA] with [] => false | _ :: _ => true end, m')
     /\ queue m' = tl [trackB; trackA]
     /\ trace m'
        = trace soloBeforeBroken
          ++ (if isTrackLoading (getDeck Deck2 soloBeforeBroken)
              then [OnDeck Deck2 CallUnloadTrack] else [])
          ++ map (fun t => OnDeck Deck2 (CallLoadTrack t false)) [brokenTrack]
          ++ match [trackB; trackA] with
             | [] => []
             | t :: _ => [OnDeck Deck2 (CallLoadTrack t false)]
             end
     /\ isTrackLoading (getDeck Deck2 m')
        = match [trackB; trackA] with [] => false | _ :: _ => true end).
Proof.
  assert (H1 : getAnotherDeck (Some Deck1) soloBeforeBroken = Some Deck2)
    by (reflexivity).
  assert (H2 : queue soloBeforeBroken = [brokenTrack] ++ [trackB; trackA])
    by (reflexivity).
  assert (H3 : forallb (fun t => negb (openable t)) [brokenTrack] = true)
    by (vm_compute; reflexivity).
  assert (H4 : match [trackB; trackA] with [] => True | t :: _ => openable t = true end)
    by (vm_compute; reflexivity).
  exact (conj H1 (conj H2 (conj H3 (conj H4 (loadNextTrack_skips_refused_tracks (Some Deck1) Deck2 false soloBeforeBroken [brokenTrack] [trackB; trackA] H1 H2 H3 H4))))).
Defined.

(** [deckUnloaded_while_not_keepPlaying] at concrete values. *)
Lemma deckUnloaded_while_not_keepPlaying_witness :
  (keepPlaying (stop soloPlaying) = false)
  /\
  (exists m' l,
     deckUnloaded Deck1 (stop soloPlaying) = Ok m'
     /\ keepPlaying m' = false
     /\ queue m' = queue (stop soloPlaying)
     /\ trace m' = trace (stop soloPlaying) ++ l
     /\ forall d c,
          In (OnDeck d c) l ->
          (exists b, c = CallMarkAsMain b)
          \/ (c = CallStart
              /\ d = otherDeck Deck1
              /\ transitingDeck (stop soloPlaying) = Some Deck1
              /\ transitionState (stop soloPlaying) = Cued
              /\ trackLoaded (getDeck d (stop soloPlaying)) = true)).
Proof.
  assert (H1 : keepPlaying (stop soloPlaying) = false)
    by (reflexivity).
  exact (conj H1 (deckUnloaded_while_not_keepPlaying Deck1 (stop soloPlaying) H1)).
Defined.

(** [deckUnloaded_with_empty_queue] at concrete values. *)
Lemma deckUnloaded_with_empty_queue_witness :
  (queue lastTrackPlaying = [])
  /\
  (exists m' l,
     deckUnloaded Deck1 lastTrackPlaying = Ok m'
     /\ queue m' = []
     /\ keepPlaying m' = keepPlaying lastTrackPlaying && isDeckPlaying m'
     /\ trace m' = trace lastTrackPlaying ++ l
     /\ forall d c,
          In (OnDeck d c) l -> c = CallStart \/ exists b, c = CallMarkAsMain b).
Proof.
  assert (H1 : queue lastTrackPlaying = [])
    by (reflexivity).
  exact (conj H1 (deckUnloaded_with_empty_queue Deck1 lastTrackPlaying H1)).
Defined.

(** [fadeOutMainDeck_then_cue] at concrete values. *)
Lemma fadeOutMainDeck_then_cue_witness :
  (mainIsHead soloPlaying)
  /\
  (getMainDeck soloPlaying = Some Deck1)
  /\
  (TransitionState_ltb (transitionState soloPlaying) Cued = true)
  /\
  ((0 <= forceFadingOut soloPlaying < 2 ^ 31 - 1)%Z)
  /\
  (((lit 7) >? transitionCuePosition (getDeck Deck1 soloPlaying)) = true)
  /\
  (exists m',
     deckPosition linear_pow Deck1 (lit 7) (fadeOutMainDeck soloPlaying) = Ok m'
     /\ transitingDeck m' = Some Deck1
     /\ (transitionState m' = Cued \/ transitionState m' = Transit)
     /\ forceFadingOut m' = (forceFadingOut soloPlaying + 1)%Z
     /\ paused (mixer m') = false
     /\ In (OnDeck Deck1 CallFadeOut) (trace m')).
Proof.
  assert (H1 : mainIsHead soloPlaying)
    by (intros d; destruct d; split; intros E; first [reflexivity | discriminate E]).
  assert (H2 : getMainDeck soloPlaying = Some Deck1)
    by (reflexivity).
  assert (H3 : TransitionState_ltb (transitionState soloPlaying) Cued = true)
    by (vm_compute; reflexivity).
  assert (H4 : (0 <= forceFadingOut soloPlaying < 2 ^ 31 - 1)%Z)
    by (simpl; lia).
  assert (H5 : ((lit 7) >? transitionCuePosition (getDeck Deck1 soloPlaying)) = true)
    by (vm_compute; reflexivity).
  exact (conj H1 (conj H2 (conj H3 (conj H4 (conj H5 (fadeOutMainDeck_then_cue linear_pow Deck1 (lit 7) soloPlaying H1 H2 H3 H4 H5)))))).
Defined.

(** [position_of_deck_not_main] at concrete values. *)
Lemma position_of_deck_not_main_witness :
  (reachable linear_pow firstTrackPlaying)
  /\
  (main (getDeck Deck2 firstTrackPlaying) = false)
  /\
  (exists m',
     deckPosition linear_pow Deck2 (lit 1) firstTrackPlaying = Ok m'
     /\ trace m' = trace firstTrackPlaying ++ [Emit (EvDeckPosition Deck2 (lit 1))]
     /\ control m' = control firstTrackPlaying
     /\ queue m' = queue firstTrackPlaying
     /\ deck1 m' = deck1 firstTrackPlaying
     /\ deck2 m' = deck2 firstTrackPlaying).
Proof.
  assert (H1 : reachable linear_pow firstTrackPlaying)
    by (exists [trackA; trackB], (lit 50), (lit 2), (lit 2.5), firstTrackInputs; vm_compute; reflexivity).
  assert (H2 : main (getDeck Deck2 firstTrackPlaying) = false)
    by (vm_compute; reflexivity).
  exact (conj H1 (conj H2 (position_of_deck_not_main linear_pow Deck2 (lit 1) firstTrackPlaying H1 H2))).
Defined.

(** [transiting_deck_is_main_deck] at concrete values. *)
Lemma transiting_deck_is_main_deck_witness :
  (reachable linear_pow firstTrackCued)
  /\
  (transitionState firstTrackCued = Cued \/ transitionState firstTrackCued = Transit)
  /\
  (exists d,
     transitingDeck firstTrackCued = Some d
     /\ getMainDeck firstTrackCued = Some d
     /\ main (getDeck d firstTrackCued) = true
     /\ main (getDeck (otherDeck d) firstTrackCued) = false).
Proof.
  assert (H1 : reachable linear_pow firstTrackCued)
    by (exists [trackA; trackB], (lit 50), (lit 2), (lit 2.5), firstTrackCuedInputs; vm_compute; reflexivity).
  assert (H2 : transitionState firstTrackCued = Cued \/ transitionState firstTrackCued = Transit)
    by (left; vm_compute; reflexivity).
  exact (conj H1 (conj H2 (transiting_deck_is_main_deck linear_pow firstTrackCued H1 H2))).
Defined.

(** [fade_out_of_main_deck] at concrete values. *)
Lemma fade_out_of_main_deck_witness :
  (main (getDeck Deck1 shortCued) = true)
  /\
  (transitionState shortCued = Cued \/ transitionState shortCued = Transit)
  /\
  (transitionStartPosition (getDeck Deck1 shortCued) = Fin 8%Q)
  /\
  (transitionEndPosition (getDeck Deck1 shortCued) = Fin 10%Q)
  /\
  ((8%Q < 10%Q)%Q)
  /\
  ((8%Q <= 9%Q)%Q)
  /\
  (exists m' g,
     deckPosition linear_pow Deck1 (Fin 9%Q) shortCued = Ok m'
     /\ volume (getDeck Deck1 m') = linear_pow (Fin g) (fadingFactor shortCued)
     /\ (0 <= g <= 1)%Q
     /\ ((9%Q <= 10%Q)%Q ->
         (g == (10%Q - 9%Q) / (10%Q - 8%Q))%Q
         /\ playing (getDeck Deck1 m') = playing (getDeck Deck1 shortCued))
     /\ ((10%Q < 9%Q)%Q ->
         (g == 0)%Q
         /\ playing (getDeck Deck1 m') = false
         /\ In (OnDeck Deck1 CallStop) (trace m'))).
Proof.
  assert (H1 : main (getDeck Deck1 shortCued) = true)
    by (reflexivity).
  assert (H2 : transitionState shortCued = Cued \/ transitionState shortCued = Transit)
    by (left; reflexivity).
  assert (H3 : transitionStartPosition (getDeck Deck1 shortCued) = Fin 8%Q)
    by (reflexivity).
  assert (H4 : transitionEndPosition (getDeck Deck1 shortCued) = Fin 10%Q)
    by (reflexivity).
  assert (H5 : (8%Q < 10%Q)%Q)
    by (vm_compute; reflexivity).
  assert (H6 : (8%Q <= 9%Q)%Q)
    by (unfold Qle; simpl; lia).
  exact (conj H1 (conj H2 (conj H3 (conj H4 (conj H5 (conj H6 (fade_out_of_main_deck linear_pow Deck1 9%Q 8%Q 10%Q shortCued H1 H2 H3 H4 H5 H6))))))).
Defined.

(** [fadingFactor_grows_with_curve] at concrete values. *)
Lemma fadingFactor_grows_with_curve_witness :
  ((20%Q <= 80%Q)%Q)
  /\
  (exists f1 f2,
     fadingFactor (setFadingCurve (Fin 20%Q) soloPlaying) = Fin f1
     /\ fadingFactor (setFadingCurve (Fin 80%Q) soloPlaying) = Fin f2
     /\ (1 <= f1)%Q /\ (f1 <= f2)%Q /\ (f2 <= 1000)%Q
     /\ ((80%Q <= 0)%Q -> (f2 == 1)%Q)
     /\ ((100 <= 20%Q)%Q -> (f1 == 1000)%Q)).
Proof.
  assert (H1 : (20%Q <= 80%Q)%Q)
    by (unfold Qle; simpl; lia).
  exact (conj H1 (fadingFactor_grows_with_curve 20%Q 80%Q soloPlaying soloPlaying H1)).
Defined.

(** [forceFadingOut_step] at concrete values. *)
Lemma forceFadingOut_step_witness :
  ((0 <= forceFadingOut soloPlaying < 2 ^ 31 - 1)%Z)
  /\
  (handle linear_pow InFadeOutMainDeck soloPlaying = Ok (fadeOutMainDeck soloPlaying))
  /\
  (forceFadingOut (fadeOutMainDeck soloPlaying)
   = (forceFadingOut soloPlaying
      + match InFadeOutMainDeck with
        | InFadeOutMainDeck =>
            match getMainDeck soloPlaying with Some _ => 1 | None => 0 end
        | InDeckUnloaded sender =>
            if isTransitingDeck sender soloPlaying && (0 <? forceFadingOut soloPlaying)
            then -1 else 0
        | _ => 0
        end)%Z
   /\ (0 <= forceFadingOut (fadeOutMainDeck soloPlaying))%Z).
Proof.
  assert (H1 : (0 <= forceFadingOut soloPlaying < 2 ^ 31 - 1)%Z)
    by (simpl; lia).
  assert (H2 : handle linear_pow InFadeOutMainDeck soloPlaying = Ok (fadeOutMainDeck soloPlaying))
    by (reflexivity).
  exact (conj H1 (conj H2 (forceFadingOut_step linear_pow InFadeOutMainDeck soloPlaying (fadeOutMainDeck soloPlaying) H1 H2))).
Defined.

(** [deckLoaded_then_deckUnloaded] at concrete values. *)
Lemma deckLoaded_then_deckUnloaded_witness :
  (mainIsHead soloPlaying)
  /\
  (~ In Deck2 (deckQueue soloPlaying))
  /\
  (transitingDeck soloPlaying <> Some Deck2)
  /\
  (keepPlaying soloPlaying && negb (isDeckPlaying soloPlaying) = false)
  /\
  (exists m',
     deckUnloaded Deck2 (deckLoaded Deck2 soloPlaying) = Ok m'
     /\ deck1 m' = deck1 soloPlaying
     /\ deck2 m' = deck2 soloPlaying
     /\ control m' = control soloPlaying
     /\ queue m' = queue soloPlaying
     /\ exists l, trace m' = trace soloPlaying ++ l /\ forallb isMarkOrEvent l = true).
Proof.
  assert (H1 : mainIsHead soloPlaying)
    by (intros d; destruct d; split; intros E; first [reflexivity | discriminate E]).
  assert (H2 : ~ In Deck2 (deckQueue soloPlaying))
    by (simpl; intros [E|[]]; discriminate E).
  assert (H3 : transitingDeck soloPlaying <> Some Deck2)
    by (intros E; discriminate E).
  assert (H4 : keepPlaying soloPlaying && negb (isDeckPlaying soloPlaying) = false)
    by (reflexivity).
  exact (conj H1 (conj H2 (conj H3 (conj H4 (deckLoaded_then_deckUnloaded Deck2 soloPlaying H1 H2 H3 H4))))).
Defined.

(** [keepPlaying_step] at concrete values. *)
Lemma keepPlaying_step_witness :
  (handle linear_pow InStop soloPlaying = Ok (stop soloPlaying))
  /\
  ((keepPlaying (stop soloPlaying) = true -> InStop = InPlay \/ keepPlaying soloPlaying = true)
   /\ (keepPlaying soloPlaying = true -> keepPlaying (stop soloPlaying) = false ->
       InStop = InStop
       \/ exists sender,
            InStop = InDeckUnloaded sender
            /\ queue (stop soloPlaying) = []
            /\ isDeckPlaying (stop soloPlaying) = false)).
Proof.
  assert (H1 : handle linear_pow InStop soloPlaying = Ok (stop soloPlaying))
    by (reflexivity).
  exact (conj H1 (keepPlaying_step linear_pow InStop soloPlaying (stop soloPlaying) H1)).
Defined.

(** [handle_consumes_queue_in_order] at concrete values. *)
Lemma handle_consumes_queue_in_order_witness :
  (handle linear_pow (InDeckPosition Deck1 (lit 7)) soloBeforeBroken = Ok soloBeforeBrokenCued)
  /\
  (exists fetched l,
     queue soloBeforeBroken = fetched ++ queue soloBeforeBrokenCued
     /\ trace soloBeforeBrokenCued = trace soloBeforeBroken ++ l
     /\ loadedTracks l = fetched
     /\ (fetched <> [] ->
         match (InDeckPosition Deck1 (lit 7)) with
         | InPlay | InDeckUnloaded _ | InDeckPosition _ _ => True
         | _ => False
         end)).
Proof.
  assert (H1 : handle linear_pow (InDeckPosition Deck1 (lit 7)) soloBeforeBroken = Ok soloBeforeBrokenCued)
    by (vm_compute; reflexivity).
  exact (conj H1 (handle_consumes_queue_in_order linear_pow (InDeckPosition Deck1 (lit 7)) soloBeforeBroken soloBeforeBrokenCued H1)).
Defined.
